(** * OpenMiddleware: the execution engine, the context derivation and the
      pass-through adapters, embedded from the TypeScript sources.

    Source files embedded here:
    - [packages/core/src/chain.ts]      (createChain, use, handle, clone,
                                         initializeMiddlewares, executeChain)
    - [packages/core/src/response.ts]   (createResponseBuilder)
    - [packages/core/src/context.ts]    (createContext, createRequestMeta,
                                         extractRequestId, extractClientIP,
                                         isValidIP)
    - [packages/core/src/utils/uuid.ts] (generateUUID, formatUUIDBytes)
    - [packages/core/src/errors.ts]     (ShortCircuitError)
    - [packages/core/src/middlewares/error-handler.ts] (errorHandler, default
                                         options)
    - [packages/hono/src/adapter.ts]    (toHono)
    - [packages/koa/src/adapter.ts]     (toKoa)
    - [packages/express/src/adapter.ts] (toExpress)
    - [packages/fastify/src/adapter.ts] (toFastify, fastifyPreHandler)
    - [packages/core/src/pipe.ts]       (pipe)
    - [packages/core/src/utils/uuid.ts] (isValidUUID)
    - [packages/core/src/middlewares/auth/basic.ts], [auth/api-key.ts]
                                        (timingSafeEqual, validateKey,
                                         decodeBasicCredentials,
                                         encodeBasicCredentials)
    - [packages/core/src/stores/memory.ts] (MemoryStore)
    - [packages/core/src/middlewares/rate-limit.ts] (rateLimit, default
                                         callbacks)
    - [packages/core/src/middlewares/cors.ts] (cors, resolveOrigin)

    Modelled from the platform: [Headers], the [Response] constructor,
    [JSON.parse] as a recogniser of JSON text, [btoa] and [atob].

    Asynchrony is modelled sequentially: every [await] is taken at once, so
    one [handle] call is one uninterrupted computation. *)

From Stdlib Require Import ZArith List String Ascii Bool Arith Lia ZifyNat
  DecimalString.
Import ListNotations.

Open Scope string_scope.
Open Scope list_scope.

(* ================================================================== *)
(** ** JavaScript string primitives used by the sources *)
(* ================================================================== *)

Module Js.

(** [c] lies between [lo] and [hi] (character codes, inclusive). *)
Definition in_range (lo hi c : ascii) : bool :=
  Nat.leb (nat_of_ascii lo) (nat_of_ascii c)
  && Nat.leb (nat_of_ascii c) (nat_of_ascii hi).

(** [\d] of a JavaScript regular expression: ASCII digits only. *)
Definition is_digit (c : ascii) : bool := in_range "0"%char "9"%char c.

(** [[0-9a-fA-F]]. *)
Definition is_hex (c : ascii) : bool :=
  in_range "0"%char "9"%char c || in_range "a"%char "f"%char c
  || in_range "A"%char "F"%char c.

(** White space stripped by [String.prototype.trim], on one-byte code
    units: TAB, LF, VT, FF, CR, SPACE and NBSP. *)
Definition is_space (c : ascii) : bool :=
  let n := nat_of_ascii c in
  Nat.eqb n 9 || Nat.eqb n 10 || Nat.eqb n 11 || Nat.eqb n 12
  || Nat.eqb n 13 || Nat.eqb n 32 || Nat.eqb n 160.

Definition lower_char (c : ascii) : ascii :=
  if in_range "A"%char "Z"%char c then ascii_of_nat (nat_of_ascii c + 32) else c.

(** [s.toLowerCase()] on ASCII letters; header names are ASCII tokens. *)
Fixpoint toLowerCase (s : string) : string :=
  match s with
  | EmptyString => EmptyString
  | String c s' => String (lower_char c) (toLowerCase s')
  end.

Definition upper_char (c : ascii) : ascii :=
  if in_range "a"%char "z"%char c then ascii_of_nat (nat_of_ascii c - 32) else c.

(** [s.toUpperCase()] on ASCII letters. *)
Fixpoint toUpperCase (s : string) : string :=
  match s with
  | EmptyString => EmptyString
  | String c s' => String (upper_char c) (toUpperCase s')
  end.

Fixpoint trimStart (s : string) : string :=
  match s with
  | EmptyString => EmptyString
  | String c s' => if is_space c then trimStart s' else s
  end.

(** Drops the white space at the end: a character is kept when it is not
    a space or when something is kept after it. *)
Fixpoint trimEnd (s : string) : string :=
  match s with
  | EmptyString => EmptyString
  | String c s' =>
      match trimEnd s' with
      | EmptyString => if is_space c then EmptyString else String c EmptyString
      | rest => String c rest
      end
  end.

Definition trim (s : string) : string := trimEnd (trimStart s).

(** [s.split(sep)] for a one-character separator: never the empty list. *)
Fixpoint split (sep : ascii) (s : string) : list string :=
  match s with
  | EmptyString => [EmptyString]
  | String c s' =>
      if Ascii.eqb c sep then EmptyString :: split sep s'
      else match split sep s' with
           | [] => [String c EmptyString]
           | hd :: tl => String c hd :: tl
           end
  end.

(** [s.includes(c)] for a one-character needle. *)
Fixpoint includes (c : ascii) (s : string) : bool :=
  match s with
  | EmptyString => false
  | String d s' => Ascii.eqb d c || includes c s'
  end.

(** Truthiness of a string: the empty string is falsy. *)
Definition truthy (s : string) : bool :=
  match s with EmptyString => false | _ => true end.

(** [a || b] on values that are a string or null/undefined: the first
    truthy operand, else the second. *)
Definition or_else (a b : option string) : option string :=
  match a with
  | Some s => if truthy s then Some s else b
  | None => b
  end.

Definition digit_value (c : ascii) : Z :=
  Z.of_nat (nat_of_ascii c - nat_of_ascii "0"%char).

Fixpoint leading_digits (acc : option Z) (s : string) : option Z :=
  match s with
  | EmptyString => acc
  | String c s' =>
      if is_digit c then
        leading_digits
          (Some (10 * match acc with Some a => a | None => 0 end
                 + digit_value c)%Z) s'
      else acc
  end.

(** [parseInt(s, 10)]: leading white space is skipped, one sign is read,
    then the longest run of digits; [None] stands for NaN. *)
Definition parseInt10 (s : string) : option Z :=
  match trimStart s with
  | String "-"%char s' => option_map Z.opp (leading_digits None s')
  | String "+"%char s' => leading_digits None s'
  | s' => leading_digits None s'
  end.

(** The regular expressions of [isValidIP]: character classes,
    sequences and bounded repetition, matched by derivatives; a pattern
    anchored by [^] and [$] (no flags) is a match of the whole string. *)
Inductive regex : Type :=
| Never
| Eps
| Class (p : ascii -> bool)
| Seq (r1 r2 : regex)
| Alt (r1 r2 : regex).

Fixpoint nullable (r : regex) : bool :=
  match r with
  | Never => false
  | Eps => true
  | Class _ => false
  | Seq r1 r2 => nullable r1 && nullable r2
  | Alt r1 r2 => nullable r1 || nullable r2
  end.

Fixpoint deriv (c : ascii) (r : regex) : regex :=
  match r with
  | Never => Never
  | Eps => Never
  | Class p => if p c then Eps else Never
  | Seq r1 r2 =>
      if nullable r1 then Alt (Seq (deriv c r1) r2) (deriv c r2)
      else Seq (deriv c r1) r2
  | Alt r1 r2 => Alt (deriv c r1) (deriv c r2)
  end.

Fixpoint full_match (r : regex) (s : string) : bool :=
  match s with
  | EmptyString => nullable r
  | String c s' => full_match (deriv c r) s'
  end.

(** [r{n}] *)
Fixpoint times (n : nat) (r : regex) : regex :=
  match n with
  | O => Eps
  | S n' => Seq r (times n' r)
  end.

(** [r{0,n}] *)
Fixpoint upto (n : nat) (r : regex) : regex :=
  match n with
  | O => Eps
  | S n' => Alt Eps (Seq r (upto n' r))
  end.

(** [r{lo,hi}] *)
Definition between (lo hi : nat) (r : regex) : regex :=
  Seq (times lo r) (upto (hi - lo) r).

Definition chr (c : ascii) : regex := Class (Ascii.eqb c).


(** The strings a regular expression denotes. *)
Inductive lang : regex -> string -> Prop :=
| lang_eps : lang Eps EmptyString
| lang_class p c : p c = true -> lang (Class p) (String c EmptyString)
| lang_seq r1 r2 s1 s2 :
    lang r1 s1 -> lang r2 s2 -> lang (Seq r1 r2) (s1 ++ s2)%string
| lang_alt_l r1 r2 s : lang r1 s -> lang (Alt r1 r2) s
| lang_alt_r r1 r2 s : lang r2 s -> lang (Alt r1 r2) s.

(** [s.startsWith(prefix)] *)
Fixpoint startsWith (prefix s : string) : bool :=
  match prefix, s with
  | EmptyString, _ => true
  | String p prefix', String c s' => Ascii.eqb p c && startsWith prefix' s'
  | String _ _, EmptyString => false
  end.

(** [s.includes(needle)] for a string needle. *)
Fixpoint contains (needle s : string) : bool :=
  startsWith needle s
  || match s with
     | EmptyString => false
     | String _ s' => contains needle s'
     end.

End Js.

(** Modelled from the platform: the texts [JSON.parse] accepts (the JSON
    grammar of ECMA-404 on one-byte code units). [response.json()] of a
    Fetch [Response] resolves exactly when the body is there and its text
    is accepted. *)
Module JSON.

Definition quote : ascii := ascii_of_nat 34.
Definition backslash : ascii := ascii_of_nat 92.

(** JSON white space: TAB, LF, CR and SPACE. *)
Definition is_ws (c : ascii) : bool :=
  let n := nat_of_ascii c in
  Nat.eqb n 9 || Nat.eqb n 10 || Nat.eqb n 13 || Nat.eqb n 32.

Fixpoint skip_ws (s : string) : string :=
  match s with
  | EmptyString => EmptyString
  | String c s' => if is_ws c then skip_ws s' else s
  end.

(** The character after a backslash, the four digits of [\u] apart. *)
Definition is_escape (c : ascii) : bool :=
  Ascii.eqb c quote || Ascii.eqb c backslash || Ascii.eqb c "/"
  || Ascii.eqb c "b" || Ascii.eqb c "f" || Ascii.eqb c "n"
  || Ascii.eqb c "r" || Ascii.eqb c "t".

(** The rest of a string literal, its opening quote read: what follows
    the closing quote. Control characters must be escaped. *)
Fixpoint string_rest (s : string) : option string :=
  match s with
  | EmptyString => None
  | String c s' =>
      if Ascii.eqb c quote then Some s'
      else if Ascii.eqb c backslash then
        match s' with
        | EmptyString => None
        | String e s'' =>
            if is_escape e then string_rest s''
            else if Ascii.eqb e "u" then
              match s'' with
              | String h1 (String h2 (String h3 (String h4 r))) =>
                  if Js.is_hex h1 && Js.is_hex h2 && Js.is_hex h3
                     && Js.is_hex h4
                  then string_rest r else None
              | _ => None
              end
            else None
        end
      else if Nat.ltb (nat_of_ascii c) 32 then None
      else string_rest s'
  end.

(** What follows a run of digits. *)
Fixpoint digits (s : string) : string :=
  match s with
  | EmptyString => EmptyString
  | String c s' => if Js.is_digit c then digits s' else s
  end.

(** One digit at least. *)
Definition digits1 (s : string) : option string :=
  match s with
  | EmptyString => None
  | String c s' => if Js.is_digit c then Some (digits s') else None
  end.

(** What follows the character [c] at the start of [s], if it is there. *)
Definition after (c : ascii) (s : string) : option string :=
  match s with
  | EmptyString => None
  | String d r => if Ascii.eqb d c then Some r else None
  end.

Definition fraction (s : string) : option string :=
  match after "." s with
  | Some s' => digits1 s'
  | None => Some s
  end.

Definition exponent (s : string) : option string :=
  match s with
  | EmptyString => Some s
  | String c s' =>
      if Ascii.eqb c "e" || Ascii.eqb c "E" then
        match s' with
        | EmptyString => None
        | String sign s'' =>
            if Ascii.eqb sign "+" || Ascii.eqb sign "-" then digits1 s''
            else digits1 s'
        end
      else Some s
  end.

(** A number: an optional minus sign; a zero, or a digit from 1 to 9 and
    more digits; an optional fraction; an optional exponent. *)
Definition number (s : string) : option string :=
  let s := match after "-" s with Some s' => s' | None => s end in
  match s with
  | EmptyString => None
  | String c s' =>
      if Ascii.eqb c "0" then
        match fraction s' with Some r => exponent r | None => None end
      else if Js.is_digit c then
        match fraction (digits s') with Some r => exponent r | None => None end
      else None
  end.

(** The word [word] at the start of [s]: what follows it. *)
Fixpoint literal (word s : string) : option string :=
  match word, s with
  | EmptyString, _ => Some s
  | String w word', String c s' =>
      if Ascii.eqb w c then literal word' s' else None
  | String _ _, EmptyString => None
  end.

(** A value at the start of [s] (no white space before it): what follows
    it. [elements] reads the values of an array after its bracket up to
    the closing one, [members] the members of an object. [fuel] bounds
    the values still to be read. *)
Fixpoint value (fuel : nat) (s : string) : option string :=
  match fuel with
  | O => None
  | S fuel' =>
      match s with
      | EmptyString => None
      | String c r =>
          if Ascii.eqb c "{" then
            match after "}" (skip_ws r) with
            | Some r' => Some r'
            | None => members fuel' (skip_ws r)
            end
          else if Ascii.eqb c "[" then
            match after "]" (skip_ws r) with
            | Some r' => Some r'
            | None => elements fuel' (skip_ws r)
            end
          else if Ascii.eqb c quote then string_rest r
          else if Ascii.eqb c "t" then literal "true" s
          else if Ascii.eqb c "f" then literal "false" s
          else if Ascii.eqb c "n" then literal "null" s
          else number s
      end
  end
with elements (fuel : nat) (s : string) : option string :=
  match fuel with
  | O => None
  | S fuel' =>
      match value fuel' (skip_ws s) with
      | None => None
      | Some r =>
          match after "," (skip_ws r) with
          | Some r' => elements fuel' r'
          | None => after "]" (skip_ws r)
          end
      end
  end
with members (fuel : nat) (s : string) : option string :=
  match fuel with
  | O => None
  | S fuel' =>
      match after quote (skip_ws s) with
      | None => None
      | Some r =>
          match string_rest r with
          | None => None
          | Some r1 =>
              match after ":" (skip_ws r1) with
              | None => None
              | Some r2 =>
                  match value fuel' (skip_ws r2) with
                  | None => None
                  | Some r3 =>
                      match after "," (skip_ws r3) with
                      | Some r4 => members fuel' r4
                      | None => after "}" (skip_ws r3)
                      end
                  end
              end
          end
      end
  end.

(** [JSON.parse(text)] does not throw. The fuel given is enough: more
    would not change the answer. *)
Definition parses (text : string) : bool :=
  match value (2 * String.length text + 2) (skip_ws text) with
  | Some r => match skip_ws r with EmptyString => true | _ => false end
  | None => false
  end.

End JSON.

(* ================================================================== *)
(** ** The Fetch message model: Headers, Request, Response *)
(* ================================================================== *)

(** A [Headers] object: an association list in insertion order whose names
    are kept in lower case (header names are case-insensitive). Only
    [has], [get], [set], [append] and [delete] are used by the sources.

    The operations are the platform's on the names and values it
    accepts, [valid_name] and [valid_value]: given another name or value
    the platform's [set], [append] and [delete] throw a [TypeError] and
    leave the list as it was. Statements over names or values a caller
    chooses carry that condition. *)
Module Headers.

Definition t : Type := list (string * string).

Definition empty : t := [].

Fixpoint every_char (p : ascii -> bool) (s : string) : bool :=
  match s with
  | EmptyString => true
  | String c s' => p c && every_char p s'
  end.

(** The characters of an HTTP token: letters, digits and
    [! # $ % & ' * + - . ^ _ ` | ~]. *)
Definition is_tchar (c : ascii) : bool :=
  Js.is_digit c
  || Js.in_range "a" "z" c || Js.in_range "A" "Z" c
  || Js.includes c "!#$%&'*+-.^_`|~".

(** A header name the platform accepts: a token, not empty. *)
Definition valid_name (name : string) : bool :=
  Js.truthy name && every_char is_tchar name.

(** HTTP white space (TAB, LF, CR, SPACE) is stripped from both ends of a
    value when it is stored. *)
Definition is_http_space (c : ascii) : bool :=
  let n := nat_of_ascii c in
  Nat.eqb n 9 || Nat.eqb n 10 || Nat.eqb n 13 || Nat.eqb n 32.

Fixpoint strip_start (s : string) : string :=
  match s with
  | EmptyString => EmptyString
  | String c s' => if is_http_space c then strip_start s' else s
  end.

Fixpoint strip_end (s : string) : string :=
  match s with
  | EmptyString => EmptyString
  | String c s' =>
      match strip_end s' with
      | EmptyString =>
          if is_http_space c then EmptyString else String c EmptyString
      | rest => String c rest
      end
  end.

Definition normalize (value : string) : string :=
  strip_end (strip_start value).

(** A header value the platform accepts: stripped, it holds no NUL, LF
    or CR. *)
Definition valid_value (value : string) : bool :=
  every_char
    (fun c =>
       let n := nat_of_ascii c in
       negb (Nat.eqb n 0 || Nat.eqb n 10 || Nat.eqb n 13))
    (normalize value).

Definition named (name : string) (e : string * string) : bool :=
  String.eqb (fst e) (Js.toLowerCase name).

Definition has (h : t) (name : string) : bool := existsb (named name) h.

Definition values (h : t) (name : string) : list string :=
  map snd (filter (named name) h).

(** [get] joins the values of a repeated header with a comma and a
    space; [None] is JavaScript's [null]. *)
Definition get (h : t) (name : string) : option string :=
  match values h name with
  | [] => None
  | v :: vs => Some (String.concat ", " (v :: vs))
  end.

Definition delete (h : t) (name : string) : t :=
  filter (fun e => negb (named name e)) h.

Definition append (h : t) (name value : string) : t :=
  h ++ [(Js.toLowerCase name, normalize value)].

(** [set] overwrites the first entry of that name and drops the others;
    a new name goes to the end. *)
Fixpoint set (h : t) (name value : string) : t :=
  match h with
  | [] => [(Js.toLowerCase name, normalize value)]
  | e :: h' =>
      if named name e
      then (Js.toLowerCase name, normalize value) :: delete h' name
      else e :: set h' name value
  end.

(** [new Headers(init)] from name/value pairs. *)
Definition of_list (init : list (string * string)) : t :=
  fold_left (fun h e => append h (fst e) (snd e)) init empty.

End Headers.

Module Request.
(** A Fetch [Request] as far as the engine reads it. [url] is the
    serialised absolute URL the platform stores, so [new URL(request.url)]
    in [createContext] succeeds and is kept as that string. *)
Record t : Type := mk { url : string; method : string; headers : Headers.t }.
End Request.

Module Response.
(** A Fetch [Response] snapshot; bodies are strings or absent. *)
Record t : Type := mk { status : Z; headers : Headers.t; body : option string }.
End Response.

(** What a JavaScript [throw] carries. [ShortCircuitError] is the class of
    [errors.ts]: an [Error] subclass with the response as a field. Every
    other thrown error is a [JsError] with its class name and message: an
    ordinary error, outside the [MiddlewareError] classes of [errors.ts],
    whose extra fields (status code, error code) are not modelled. *)
Inductive Thrown : Type :=
| ShortCircuitError (response : Response.t)
| JsError (name message : string).

(** How a call ends: it returns a value or it throws. *)
Inductive Completion (A : Type) : Type :=
| Returned (a : A)
| Threw (e : Thrown).
Arguments Returned {A} a.
Arguments Threw {A} e.

(** [error instanceof ShortCircuitError] *)
Definition instanceof_ShortCircuitError (e : Thrown) : bool :=
  match e with ShortCircuitError _ => true | JsError _ _ => false end.

(** Statuses for which the platform refuses a body. *)
Definition null_body_status (status : Z) : bool :=
  (status =? 101)%Z || (status =? 103)%Z || (status =? 204)%Z
  || (status =? 205)%Z || (status =? 304)%Z.

(** Modelled from the platform: [new Response(body, { status, headers })]
    of the Fetch standard. The status must lie in 200..599 (RangeError); a
    body on a null-body status is a TypeError; the header list is copied;
    a string body with no Content-Type gets the text/plain default. *)
Definition new_Response (body : option string) (status : Z)
    (headers : Headers.t) : Completion Response.t :=
  if negb ((200 <=? status)%Z && (status <=? 599)%Z) then
    Threw (JsError "RangeError" "status out of range")
  else
    match body with
    | None => Returned (Response.mk status headers None)
    | Some b =>
        if null_body_status status then
          Threw (JsError "TypeError" "body on a null body status")
        else if Headers.has headers "Content-Type" then
          Returned (Response.mk status headers (Some b))
        else
          Returned (Response.mk status
                      (Headers.append headers "content-type"
                         "text/plain;charset=UTF-8")
                      (Some b))
    end.

(* ================================================================== *)
(** ** response.ts: the response builder *)
(* ================================================================== *)

Module ResponseBuilder.

(** The three closure variables of [createResponseBuilder], with a body
    that is null or a string: what [json], [text] and [html] store, and
    all the handlers of [Chain] set. [ResponseBuilderFull] below has the
    body at its full type, [BodyInit | null]. *)
Record t : Type := mk { _status : Z; _headers : Headers.t; _body : option string }.

Definition createResponseBuilder : t := mk 200 Headers.empty None.

Definition setStatus (b : t) (code : Z) : t :=
  mk code (_headers b) (_body b).

Definition setHeader (b : t) (name value : string) : t :=
  mk (_status b) (Headers.set (_headers b) name value) (_body b).

Definition appendHeader (b : t) (name value : string) : t :=
  mk (_status b) (Headers.append (_headers b) name value) (_body b).

Definition deleteHeader (b : t) (name : string) : t :=
  mk (_status b) (Headers.delete (_headers b) name) (_body b).

(** The body setter of the [body] property. *)
Definition setBody (b : t) (value : option string) : t :=
  mk (_status b) (_headers b) value.

(** [json(data)]: [data] stands for the text [JSON.stringify(data)]. *)
Definition json (b : t) (data : string) : t :=
  mk (_status b)
     (Headers.set (_headers b) "Content-Type" "application/json; charset=utf-8")
     (Some data).

Definition text (b : t) (content : string) : t :=
  mk (_status b)
     (Headers.set (_headers b) "Content-Type" "text/plain; charset=utf-8")
     (Some content).

Definition html (b : t) (content : string) : t :=
  mk (_status b)
     (Headers.set (_headers b) "Content-Type" "text/html; charset=utf-8")
     (Some content).

Definition redirect (b : t) (url : string) (redirectStatus : Z) : t :=
  mk redirectStatus (Headers.set (_headers b) "Location" url) None.

(** [build()]: the builder after the call, and what the call gave. *)
Definition build (b : t) : t * Completion Response.t :=
  (b, new_Response (_body b) (_status b) (_headers b)).

End ResponseBuilder.

(* ================================================================== *)
(** ** response.ts with the body at its full type *)
(* ================================================================== *)

(** [BodyInit]: what the [body] setter of the builder takes besides
    [null]. [json], [text] and [html] store strings; the module above is
    the builder on such bodies. A stream is known by its identity. *)
Module BodyInit.

Inductive t : Type :=
| Text (text : string)
| Params (serialized : string)
| Form (entries : list (string * string))
| Blob (type : string) (bytes : string)
| Bytes (bytes : string)
| Stream (id : nat).

End BodyInit.

(** Modelled from the platform: the state the [Response] constructor
    reads and changes. [boundary k] is the multipart boundary its
    generator gives the [k]-th time it is asked, [drawn] the number of
    times it was asked, [unusable] the streams that are disturbed or
    locked. *)
Module Platform.

Record t : Type := mk {
  boundary : nat -> string;
  drawn : nat;
  unusable : list nat
}.

(** Reading from a stream, as a host does with the body of a
    [Response] it was handed: the stream is disturbed from then on. *)
Definition read (p : t) (stream : nat) : t :=
  mk (boundary p) (drawn p) (stream :: unusable p).

End Platform.

(** A [Response] with a body of any kind: bytes, the encoding of a form
    under a boundary, or a stream. *)
Module Snapshot.

Inductive Payload : Type :=
| Data (bytes : string)
| Multipart (boundary : string) (entries : list (string * string))
| Piped (stream : nat).

Record t : Type := mk {
  status : Z;
  headers : Headers.t;
  body : option Payload
}.

End Snapshot.

Module ResponseBuilderFull.

Record t : Type := mk {
  _status : Z;
  _headers : Headers.t;
  _body : option BodyInit.t
}.

Definition createResponseBuilder : t := mk 200 Headers.empty None.

(** The body setter of the [body] property. *)
Definition setBody (b : t) (value : option BodyInit.t) : t :=
  mk (_status b) (_headers b) value.

Definition json (b : t) (data : string) : t :=
  mk (_status b)
     (Headers.set (_headers b) "Content-Type" "application/json; charset=utf-8")
     (Some (BodyInit.Text data)).

Definition text (b : t) (content : string) : t :=
  mk (_status b)
     (Headers.set (_headers b) "Content-Type" "text/plain; charset=utf-8")
     (Some (BodyInit.Text content)).

Definition html (b : t) (content : string) : t :=
  mk (_status b)
     (Headers.set (_headers b) "Content-Type" "text/html; charset=utf-8")
     (Some (BodyInit.Text content)).

(** Modelled from the platform: extracting a body, the first step of the
    [Response] constructor. It gives the payload and the Content-Type
    the body brings, if any. A form is encoded under a boundary drawn
    anew; a stream that is disturbed or locked is refused. *)
Definition extract (p : Platform.t) (body : BodyInit.t)
    : Platform.t * Completion (Snapshot.Payload * option string) :=
  match body with
  | BodyInit.Text s =>
      (p, Returned (Snapshot.Data s, Some "text/plain;charset=UTF-8"))
  | BodyInit.Params s =>
      (p, Returned (Snapshot.Data s,
                    Some "application/x-www-form-urlencoded;charset=UTF-8"))
  | BodyInit.Form entries =>
      let b := Platform.boundary p (Platform.drawn p) in
      (Platform.mk (Platform.boundary p) (S (Platform.drawn p))
                   (Platform.unusable p),
       Returned (Snapshot.Multipart b entries,
                 Some ("multipart/form-data; boundary=" ++ b)%string))
  | BodyInit.Blob type bytes =>
      (p, Returned (Snapshot.Data bytes,
                    if Js.truthy type then Some type else None))
  | BodyInit.Bytes bytes => (p, Returned (Snapshot.Data bytes, None))
  | BodyInit.Stream id =>
      if existsb (Nat.eqb id) (Platform.unusable p)
      then (p, Threw (JsError "TypeError" "body stream is disturbed or locked"))
      else (p, Returned (Snapshot.Piped id, None))
  end.

(** Modelled from the platform: [new Response(body, { status, headers })].
    The body is extracted first; then the status is checked, the header
    list copied, a body on a null-body status refused, and the
    Content-Type of the body added when the list has none. *)
Definition new_Response (p : Platform.t) (body : option BodyInit.t)
    (status : Z) (headers : Headers.t)
    : Platform.t * Completion Snapshot.t :=
  let (p', extracted) :=
    match body with
    | None => (p, Returned None)
    | Some b =>
        match extract p b with
        | (p', Returned x) => (p', Returned (Some x))
        | (p', Threw e) => (p', Threw e)
        end
    end in
  match extracted with
  | Threw e => (p', Threw e)
  | Returned extracted =>
      if negb ((200 <=? status)%Z && (status <=? 599)%Z) then
        (p', Threw (JsError "RangeError" "status out of range"))
      else
        match extracted with
        | None => (p', Returned (Snapshot.mk status headers None))
        | Some (payload, type) =>
            if null_body_status status then
              (p', Threw (JsError "TypeError" "body on a null body status"))
            else
              match type with
              | Some type =>
                  if Headers.has headers "Content-Type" then
                    (p', Returned (Snapshot.mk status headers (Some payload)))
                  else
                    (p', Returned
                           (Snapshot.mk status
                              (Headers.append headers "content-type" type)
                              (Some payload)))
              | None =>
                  (p', Returned (Snapshot.mk status headers (Some payload)))
              end
        end
  end.

(** [build()]: the platform and the builder after the call, and what the
    call gave. *)
Definition build (p : Platform.t) (b : t)
    : Platform.t * t * Completion Snapshot.t :=
  let (p', r) := new_Response p (_body b) (_status b) (_headers b) in
  (p', b, r).

(** A builder of the module above, and the [Response] it builds, seen
    here. *)
Definition widen (b : ResponseBuilder.t) : t :=
  mk (ResponseBuilder._status b) (ResponseBuilder._headers b)
     (option_map BodyInit.Text (ResponseBuilder._body b)).

Definition seen (r : Completion Response.t) : Completion Snapshot.t :=
  match r with
  | Returned r =>
      Returned (Snapshot.mk (Response.status r) (Response.headers r)
                  (option_map Snapshot.Data (Response.body r)))
  | Threw e => Threw e
  end.

(** What [build()] gives on a form when the status allows a body: the
    form under the boundary [b], announced in the Content-Type unless
    the builder holds one. *)
Definition form_snapshot (b : t)
    (entries : list (string * string)) (boundary : string) : Snapshot.t :=
  Snapshot.mk (_status b)
    (if Headers.has (_headers b) "Content-Type"
     then _headers b
     else Headers.append (_headers b) "content-type"
            ("multipart/form-data; boundary=" ++ boundary)%string)
    (Some (Snapshot.Multipart boundary entries)).

End ResponseBuilderFull.

(* ================================================================== *)
(** ** utils/uuid.ts *)
(* ================================================================== *)

(** What one request reads from its environment: the clock, whether
    [crypto.randomUUID] exists, and sixteen random bytes. *)
Record Env : Type := mkEnv { now : Z; nativeRandomUUID : bool; random : list Z }.

Module Uuid.

(** A [Uint8Array(16)] filled from [src]: sixteen bytes, each reduced
    modulo 256, zero where [src] is short. *)
Definition Uint8Array16 (src : list Z) : list Z :=
  map (fun i => (nth i src 0 mod 256)%Z) (seq 0 16).

Definition hex_digit (d : Z) : ascii :=
  if (d <? 10)%Z then ascii_of_nat (48 + Z.to_nat d)
  else ascii_of_nat (87 + Z.to_nat d).

(** [b.toString(16).padStart(2, '0')] for a byte. *)
Definition hex2 (b : Z) : string :=
  String (hex_digit (b / 16)%Z) (String (hex_digit (b mod 16)%Z) EmptyString).

(** [hex.slice(from, to).join('')] *)
Definition slice_join (hex : list string) (from to : nat) : string :=
  String.concat EmptyString (firstn (to - from) (skipn from hex)).

Definition formatUUIDBytes (bytes : list Z) : string :=
  let hex := map (fun i => hex2 (nth i bytes 0%Z)) (seq 0 16) in
  String.concat "-"
    [ slice_join hex 0 4; slice_join hex 4 6; slice_join hex 6 8;
      slice_join hex 8 10; slice_join hex 10 16 ].

(** [bytes[i] = f(bytes[i])] *)
Fixpoint update (i : nat) (f : Z -> Z) (bytes : list Z) : list Z :=
  match bytes, i with
  | [], _ => []
  | b :: tl, O => f b :: tl
  | b :: tl, S i' => b :: update i' f tl
  end.

Definition generateUUIDFallback (random : list Z) : string :=
  let bytes := Uint8Array16 random in
  let bytes := update 6 (fun b => Z.lor (Z.land b 15) 64) bytes in
  let bytes := update 8 (fun b => Z.lor (Z.land b 63) 128) bytes in
  formatUUIDBytes bytes.

(** Modelled from the platform: [crypto.randomUUID()] gives a version 4
    UUID, the same text the fallback builds from sixteen random bytes. *)
Definition crypto_randomUUID (random : list Z) : string :=
  generateUUIDFallback random.

Definition generateUUID (env : Env) : string :=
  if nativeRandomUUID env then crypto_randomUUID (random env)
  else generateUUIDFallback (random env).

End Uuid.

(* ================================================================== *)
(** ** context.ts *)
(* ================================================================== *)

Module Context.

Record RequestMeta : Type := mkMeta {
  id : string;
  startTime : Z;
  url : string;
  method : string;
  ip : option string
}.

Record MiddlewareContext : Type := mkContext {
  request : Request.t;
  response : ResponseBuilder.t;
  state : list (string * string);
  meta : RequestMeta
}.

Definition extractRequestId (request : Request.t) : option string :=
  let headers := Request.headers request in
  Js.or_else
    (Js.or_else
       (Js.or_else (Headers.get headers "x-request-id")
                   (Headers.get headers "x-correlation-id"))
       (Headers.get headers "request-id"))
    None.

Definition digit : Js.regex := Js.Class Js.is_digit.
Definition hex : Js.regex := Js.Class Js.is_hex.

(** [/^(\d{1,3}\.){3}\d{1,3}$/] *)
Definition ipv4_pattern : Js.regex :=
  Js.Seq (Js.times 3 (Js.Seq (Js.between 1 3 digit) (Js.chr ".")))
         (Js.between 1 3 digit).

(** [/^([0-9a-fA-F]{0,4}:){2,7}[0-9a-fA-F]{0,4}$/] *)
Definition ipv6_pattern : Js.regex :=
  Js.Seq (Js.between 2 7 (Js.Seq (Js.between 0 4 hex) (Js.chr ":")))
         (Js.between 0 4 hex).

(** [/^::1$/] *)
Definition loopback_pattern : Js.regex :=
  Js.Seq (Js.chr ":") (Js.Seq (Js.chr ":") (Js.chr "1")).

(** [/^::$/] *)
Definition unspecified_pattern : Js.regex :=
  Js.Seq (Js.chr ":") (Js.chr ":").

Definition octet_ok (n : string) : bool :=
  match Js.parseInt10 n with
  | Some num => (0 <=? num)%Z && (num <=? 255)%Z
  | None => false
  end.

Definition isValidIP (ip : string) : bool :=
  if Js.full_match ipv4_pattern ip then
    forallb octet_ok (Js.split "." ip)
  else if Js.includes ":" ip then
    Js.full_match ipv6_pattern ip
    || Js.full_match loopback_pattern ip
    || Js.full_match unspecified_pattern ip
  else false.

Definition ipHeaders : list string :=
  [ "cf-connecting-ip"; "x-real-ip"; "x-forwarded-for"; "x-client-ip";
    "true-client-ip" ].

(** [value.split(',')[0]?.trim()] *)
Definition first_entry (value : string) : string :=
  Js.trim (hd EmptyString (Js.split "," value)).

(** The body of the [for] loop over [ipHeaders], from [names] on. *)
Fixpoint scanHeaders (headers : Headers.t) (names : list string)
    : option string :=
  match names with
  | [] => None
  | header :: rest =>
      match Headers.get headers header with
      | Some value =>
          if Js.truthy value then
            let ip := first_entry value in
            if Js.truthy ip && isValidIP ip then Some ip
            else scanHeaders headers rest
          else scanHeaders headers rest
      | None => scanHeaders headers rest
      end
  end.

Definition extractClientIP (request : Request.t) : option string :=
  scanHeaders (Request.headers request) ipHeaders.

Definition createRequestMeta (env : Env) (request : Request.t)
    (url : string) : RequestMeta :=
  {| id := match Js.or_else (extractRequestId request)
                            (Some (Uuid.generateUUID env)) with
           | Some v => v
           | None => EmptyString
           end;
     startTime := now env;
     url := url;
     method := Js.toUpperCase (Request.method request);
     ip := extractClientIP request |}.

Definition createContext (env : Env) (request : Request.t)
    (initialState : list (string * string)) : MiddlewareContext :=
  let url := Request.url request in
  let meta := createRequestMeta env request url in
  {| request := request;
     response := ResponseBuilder.createResponseBuilder;
     state := initialState;
     meta := meta |}.

End Context.

(* ================================================================== *)
(** ** types.ts and chain.ts: handlers, the chain and its driver *)
(* ================================================================== *)

Module Chain.

Import Context.

(** [MiddlewareResult]: [{ done: false }] or [{ done: true, response }]. *)
Inductive MiddlewareResult : Type :=
| NotDone
| Done (response : Response.t).

(** One synchronous statement of a handler on its context, or an
    effect outside it ([Emit], as the tests' [order.push]). *)
Inductive Op : Type :=
| SetStatus (code : Z)
| SetHeader (name value : string)
| AppendHeader (name value : string)
| DeleteHeader (name : string)
| SetBody (value : option string)
| Json (data : string)
| Text (content : string)
| Html (content : string)
| Redirect (url : string) (redirectStatus : Z)
| SetState (key value : string)
| Emit (tag : string).

(** What an observer of one chain sees, in time order. [OnInit],
    [Entered] and [Resumed] are recorded by the driver: a hook was
    called, a handler was called, an [await next()] of a handler came
    back normally. [Emitted] is a handler's own [Emit]. *)
Inductive Event : Type :=
| OnInit (name : string)
| Entered (index : nat)
| Resumed (index : nat)
| Emitted (tag : string).

(** A statement the platform accepts: header names and values are
    valid. On any other the builder's method throws a [TypeError]. *)
Definition accepted (o : Op) : bool :=
  match o with
  | SetHeader name value | AppendHeader name value =>
      Headers.valid_name name && Headers.valid_value value
  | DeleteHeader name => Headers.valid_name name
  | Redirect url _ => Headers.valid_value url
  | _ => true
  end.

(** The body of a handler [async (ctx, next) => ...], as the tree of
    what it does next. The handlers described are those that settle,
    await every [next()] they call, and throw new errors only: a call of
    [next()] left without [await], a caught value thrown again and a
    handler that never returns have no tree. *)
Inductive code : Type :=
| Return (result : MiddlewareResult)
| Throw (name message : string)
| Do (o : Op) (k : code)
| Inspect (k : MiddlewareContext -> code)
| Build (k : Response.t -> code)
| AwaitNext (k : code)
| TryAwaitNext (k : code) (onCatch : Thrown -> code).

(** How one call of an [onInit] hook ends. *)
Inductive HookResult : Type :=
| HookReturns
| HookThrows (name message : string).

(** An [onInit] hook: a function of no argument on the middleware
    object. What a call of it does may depend on all that happened
    before the call (its own earlier calls among it), which the
    observer's log so far stands for. *)
Definition Hook : Type := list Event -> HookResult.

Record Middleware : Type := mkMiddleware {
  name : string;
  handler : code;
  onInit : option Hook
}.

(** The variables of one [executeChain] call, and the observer's log. *)
Record RunState : Type := mkRun {
  ctx : MiddlewareContext;
  index : nat;
  log : list Event
}.

Definition with_response (s : RunState)
    (f : ResponseBuilder.t -> ResponseBuilder.t) : RunState :=
  mkRun (mkContext (request (ctx s)) (f (response (ctx s)))
                   (state (ctx s)) (meta (ctx s)))
        (index s) (log s).

Definition record (e : Event) (s : RunState) : RunState :=
  mkRun (ctx s) (index s) (log s ++ [e]).

Definition apply_op (o : Op) (s : RunState) : RunState :=
  match o with
  | SetStatus c => with_response s (fun b => ResponseBuilder.setStatus b c)
  | SetHeader n v => with_response s (fun b => ResponseBuilder.setHeader b n v)
  | AppendHeader n v =>
      with_response s (fun b => ResponseBuilder.appendHeader b n v)
  | DeleteHeader n => with_response s (fun b => ResponseBuilder.deleteHeader b n)
  | SetBody v => with_response s (fun b => ResponseBuilder.setBody b v)
  | Json d => with_response s (fun b => ResponseBuilder.json b d)
  | Text t => with_response s (fun b => ResponseBuilder.text b t)
  | Html t => with_response s (fun b => ResponseBuilder.html b t)
  | Redirect u c => with_response s (fun b => ResponseBuilder.redirect b u c)
  | SetState k v =>
      mkRun (mkContext (request (ctx s)) (response (ctx s))
                       ((k, v) :: state (ctx s)) (meta (ctx s)))
            (index s) (log s)
  | Emit t => record (Emitted t) s
  end.

Definition apply_ops (ops : list Op) (s : RunState) : RunState :=
  fold_left (fun s o => apply_op o s) ops s.

(** [await middleware.handler(ctx, next)] for the handler at position
    [me], with [next] what a call of [next()] does. [None] only comes
    from [next]. *)
Fixpoint run_handler
    (next : RunState -> option (RunState * Completion unit))
    (me : nat) (c : code) (s : RunState)
    : option (RunState * Completion MiddlewareResult) :=
  match c with
  | Return result => Some (s, Returned result)
  | Throw n m => Some (s, Threw (JsError n m))
  | Do o k => run_handler next me k (apply_op o s)
  | Inspect k => run_handler next me (k (ctx s)) s
  | Build k =>
      match ResponseBuilder.build (response (ctx s)) with
      | (b, Returned r) =>
          run_handler next me (k r) (with_response s (fun _ => b))
      | (b, Threw e) => Some (with_response s (fun _ => b), Threw e)
      end
  | AwaitNext k =>
      match next s with
      | None => None
      | Some (s', Returned _) => run_handler next me k (record (Resumed me) s')
      | Some (s', Threw e) => Some (s', Threw e)
      end
  | TryAwaitNext k onCatch =>
      match next s with
      | None => None
      | Some (s', Returned _) => run_handler next me k (record (Resumed me) s')
      | Some (s', Threw e) => run_handler next me (onCatch e) s'
      end
  end.

(** The closure [next] of [executeChain]; [fuel] bounds the handlers
    still to be entered. *)
Fixpoint next (fuel : nat) (middlewares : list Middleware) (s : RunState)
    : option (RunState * Completion unit) :=
  if Nat.leb (List.length middlewares) (index s) then Some (s, Returned tt)
  else
    match fuel with
    | O => None
    | S fuel' =>
        let i := index s in
        let s := mkRun (ctx s) (S i) (log s) in
        match nth_error middlewares i with
        | None => Some (s, Returned tt)
        | Some middleware =>
            match run_handler (next fuel' middlewares) i
                    (handler middleware) (record (Entered i) s) with
            | None => None
            | Some (s', Returned (Done response)) =>
                Some (s', Threw (ShortCircuitError response))
            | Some (s', Returned NotDone) => Some (s', Returned tt)
            | Some (s', Threw e) => Some (s', Threw e)
            end
        end
    end.

Definition executeChain (middlewares : list Middleware)
    (ctx : MiddlewareContext) (log : list Event)
    : option (RunState * Completion unit) :=
  next (List.length middlewares) middlewares (mkRun ctx 0 log).

(** The [for] loop of [initializeMiddlewares]. *)
Fixpoint initializeMiddlewares (middlewares : list Middleware)
    (log : list Event) : list Event * Completion unit :=
  match middlewares with
  | [] => (log, Returned tt)
  | mw :: rest =>
      match onInit mw with
      | None => initializeMiddlewares rest log
      | Some hook =>
          match hook log with
          | HookReturns =>
              initializeMiddlewares rest (log ++ [OnInit (name mw)])
          | HookThrows n m =>
              (log ++ [OnInit (name mw)], Threw (JsError n m))
          end
      end
  end.

(** The closure variables of one [createChain()] object. *)
Record t : Type := mk { middlewares : list Middleware; initialized : bool }.

Definition createChain : t := mk [] false.

(** [`anonymous-${middlewares.length}`] *)
Definition anonymous_name (n : nat) : string :=
  ("anonymous-" ++ NilEmpty.string_of_uint (Nat.to_uint n))%string.

(** [use(...mws)]: a bare handler function ([inr]) is wrapped under a
    generated name, a middleware object ([inl]) is pushed as it is. *)
Definition use (chain : t) (mws : list (Middleware + code)) : t :=
  fold_left
    (fun chain mw =>
       match mw with
       | inr f =>
           mk (middlewares chain
               ++ [mkMiddleware (anonymous_name (List.length (middlewares chain)))
                                f None])
              (initialized chain)
       | inl m => mk (middlewares chain ++ [m]) (initialized chain)
       end)
    mws chain.

Definition getMiddlewares (chain : t) : list Middleware := middlewares chain.

Definition clone (chain : t) : t :=
  use createChain (map inl (middlewares chain)).

(** The first statement of [handle]: run the hooks unless the flag is
    set, and set the flag when they all came back. [Some e] is a hook's
    error, which leaves the flag as it was. *)
Definition ensureInitialized (chain : t) (log : list Event)
    : t * list Event * option Thrown :=
  if negb (initialized chain) then
    match initializeMiddlewares (middlewares chain) log with
    | (log', Returned _) => (mk (middlewares chain) true, log', None)
    | (log', Threw e) => (chain, log', Some e)
    end
  else (chain, log, None).

(** The [catch] clause of [handle]. *)
Definition catchShortCircuit (tried : Completion Response.t)
    : Completion Response.t :=
  match tried with
  | Returned r => Returned r
  | Threw error =>
      if instanceof_ShortCircuitError error then
        match error with
        | ShortCircuitError response => Returned response
        | JsError _ _ => Threw error
        end
      else Threw error
  end.

(** [handle(request, initialState)]: the chain after the call, the log,
    and how the call ended. *)
Definition handle (chain : t) (env : Env) (request : Request.t)
    (initialState : list (string * string)) (log : list Event)
    : option (t * list Event * Completion Response.t) :=
  match ensureInitialized chain log with
  | (chain', log', Some e) => Some (chain', log', Threw e)
  | (chain', log', None) =>
      let ctx := createContext env request initialState in
      match executeChain (middlewares chain') ctx log' with
      | None => None
      | Some (s, outcome) =>
          Some (chain', Chain.log s,
                catchShortCircuit
                  match outcome with
                  | Returned _ =>
                      snd (ResponseBuilder.build (response (Chain.ctx s)))
                  | Threw e => Threw e
                  end)
      end
  end.

(** One call of a sequence: its environment, request and initial state. *)
Definition Call : Type := (Env * Request.t * list (string * string))%type.

(** Sequential [handle] calls, each awaited before the next starts; a
    call that throws does not stop the caller from making the next. *)
Fixpoint handleAll (chain : t) (log : list Event) (calls : list Call)
    : option (t * list Event) :=
  match calls with
  | [] => Some (chain, log)
  | (env, request, initialState) :: rest =>
      match handle chain env request initialState log with
      | None => None
      | Some (chain', log', _) => handleAll chain' log' rest
      end
  end.

End Chain.

(* ================================================================== *)
(** ** hono/src/adapter.ts and koa/src/adapter.ts *)
(* ================================================================== *)

Module Adapters.

(** What the native middleware did with the host framework: it wrote the
    chain's response as the reply, it called the host's [next()], or it
    did neither. *)
Inductive Outcome : Type :=
| Replied (response : Response.t)
| CalledNext
| Nothing.

(** The options object of either adapter; [None] is an omitted field. *)
Record AdapterOptions : Type := mkOptions { passThrough : option bool }.

Definition defaultOptions : AdapterOptions := mkOptions None.

Definition hasContent (response : Response.t) : bool :=
  Headers.has (Response.headers response) "Content-Type"
  || negb (Response.status response =? 200)%Z
  || Headers.has (Response.headers response) "Location".

(** [fetchResponse.headers.get('Content-Type') || ''] *)
Definition contentType (response : Response.t) : string :=
  match Js.or_else (Headers.get (Response.headers response) "Content-Type")
          (Some EmptyString) with
  | Some v => v
  | None => EmptyString
  end.

(** UTF-8 decoding drops a leading byte order mark. *)
Definition dropBOM (text : string) : string :=
  match text with
  | String a (String b (String c rest)) =>
      if (Nat.eqb (nat_of_ascii a) 239 && Nat.eqb (nat_of_ascii b) 187
          && Nat.eqb (nat_of_ascii c) 191)%bool
      then rest else text
  | _ => text
  end.

(** The error of reading the body the way [fetchToKoaResponse],
    [fetchToExpressResponse] and [fetchToFastifyReply] do, if there is
    one. With a Content-Type that contains [application/json] they await
    [fetchResponse.json()], which rejects with a [SyntaxError] unless the
    body is there and, decoded, is JSON text (the engine's message is
    not modelled). [text()] and [arrayBuffer()], used otherwise, do not
    reject. The status and the headers are written before the body is
    read. *)
Definition readError (response : Response.t) : option Thrown :=
  if Js.contains "application/json" (contentType response) then
    match Response.body response with
    | Some text =>
        if JSON.parses (dropBOM text) then None
        else Some (JsError "SyntaxError" EmptyString)
    | None => Some (JsError "SyntaxError" EmptyString)
    end
  else None.

(** The native middleware made by [toHono(chain, options)], run on one
    request ([c.req.raw]). The response is handed to Hono as it is. *)
Definition toHono (chain : Chain.t) (options : AdapterOptions)
    (env : Env) (request : Request.t) (log : list Chain.Event)
    : option (Chain.t * list Chain.Event * Completion Outcome) :=
  let passThrough :=
    match passThrough options with Some b => b | None => true end in
  match Chain.handle chain env request [] log with
  | None => None
  | Some (chain', log', Threw e) => Some (chain', log', Threw e)
  | Some (chain', log', Returned response) =>
      if hasContent response then
        Some (chain', log', Returned (Replied response))
      else if passThrough then Some (chain', log', Returned CalledNext)
      else Some (chain', log', Returned Nothing)
  end.

(** The native middleware made by [toKoa(chain, options)]; [request] is
    what [koaToFetchRequest(ctx)] gave. [fetchToKoaResponse] reads the
    body of the response to write it. *)
Definition toKoa (chain : Chain.t) (options : AdapterOptions)
    (env : Env) (request : Request.t) (log : list Chain.Event)
    : option (Chain.t * list Chain.Event * Completion Outcome) :=
  let passThrough :=
    match passThrough options with Some b => b | None => false end in
  match Chain.handle chain env request [] log with
  | None => None
  | Some (chain', log', Threw e) => Some (chain', log', Threw e)
  | Some (chain', log', Returned response) =>
      if hasContent response then
        match readError response with
        | None => Some (chain', log', Returned (Replied response))
        | Some e => Some (chain', log', Threw e)
        end
      else if passThrough then Some (chain', log', Returned CalledNext)
      else Some (chain', log', Returned Nothing)
  end.

End Adapters.

(* ================================================================== *)
(** ** middlewares/error-handler.ts, default options *)
(* ================================================================== *)

Module ErrorHandler.

Import Chain.

Definition quote : string := String (ascii_of_nat 34) EmptyString.

(** ["key":"value"] *)
Definition member (key value : string) : string :=
  (quote ++ key ++ quote ++ ":" ++ quote ++ value ++ quote)%string.

(** [JSON.stringify(buildErrorBody('Internal Server Error',
    'INTERNAL_ERROR', 500))] *)
Definition internalErrorBody : string :=
  ("{" ++ member "error" "Internal Server Error" ++ ","
       ++ member "code" "INTERNAL_ERROR" ++ ","
       ++ quote ++ "status" ++ quote ++ ":500}")%string.

(** [errorHandler()] under its default options, on the values of
    [Thrown]: the short-circuit signal, which extends [Error] directly,
    and ordinary errors. None of them is a [MiddlewareError] and the
    default options name no custom handler, so each takes the last
    branch of the [catch] clause: log it, answer 500 in JSON and stop the
    chain. The branch for [MiddlewareError]s ([formatError]) is not
    embedded. *)
Definition errorHandler : Middleware :=
  {| name := "error-handler";
     handler :=
       TryAwaitNext (Return NotDone)
         (fun error =>
            Do (Emit "[ErrorHandler]")
              (Do (SetStatus 500)
                 (Do (Json internalErrorBody)
                    (Build (fun r => Return (Done r))))));
     onInit := None |}.

End ErrorHandler.

(* ================================================================== *)
(** ** Vocabulary of the statements *)
(* ================================================================== *)

(** Handlers written the onion way, and what an observer expects of them. *)
Module Onion.

Import Context Chain.

(** [o1; o2; ...; k] *)
Definition do_ops (ops : list Op) (k : code) : code := fold_right Do k ops.

(** The statements of a handler around its one [await next()]. *)
Record Layer : Type := mkLayer { before : list Op; after : list Op }.


(** The same with no [catch] around the call. *)
Definition plain (l : Layer) (c : code) : Prop :=
  c = do_ops (before l) (AwaitNext (do_ops (after l) (Return NotDone))).

Definition plainly_layered (mw : Middleware) (l : Layer) : Prop :=
  plain l (handler mw).

(** The driver's step into the handler at [i]: [index++], then the call. *)
Definition enter (i : nat) (s : RunState) : RunState :=
  record (Entered i) (mkRun (ctx s) (S i) (log s)).

(** The state after the handlers from [i] on were entered one inside the
    other, each having run its [before]. *)
Fixpoint descend (i : nat) (layers : list Layer) (s : RunState) : RunState :=
  match layers with
  | [] => s
  | l :: tl => descend (S i) tl (apply_ops (before l) (enter i s))
  end.


Definition emitted (ops : list Op) : list Event :=
  flat_map (fun o => match o with Emit t => [Emitted t] | _ => [] end) ops.

Fixpoint enter_phase (i : nat) (layers : list Layer) : list Event :=
  match layers with
  | [] => []
  | l :: tl => Entered i :: emitted (before l) ++ enter_phase (S i) tl
  end.

Fixpoint resume_phase (i : nat) (layers : list Layer) : list Event :=
  match layers with
  | [] => []
  | l :: tl => resume_phase (S i) tl ++ Resumed i :: emitted (after l)
  end.

(** The positions of the handlers a log shows entered, resumed and
    the hooks it shows called, in time order. *)
Definition entered (l : list Event) : list nat :=
  flat_map (fun e => match e with Entered i => [i] | _ => [] end) l.

Definition resumed (l : list Event) : list nat :=
  flat_map (fun e => match e with Resumed i => [i] | _ => [] end) l.

Definition inits (l : list Event) : list string :=
  flat_map (fun e => match e with OnInit n => [n] | _ => [] end) l.

(** The names of the middlewares that have an [onInit] hook. *)
Definition hooked (mws : list Middleware) : list string :=
  flat_map (fun mw => match onInit mw with Some _ => [name mw] | None => [] end)
           mws.

(** The hooks of [mws] all return when they are called in turn, the
    first of them after what the log [l] shows. *)
Fixpoint hooks_return (mws : list Middleware) (l : list Event) : Prop :=
  match mws with
  | [] => True
  | mw :: rest =>
      match onInit mw with
      | None => hooks_return rest l
      | Some hook =>
          hook l = HookReturns /\ hooks_return rest (l ++ [OnInit (name mw)])
      end
  end.

(** A hook whose outcome does not depend on what happened before. *)
Definition stateless (mw : Middleware) : Prop :=
  forall hook, onInit mw = Some hook -> forall a b, hook a = hook b.





(** Code whose statements the platform accepts on every path. *)
Inductive harmless : code -> Prop :=
| harmless_return result : harmless (Return result)
| harmless_throw n m : harmless (Throw n m)
| harmless_do o k : accepted o = true -> harmless k -> harmless (Do o k)
| harmless_inspect k : (forall x, harmless (k x)) -> harmless (Inspect k)
| harmless_build k : (forall r, harmless (k r)) -> harmless (Build k)
| harmless_await k : harmless k -> harmless (AwaitNext k)
| harmless_try k onCatch :
    harmless k -> (forall e, harmless (onCatch e)) ->
    harmless (TryAwaitNext k onCatch).








(** What one handler does in a call of the chain: the statements ahead
    of its first [await next()], and the events behind the return of
    that call. *)
Record Turn : Type := mkTurn { ahead : list Op; behind : list Event }.

Fixpoint entries (i : nat) (turns : list Turn) : list Event :=
  match turns with
  | [] => []
  | t :: tl => Entered i :: emitted (ahead t) ++ entries (S i) tl
  end.





(** The middlewares [ups] are the ones of [mws] from position [i] on. *)
Definition sits_at (mws : list Middleware) (i : nat) (ups : list Middleware)
    : Prop :=
  forall j mw, nth_error ups j = Some mw -> nth_error mws (i + j) = Some mw.

End Onion.

(** The textual forms of an IP address the specification means by
    "syntactically valid": a dotted quad of decimal octets, or the
    colon-hexadecimal forms of RFC 4291, section 2.2. *)
Module IpSyntax.

Definition all_chars (p : ascii -> bool) (s : string) : bool :=
  forallb p (list_ascii_of_string s).

Definition dec_octet (s : string) : bool :=
  Nat.leb 1 (String.length s) && Nat.leb (String.length s) 3
  && all_chars Js.is_digit s
  && match Js.parseInt10 s with Some n => (n <=? 255)%Z | None => false end.

Definition ipv4 (s : string) : bool :=
  match Js.split "." s with
  | [a; b; c; d] => dec_octet a && dec_octet b && dec_octet c && dec_octet d
  | _ => false
  end.

(** One group: one to four hexadecimal digits. *)
Definition h16 (s : string) : bool :=
  Nat.leb 1 (String.length s) && Nat.leb (String.length s) 4
  && all_chars Js.is_hex s.

(** The number of 16-bit pieces a colon-separated run stands for; a
    dotted quad may close it and counts for two. *)
Fixpoint pieces (groups : list string) : option nat :=
  match groups with
  | [] => Some 0
  | [g] => if h16 g then Some 1 else if ipv4 g then Some 2 else None
  | g :: rest =>
      if h16 g then option_map S (pieces rest) else None
  end.

Definition groups (s : string) : list string :=
  match s with EmptyString => [] | _ => Js.split ":" s end.

(** The text before and after the first "::", if there is one. *)
Fixpoint cut (s : string) : option (string * string) :=
  match s with
  | EmptyString => None
  | String c s' =>
      match s' with
      | String d rest =>
          if Ascii.eqb c ":" && Ascii.eqb d ":" then Some (EmptyString, rest)
          else option_map (fun p => (String c (fst p), snd p)) (cut s')
      | EmptyString => None
      end
  end.

Definition ipv6 (s : string) : bool :=
  match cut s with
  | None =>
      match pieces (groups s) with Some n => Nat.eqb n 8 | None => false end
  | Some (l, r) =>
      match pieces (groups l), pieces (groups r) with
      | Some a, Some b =>
          Nat.leb (a + b) 7 && negb (Js.includes "." l)
      | _, _ => false
      end
  end.

Definition valid (s : string) : bool := ipv4 s || ipv6 s.

End IpSyntax.

(** Words for the statements about [context.ts]. *)
Module Derivation.

Import Context.


(** A run of [lo] to [hi] characters of the class [p]. *)
Definition run (p : ascii -> bool) (lo hi : nat) (s : string) : bool :=
  Nat.leb lo (String.length s) && Nat.leb (String.length s) hi
  && IpSyntax.all_chars p s.

(** The groups [gs], each followed by the separator. *)
Fixpoint joined (sep : ascii) (gs : list string) : string :=
  match gs with
  | [] => EmptyString
  | g :: tl => (g ++ String sep (joined sep tl))%string
  end.

(** What [isValidIP] asks of a string that holds a colon: three to eight
    colon-separated groups, each of at most four hexadecimal digits. *)
Definition hex_group (g : string) : bool :=
  Nat.leb (String.length g) 4 && IpSyntax.all_chars Js.is_hex g.

Definition colon_groups (s : string) : bool :=
  let parts := Js.split ":" s in
  Nat.leb 3 (List.length parts) && Nat.leb (List.length parts) 8
  && forallb hex_group parts.

(** The check an entry has to pass, in words of its own: a dotted quad
    of decimal octets, or colon-separated groups as above. *)
Definition simple_check (s : string) : bool :=
  IpSyntax.ipv4 s || colon_groups s.

(** The header [name] gives no address: it is absent or empty, or its
    first comma-separated entry, trimmed, is empty or fails the check. *)
Definition rejected (headers : Headers.t) (name : string) : Prop :=
  forall value,
    Headers.get headers name = Some value ->
    first_entry value = EmptyString \/ simple_check (first_entry value) = false.

(** The header [name] is absent or holds the empty string. *)
Definition blank (headers : Headers.t) (name : string) : Prop :=
  Headers.get headers name = None \/ Headers.get headers name = Some EmptyString.

End Derivation.

(* ================================================================== *)
(** ** pipe.ts, utils/uuid.ts (validation), middlewares/auth *)
(* ================================================================== *)

Module Pipe.

(** [pipe(...middlewares)] *)
Definition pipe (middlewares : list (Chain.Middleware + Chain.code)) : Chain.t :=
  Chain.use Chain.createChain middlewares.

End Pipe.

Module UuidCheck.

(** [[89ab]] under the [i] flag. *)
Definition is_variant (c : ascii) : bool :=
  Ascii.eqb c "8" || Ascii.eqb c "9" || Ascii.eqb c "a" || Ascii.eqb c "b"
  || Ascii.eqb c "A" || Ascii.eqb c "B".

Definition hexes (n : nat) : Js.regex := Js.times n (Js.Class Js.is_hex).

(** [/^[0-9a-f]{8}-[0-9a-f]{4}-4[0-9a-f]{3}-[89ab][0-9a-f]{3}-[0-9a-f]{12}$/i] *)
Definition UUID_REGEX : Js.regex :=
  Js.Seq (hexes 8)
    (Js.Seq (Js.chr "-")
       (Js.Seq (hexes 4)
          (Js.Seq (Js.chr "-")
             (Js.Seq (Js.chr "4")
                (Js.Seq (hexes 3)
                   (Js.Seq (Js.chr "-")
                      (Js.Seq (Js.Class is_variant)
                         (Js.Seq (hexes 3)
                            (Js.Seq (Js.chr "-") (hexes 12)))))))))).

Definition isValidUUID (value : string) : bool := Js.full_match UUID_REGEX value.

End UuidCheck.

(** Modelled from the platform: [btoa] and [atob]. A string holds code
    units up to 255; on a string with a larger one [btoa] throws. *)
Module Base64.

Fixpoint position (c : ascii) (s : string) : option nat :=
  match s with
  | EmptyString => None
  | String d s' =>
      if Ascii.eqb d c then Some 0 else option_map S (position c s')
  end.

Definition alphabet : string :=
  "ABCDEFGHIJKLMNOPQRSTUVWXYZabcdefghijklmnopqrstuvwxyz0123456789+/".

(** The character of a six-bit number. *)
Definition digit (n : nat) : ascii :=
  match String.get n alphabet with Some c => c | None => "="%char end.

(** The six-bit number of a character of the alphabet. *)
Definition value (c : ascii) : option nat := position c alphabet.

(** [btoa(s)]: three code units give four characters; a last group of
    one or two is padded with [=]. *)
Fixpoint btoa (s : string) : string :=
  match s with
  | EmptyString => EmptyString
  | String a EmptyString =>
      let x := nat_of_ascii a in
      String (digit (x / 4)) (String (digit (x mod 4 * 16)) "==")
  | String a (String b EmptyString) =>
      let x := nat_of_ascii a in
      let y := nat_of_ascii b in
      String (digit (x / 4))
        (String (digit (x mod 4 * 16 + y / 16))
           (String (digit (y mod 16 * 4)) "="))
  | String a (String b (String c rest)) =>
      let x := nat_of_ascii a in
      let y := nat_of_ascii b in
      let z := nat_of_ascii c in
      String (digit (x / 4))
        (String (digit (x mod 4 * 16 + y / 16))
           (String (digit (y mod 16 * 4 + z / 64))
              (String (digit (z mod 64)) (btoa rest))))
  end.

(** ASCII white space: TAB, LF, FF, CR and SPACE. *)
Definition is_whitespace (c : ascii) : bool :=
  let n := nat_of_ascii c in
  Nat.eqb n 9 || Nat.eqb n 10 || Nat.eqb n 12 || Nat.eqb n 13 || Nat.eqb n 32.

Fixpoint strip_whitespace (s : string) : string :=
  match s with
  | EmptyString => EmptyString
  | String c s' =>
      if is_whitespace c then strip_whitespace s'
      else String c (strip_whitespace s')
  end.

(** One or two [=] at the end are removed. *)
Fixpoint drop_padding (s : string) : string :=
  match s with
  | EmptyString => EmptyString
  | String c rest =>
      if Ascii.eqb c "="
         && (String.eqb rest EmptyString || String.eqb rest "=")
      then EmptyString
      else String c (drop_padding rest)
  end.

(** Four characters give three code units; a last group of two gives
    one and a last group of three gives two, the bits left over being
    dropped. A last group of one, or a character outside the alphabet,
    is refused. *)
Fixpoint bytes (s : string) : option string :=
  match s with
  | EmptyString => Some EmptyString
  | String _ EmptyString => None
  | String a (String b EmptyString) =>
      match value a, value b with
      | Some p, Some q => Some (String (ascii_of_nat (p * 4 + q / 16)) EmptyString)
      | _, _ => None
      end
  | String a (String b (String c EmptyString)) =>
      match value a, value b, value c with
      | Some p, Some q, Some r =>
          Some (String (ascii_of_nat (p * 4 + q / 16))
                  (String (ascii_of_nat (q mod 16 * 16 + r / 4)) EmptyString))
      | _, _, _ => None
      end
  | String a (String b (String c (String d rest))) =>
      match value a, value b, value c, value d, bytes rest with
      | Some p, Some q, Some r, Some t, Some tail =>
          Some (String (ascii_of_nat (p * 4 + q / 16))
                  (String (ascii_of_nat (q mod 16 * 16 + r / 4))
                     (String (ascii_of_nat (r mod 4 * 64 + t)) tail)))
      | _, _, _, _, _ => None
      end
  end.

(** [atob(s)], [None] where it throws. *)
Definition atob (s : string) : option string :=
  let data := strip_whitespace s in
  let data :=
    if Nat.eqb (String.length data mod 4) 0 then drop_padding data else data in
  bytes data.

End Base64.

Module Auth.

(** [s.charCodeAt(i)] of one code unit. *)
Definition code_of (c : ascii) : Z := Z.of_nat (nat_of_ascii c).

(** The loop of [timingSafeEqual]: [result |= a.charCodeAt(i) ^
    b.charCodeAt(i)] for every index of [a]; the two strings have one
    length when it runs. Code units are below 2^16, so the 32-bit
    operators do not wrap. *)
Fixpoint accumulate (result : Z) (a b : string) : Z :=
  match a, b with
  | String x a', String y b' =>
      accumulate (Z.lor result (Z.lxor (code_of x) (code_of y))) a' b'
  | _, _ => result
  end.

(** [timingSafeEqual(a, b)] of [basic.ts] and [api-key.ts]. *)
Definition timingSafeEqual (a b : string) : bool :=
  if negb (Nat.eqb (String.length a) (String.length b)) then false
  else (accumulate 0 a b =? 0)%Z.

(** [validateKey(key, keys)]: a list of keys, or a validator function. *)
Definition validateKey (key : string)
    (keys : list string + (string -> bool)) : bool :=
  match keys with
  | inr f => f key
  | inl l => existsb (fun validKey => timingSafeEqual key validKey) l
  end.

(** [s.indexOf(c)] for a one-character needle; [None] is [-1]. *)
Fixpoint indexOf (c : ascii) (s : string) : option nat :=
  match s with
  | EmptyString => None
  | String d s' =>
      if Ascii.eqb d c then Some 0 else option_map S (indexOf c s')
  end.

(** [s.slice(from, to)] and [s.slice(from)] for indexes inside [s]. *)
Definition slice (s : string) (from to : nat) : string :=
  String.substring from (to - from) s.

Definition slice_from (s : string) (from : nat) : string :=
  String.substring from (String.length s - from) s.

(** [decodeBasicCredentials(encoded)]; [atob] is the platform's decoder,
    [None] where it throws. *)
Definition decodeBasicCredentials (atob : string -> option string)
    (encoded : string) : option (string * string) :=
  match atob encoded with
  | None => None
  | Some decoded =>
      match indexOf ":" decoded with
      | None => None
      | Some colonIndex =>
          Some (slice decoded 0 colonIndex, slice_from decoded (colonIndex + 1))
      end
  end.

(** [encodeBasicCredentials(username, password)] over the platform's
    [btoa]. *)
Definition encodeBasicCredentials (btoa : string -> string)
    (username password : string) : string :=
  btoa (username ++ ":" ++ password)%string.

End Auth.

(* ================================================================== *)
(** ** packages/express and packages/fastify: the other adapters *)
(* ================================================================== *)

Module HostAdapters.

Import Adapters.

(** What the Express request handler did: wrote the reply, called
    [next()], or called [next(error)]. *)
Inductive ExpressOutcome : Type :=
| Sent (response : Response.t)
| Next
| NextWith (error : Thrown).

(** The request handler made by [toExpress(chain, options)]; [request]
    is what [expressToFetchRequest(req)] gave. What [handle] or
    [fetchToExpressResponse] throws goes to [next(error)]. *)
Definition toExpress (chain : Chain.t) (options : AdapterOptions)
    (env : Env) (request : Request.t) (log : list Chain.Event)
    : option (Chain.t * list Chain.Event * ExpressOutcome) :=
  let passThrough :=
    match passThrough options with Some b => b | None => false end in
  match Chain.handle chain env request [] log with
  | None => None
  | Some (chain', log', Threw e) => Some (chain', log', NextWith e)
  | Some (chain', log', Returned response) =>
      if passThrough && (Response.status response =? 200)%Z
         && negb (Headers.has (Response.headers response) "Content-Type")
      then Some (chain', log', Next)
      else
        match readError response with
        | None => Some (chain', log', Sent response)
        | Some e => Some (chain', log', NextWith e)
        end
  end.

(** What a Fastify hook did: sent the reply, or came back without one,
    which lets Fastify go on to the next hook or the route. *)
Inductive HookOutcome : Type :=
| ReplySent (response : Response.t)
| GoOn.

(** The hook registered by [toFastify(chain, options)]; [request] is
    what [fastifyToFetchRequest(request)] gave. [fetchToFastifyReply]
    reads the body of the response to send it. *)
Definition toFastify (chain : Chain.t)
    (env : Env) (request : Request.t) (log : list Chain.Event)
    : option (Chain.t * list Chain.Event * Completion HookOutcome) :=
  match Chain.handle chain env request [] log with
  | None => None
  | Some (chain', log', Threw e) => Some (chain', log', Threw e)
  | Some (chain', log', Returned response) =>
      let hasContent :=
        Headers.has (Response.headers response) "Content-Type"
        || negb (Response.status response =? 200)%Z
        || Headers.has (Response.headers response) "Location" in
      if hasContent then
        match readError response with
        | None => Some (chain', log', Returned (ReplySent response))
        | Some e => Some (chain', log', Threw e)
        end
      else Some (chain', log', Returned GoOn)
  end.

(** [fastifyPreHandler(chain)] *)
Definition fastifyPreHandler (chain : Chain.t)
    (env : Env) (request : Request.t) (log : list Chain.Event)
    : option (Chain.t * list Chain.Event * Completion HookOutcome) :=
  match Chain.handle chain env request [] log with
  | None => None
  | Some (chain', log', Threw e) => Some (chain', log', Threw e)
  | Some (chain', log', Returned response) =>
      let hasContent :=
        Headers.has (Response.headers response) "Content-Type"
        || negb (Response.status response =? 200)%Z in
      if hasContent then
        match readError response with
        | None => Some (chain', log', Returned (ReplySent response))
        | Some e => Some (chain', log', Threw e)
        end
      else Some (chain', log', Returned GoOn)
  end.

End HostAdapters.

(* ================================================================== *)
(** ** stores/memory.ts: the in-memory store *)
(* ================================================================== *)

(** Numbers that are integers: times in milliseconds, counts, statuses. *)
Module JsNumber.

(** [String(n)] for an integer of magnitude below 10^21, which
    JavaScript writes in plain decimal digits. *)
Definition toString (n : Z) : string := NilEmpty.string_of_int (Z.to_int n).

(** [Math.ceil(a / b)] for a positive [b]. *)
Definition ceil_div (a b : Z) : Z := (- ((- a) / b))%Z.

End JsNumber.

Module MemoryStore.

Section Store.

Variable T : Type.

Record CacheEntry : Type := mkEntry { value : T; expiresAt : option Z }.

(** The [Map] of the store, as its entries in insertion order. *)
Definition t : Type := list (string * CacheEntry).

(** [map.get(key)] *)
Definition lookup (m : t) (key : string) : option CacheEntry :=
  option_map snd (find (fun e => String.eqb (fst e) key) m).

(** [map.set(key, entry)]: a key already there keeps its place. *)
Fixpoint put (m : t) (key : string) (entry : CacheEntry) : t :=
  match m with
  | [] => [(key, entry)]
  | e :: m' =>
      if String.eqb (fst e) key then (key, entry) :: m'
      else e :: put m' key entry
  end.

(** [map.delete(key)], the map after it. *)
Definition remove (m : t) (key : string) : t :=
  filter (fun e => negb (String.eqb (fst e) key)) m.

(** [entry.expiresAt !== null && now > entry.expiresAt] *)
Definition expired (now : Z) (entry : CacheEntry) : bool :=
  match expiresAt entry with
  | Some e => (now >? e)%Z
  | None => false
  end.

(** [new MemoryStore()]: the cleanup timer is the caller of [cleanup]. *)
Definition createMemoryStore : t := [].

(** [get(key)] at time [now]: the store after the call and the value,
    [None] for [undefined]. *)
Definition get (s : t) (now : Z) (key : string) : t * option T :=
  match lookup s key with
  | None => (s, None)
  | Some entry =>
      if expired now entry then (remove s key, None)
      else (s, Some (value entry))
  end.

(** [set(key, value, ttl)] at time [now]; [ttl = None] is an omitted
    argument. *)
Definition set (s : t) (now : Z) (key : string) (v : T) (ttl : option Z) : t :=
  let expiresAt :=
    match ttl with
    | Some ttl => if (ttl >? 0)%Z then Some (now + ttl)%Z else None
    | None => None
    end in
  put s key (mkEntry v expiresAt).

(** [delete(key)]: whether the map held the key. *)
Definition delete (s : t) (key : string) : t * bool :=
  (remove s key,
   match lookup s key with Some _ => true | None => false end).

Definition clear (s : t) : t := [].

Definition size (s : t) : nat := List.length s.

(** [has(key)]: stored values are not [undefined]. *)
Definition has (s : t) (now : Z) (key : string) : t * bool :=
  let (s', v) := get s now key in
  (s', match v with Some _ => true | None => false end).

(** The private [cleanup()], run by the timer at time [now]. *)
Definition cleanup (s : t) (now : Z) : t :=
  filter (fun e => negb (expired now (snd e))) s.

Definition destroy (s : t) : t := [].

(** The keys of a map are distinct. *)
Definition wf (s : t) : Prop := NoDup (map fst s).

End Store.

Arguments mkEntry {T} value expiresAt.
Arguments value {T} c.
Arguments expiresAt {T} c.
Arguments lookup {T} m key.
Arguments put {T} m key entry.
Arguments remove {T} m key.
Arguments expired {T} now entry.
Arguments createMemoryStore {T}.
Arguments get {T} s now key.
Arguments set {T} s now key v ttl.
Arguments delete {T} s key.
Arguments clear {T} s.
Arguments size {T} s.
Arguments has {T} s now key.
Arguments cleanup {T} s now.
Arguments destroy {T} s.
Arguments wf {T} s.

End MemoryStore.

(* ================================================================== *)
(** ** middlewares/rate-limit.ts, with the default callbacks *)
(* ================================================================== *)

Module RateLimit.

Import Context Chain Onion.

Record RateLimitEntry : Type := mkEntry { count : Z; resetAt : Z }.

(** The options that have no default; [windowMs] is [parseTime(window)].
    The others are at their defaults: the default key generator, no
    [skip], no custom [handler], all headers, message and status 429,
    and a [MemoryStore]. *)
Record RateLimitOptions : Type := mkOptions { max : Z; windowMs : Z }.

Record RateLimitInfo : Type := mkInfo {
  current : Z;
  limit : Z;
  remaining : Z;
  resetTime : Z
}.

Definition Store : Type := MemoryStore.t RateLimitEntry.

(** [ctx.meta.ip || 'anonymous'] *)
Definition defaultKeyGenerator (ctx : MiddlewareContext) : string :=
  match Js.or_else (ip (meta ctx)) (Some "anonymous") with
  | Some key => key
  | None => "anonymous"
  end.

(** The entry after [entry.count++]: the stored one, or a new window
    when there is none or [now > entry.resetAt]. *)
Definition counted (options : RateLimitOptions) (now : Z)
    (found : option RateLimitEntry) : RateLimitEntry :=
  let entry :=
    match found with
    | None => mkEntry 0 (now + windowMs options)
    | Some entry =>
        if (now >? resetAt entry)%Z then mkEntry 0 (now + windowMs options)
        else entry
    end in
  mkEntry (count entry + 1) (resetAt entry).

Definition info_of (options : RateLimitOptions) (now : Z)
    (entry : RateLimitEntry) : RateLimitInfo :=
  {| current := count entry;
     limit := max options;
     remaining := Z.max 0 (max options - count entry);
     resetTime := JsNumber.ceil_div (resetAt entry - now) 1000 |}.

(** [entry.count > max] *)
Definition exceeded (options : RateLimitOptions) (entry : RateLimitEntry)
    : bool :=
  (count entry >? max options)%Z.

(** What the handler does with the store at time [now]: read the entry
    of [key], count the request, write the entry back with the window as
    its time to live. Both branches of the handler write it. One call is
    one instant: the clock readings of the handler and of the store's
    [get] and [set] inside it give the same [now]. *)
Definition account (options : RateLimitOptions) (store : Store) (now : Z)
    (key : string) : Store * RateLimitEntry :=
  let (store, found) := MemoryStore.get store now key in
  let entry := counted options now found in
  (MemoryStore.set store now key entry (Some (windowMs options)), entry).

Definition rateHeaders (options : RateLimitOptions)
    (entry : RateLimitEntry) (info : RateLimitInfo) : list Op :=
  [ SetHeader "X-RateLimit-Limit" (JsNumber.toString (max options));
    SetHeader "X-RateLimit-Remaining" (JsNumber.toString (remaining info));
    SetHeader "X-RateLimit-Reset"
      (JsNumber.toString (JsNumber.ceil_div (resetAt entry) 1000));
    SetHeader "RateLimit-Limit" (JsNumber.toString (max options));
    SetHeader "RateLimit-Remaining" (JsNumber.toString (remaining info));
    SetHeader "RateLimit-Reset" (JsNumber.toString (resetTime info)) ].

(** [JSON.stringify({ error: 'Too many requests',
    code: 'RATE_LIMIT_ERROR', retryAfter })] *)
Definition limitBody (retryAfter : Z) : string :=
  ("{" ++ ErrorHandler.member "error" "Too many requests" ++ ","
       ++ ErrorHandler.member "code" "RATE_LIMIT_ERROR" ++ ","
       ++ ErrorHandler.quote ++ "retryAfter" ++ ErrorHandler.quote ++ ":"
       ++ JsNumber.toString retryAfter ++ "}")%string.

(** What the handler does with the context and the chain, the store
    apart. *)
Definition respond (options : RateLimitOptions) (now : Z)
    (entry : RateLimitEntry) : code :=
  let info := info_of options now entry in
  do_ops (rateHeaders options entry info)
    (if exceeded options entry then
       Do (SetHeader "Retry-After" (JsNumber.toString (resetTime info)))
         (Do (SetStatus 429)
            (Do (Json (limitBody (resetTime info)))
               (Build (fun r => Return (Done r)))))
     else AwaitNext (Return NotDone)).

(** The handler of [rateLimit(options)] called at time [now] with a
    context whose key is [key]: the store after the call, and what the
    call does as a handler of the chain. *)
Definition handler (options : RateLimitOptions) (store : Store) (now : Z)
    (key : string) : Store * code :=
  let (store', entry) := account options store now key in
  (store', respond options now entry).

(** Requests of one key at the given times, one after the other: for
    each, whether it was refused. *)
Fixpoint serve (options : RateLimitOptions) (store : Store) (key : string)
    (times : list Z) : list bool :=
  match times with
  | [] => []
  | now :: rest =>
      let (store', entry) := account options store now key in
      exceeded options entry :: serve options store' key rest
  end.

(** The times are in order, none before [lo] and none after [hi]. *)
Fixpoint ordered_within (lo hi : Z) (times : list Z) : bool :=
  match times with
  | [] => true
  | t :: rest => (lo <=? t)%Z && (t <=? hi)%Z && ordered_within t hi rest
  end.

End RateLimit.

(* ================================================================== *)
(** ** middlewares/cors.ts *)
(* ================================================================== *)

Module Cors.

Import Context Chain Onion.

(** [CorsOrigin]: a string (['*'] among them), a list, a [RegExp] by
    its [test], or a function giving a boolean or a string. *)
Inductive CorsOrigin : Type :=
| OriginString (s : string)
| OriginList (l : list string)
| OriginRegExp (test : string -> bool)
| OriginFunction (f : string -> bool + string).

Record CorsOptions : Type := mkOptions {
  origin : CorsOrigin;
  methods : list string;
  allowedHeaders : list string;
  exposedHeaders : list string;
  credentials : bool;
  maxAge : Z;
  preflightContinue : bool;
  optionsSuccessStatus : Z
}.

(** [cors()] with no options. *)
Definition defaults : CorsOptions :=
  {| origin := OriginString "*";
     methods := ["GET"; "HEAD"; "PUT"; "PATCH"; "POST"; "DELETE"];
     allowedHeaders := ["Content-Type"; "Authorization"];
     exposedHeaders := [];
     credentials := false;
     maxAge := 86400;
     preflightContinue := false;
     optionsSuccessStatus := 204 |}.

(** A string or [null] that is truthy. *)
Definition present (v : option string) : bool :=
  match v with Some s => Js.truthy s | None => false end.

Definition resolveOrigin (config : CorsOrigin) (requestOrigin : option string)
    : option string :=
  match requestOrigin with
  | None => None
  | Some requestOrigin =>
      if negb (Js.truthy requestOrigin) then None
      else
        match config with
        | OriginString s =>
            if String.eqb s "*" then Some "*"
            else if String.eqb s requestOrigin then Some requestOrigin
            else None
        | OriginList l =>
            if existsb (String.eqb requestOrigin) l then Some requestOrigin
            else None
        | OriginRegExp test =>
            if test requestOrigin then Some requestOrigin else None
        | OriginFunction f =>
            match f requestOrigin with
            | inl true => Some requestOrigin
            | inl false => None
            | inr result => Js.or_else (Some result) None
            end
        end
  end.

(** The [setHeader] calls made for every allowed request. *)
Definition commonHeaders (options : CorsOptions) (allowedOrigin : string)
    : list Op :=
  [SetHeader "Access-Control-Allow-Origin" allowedOrigin]
  ++ (if credentials options
      then [SetHeader "Access-Control-Allow-Credentials" "true"] else [])
  ++ (if Nat.ltb 0 (List.length (exposedHeaders options))
      then [SetHeader "Access-Control-Expose-Headers"
              (String.concat ", " (exposedHeaders options))]
      else []).

(** The [setHeader] calls made for a preflight request. *)
Definition preflightHeaders (options : CorsOptions)
    (requestedHeaders : option string) : list Op :=
  [ SetHeader "Access-Control-Allow-Methods"
      (String.concat ", " (methods options));
    SetHeader "Access-Control-Allow-Headers"
      (match Js.or_else requestedHeaders
               (Some (String.concat ", " (allowedHeaders options))) with
       | Some v => v
       | None => EmptyString
       end) ]
  ++ (if negb (maxAge options =? 0)%Z
      then [SetHeader "Access-Control-Max-Age"
              (JsNumber.toString (maxAge options))]
      else [])
  ++ [SetHeader "Vary" "Origin, Access-Control-Request-Headers"].

Definition handler (options : CorsOptions) : code :=
  Inspect (fun ctx =>
    let requestOrigin :=
      Headers.get (Request.headers (request ctx)) "Origin" in
    let allowedOrigin := resolveOrigin (origin options) requestOrigin in
    match allowedOrigin with
    | Some allowedOrigin =>
        if negb (present requestOrigin) || negb (Js.truthy allowedOrigin)
        then AwaitNext (Return NotDone)
        else
          do_ops (commonHeaders options allowedOrigin)
            (if String.eqb (Request.method (request ctx)) "OPTIONS" then
               do_ops
                 (preflightHeaders options
                    (Headers.get (Request.headers (request ctx))
                       "Access-Control-Request-Headers"))
                 (if negb (preflightContinue options) then
                    Do (SetStatus (optionsSuccessStatus options))
                      (Build (fun r => Return (Done r)))
                  else AwaitNext (Return NotDone))
             else
               Do (SetHeader "Vary" "Origin") (AwaitNext (Return NotDone)))
    | None => AwaitNext (Return NotDone)
    end).

Definition cors (options : CorsOptions) : Middleware :=
  mkMiddleware "cors" (handler options) None.

End Cors.

(** Sentences of the specification that the code does not satisfy, written
    as they stand, each next to the claim it belongs to. *)
Module AsStated.

Import Context Chain Onion.


(** C4 as written: under its default options an adapter that uses the
    pass-through heuristic writes the reply when it has content and calls
    the host's [next()] otherwise. *)
Definition passes_through_by_default
    (adapter : Chain.t -> Adapters.AdapterOptions -> Env -> Request.t ->
               list Event ->
               option (Chain.t * list Event * Completion Adapters.Outcome))
    : Prop :=
  forall chain env rq l chain' l' response,
    handle chain env rq [] l = Some (chain', l', Returned response) ->
    adapter chain Adapters.defaultOptions env rq l
    = Some (chain', l',
            Returned (if Adapters.hasContent response
                      then Adapters.Replied response
                      else Adapters.CalledNext)).

Definition every_adapter_passes_through : Prop :=
  passes_through_by_default Adapters.toHono
  /\ passes_through_by_default Adapters.toKoa.


(** C7 as written: for every builder state, two calls of [build()] with
    no change of the builder in between yield equal snapshots. *)
Definition build_twice_is_equal : Prop :=
  forall p b,
    let '(p1, b1, first) := ResponseBuilderFull.build p b in
    let '(_, _, second) := ResponseBuilderFull.build p1 b1 in
    second = first.

(** C10 as written: once [handle] has run on a chain, the first
    [handle] on its clone invokes the hook of every registered
    middleware again. *)
Definition clone_calls_every_hook : Prop :=
  forall chain env request st l0 chain1 l1 r env' request' st' chain2 l2
         outcome,
    handle chain env request st l0 = Some (chain1, l1, Returned r) ->
    handle (clone chain1) env' request' st' l1 = Some (chain2, l2, outcome) ->
    exists added,
      l2 = l1 ++ added /\ inits added = hooked (middlewares chain).

(** C8 as written: an address is accepted only if it is syntactically a
    valid IPv4 or IPv6 address. *)
Definition accepts_only_valid_addresses : Prop :=
  forall env request st addr,
    ip (meta (createContext env request st)) = Some addr ->
    IpSyntax.valid addr = true.

(** C9 as written: the first present header value wins; [x-request-id]
    is the first header checked. *)
Definition first_present_value_wins : Prop :=
  forall env request st v,
    Headers.get (Request.headers request) "x-request-id" = Some v ->
    id (meta (createContext env request st)) = v.

End AsStated.

(** Concrete pipelines and requests the statements are tried on. *)
Module Examples.

Import Chain.

Definition env0 : Env := mkEnv 1700000000000 true [].

Definition get_root : Request.t :=
  Request.mk "http://localhost/" "GET" Headers.empty.

(** The two handlers of the test "should execute middleware in order". *)
Definition outer : code :=
  Do (Emit "1") (AwaitNext (Do (Emit "4") (Return NotDone))).
Definition inner : code :=
  Do (Emit "2") (AwaitNext (Do (Emit "3") (Return NotDone))).


Definition ordered_layers : list Onion.Layer :=
  [ Onion.mkLayer [Emit "1"] [Emit "4"]; Onion.mkLayer [Emit "2"] [Emit "3"] ].


(** A handler that answers 401 and stops the chain, the way [auth] and
    [rateLimit] end a request. *)
Definition unauthorized : code :=
  Do (SetStatus 401)
    (Do (Json "{}") (Build (fun r => Return (Done r)))).

(** [try { await next(); } catch (e) { } return { done: false };] *)
Definition swallow : code :=
  TryAwaitNext (Return NotDone) (fun _ => Return NotDone).

(** [createChain().use(errorHandler()).use(unauthorized)] *)
Definition protected : Chain.t :=
  use createChain [inl ErrorHandler.errorHandler; inr unauthorized].






(** Two middlewares with hooks: the first one's returns, the second one's
    throws. *)
Definition cache_mw : Middleware :=
  mkMiddleware "cache" (AwaitNext (Return NotDone))
    (Some (fun _ => HookReturns)).

Definition db_mw : Middleware :=
  mkMiddleware "db" (AwaitNext (Return NotDone))
    (Some (fun _ => HookThrows "Error" "connection refused")).

(** A middleware whose hook opens a pool once: it returns the first time
    it is called and throws when it is called again. *)
Definition called_before (n : string) (log : list Event) : bool :=
  existsb (fun e => match e with OnInit m => String.eqb m n | _ => false end)
          log.

Definition pool_mw : Middleware :=
  mkMiddleware "pool" (AwaitNext (Return NotDone))
    (Some (fun log =>
             if called_before "pool" log
             then HookThrows "Error" "pool already open"
             else HookReturns)).

Definition pooled : Chain.t := use createChain [inl pool_mw; inl cache_mw].

(** A handler that awaits [next()] twice. *)
Definition twice : code := AwaitNext (AwaitNext (Return NotDone)).

(** A builder whose body is a form, and a platform whose boundaries are
    numbered. *)
Definition form_builder : ResponseBuilderFull.t :=
  ResponseBuilderFull.setBody ResponseBuilderFull.createResponseBuilder
    (Some (BodyInit.Form [("a", "1")])).

Definition numbered : Platform.t :=
  Platform.mk (fun k => NilEmpty.string_of_uint (Nat.to_uint k)) 0 [].

Definition two_calls : list Call :=
  [ (env0, get_root, []); (env0, get_root, []) ].


(** A request whose [x-real-ip] header holds three hexadecimal groups. *)
Definition short_groups : Request.t :=
  Request.mk "http://localhost/" "GET" (Headers.of_list [("x-real-ip", "1:2:3")]).

(** A request with an empty [x-request-id] and a filled
    [x-correlation-id]. *)
Definition empty_request_id : Request.t :=
  Request.mk "http://localhost/" "GET"
    (Headers.of_list [("x-request-id", EmptyString); ("x-correlation-id", "corr-1")]).

(** A request behind two proxies. *)
Definition forwarded : Request.t :=
  Request.mk "http://localhost/" "GET"
    (Headers.of_list [("x-forwarded-for", "203.0.113.5, 10.0.0.1")]).

(** A request with a correlation id. *)
Definition identified : Request.t :=
  Request.mk "http://localhost/" "GET"
    (Headers.of_list [("x-request-id", "abc-123")]).

(** A sole handler that sets a JSON body, and one that sets nothing. *)
Definition json_chain : Chain.t :=
  use createChain [inr (Do (Json "{}") (AwaitNext (Return NotDone)))].

Definition idle_chain : Chain.t :=
  use createChain [inr (AwaitNext (Return NotDone))].

(** A sole handler that announces JSON and sets a body that is not. *)
Definition mistyped_chain : Chain.t :=
  use createChain
    [inr (Do (SetHeader "Content-Type" "application/json")
            (Do (SetBody (Some "oops")) (AwaitNext (Return NotDone))))].

End Examples.

(* ================================================================== *)
(** ** The driver: basic facts *)
(* ================================================================== *)

Module DriverFacts.

Import Context Chain Onion.

Lemma with_response_same (s : RunState) :
  with_response s (fun _ => response (ctx s)) = s.
Proof. destruct s as [[rq rs st mt] i l]; reflexivity. Qed.

Lemma index_apply_op (o : Op) (s : RunState) : index (apply_op o s) = index s.
Proof. destruct o; reflexivity. Qed.

Lemma index_apply_ops (ops : list Op) (s : RunState) :
  index (apply_ops ops s) = index s.
Proof.
  revert s; induction ops as [|o ops IH]; intro s; [reflexivity|].
  change (apply_ops (o :: ops) s) with (apply_ops ops (apply_op o s)).
  rewrite IH; apply index_apply_op.
Qed.

Lemma log_apply_op (o : Op) (s : RunState) :
  log (apply_op o s) = log s ++ emitted [o].
Proof. destruct o; simpl; now rewrite ?app_nil_r. Qed.



Lemma run_do_ops nxt me (ops : list Op) (k : code) (s : RunState) :
  run_handler nxt me (do_ops ops k) s = run_handler nxt me k (apply_ops ops s).
Proof.
  revert s; induction ops as [|o ops IH]; intro s; simpl; [reflexivity|].
  apply IH.
Qed.


(** A relation between the state before and after that every step of
    the driver and of a handler respects holds across [next]. *)
Section Invariant.

Variable R : RunState -> RunState -> Prop.
Hypothesis R_refl : forall s, R s s.
Hypothesis R_trans : forall a b c, R a b -> R b c -> R a c.
Hypothesis R_op : forall o s, R s (apply_op o s).
Hypothesis R_enter : forall s, R s (enter (index s) s).
Hypothesis R_skip : forall s, R s (mkRun (ctx s) (S (index s)) (log s)).
Hypothesis R_resume : forall i s, R s (record (Resumed i) s).

Lemma run_handler_respects nxt me :
  (forall s s' r, nxt s = Some (s', r) -> R s s') ->
  forall c s s' r, run_handler nxt me c s = Some (s', r) -> R s s'.
Proof.
  intros Hn c.
  induction c as [res|n m|o k IH|k IH|k IH|k IH|k IH h IHh];
    intros s s' r; simpl.
  - intros [= <- _]; apply R_refl.
  - intros [= <- _]; apply R_refl.
  - intro H; eapply R_trans; [apply R_op | eapply IH; exact H].
  - apply IH.
  - rewrite with_response_same.
    destruct (new_Response _ _ _) as [x|e].
    + apply IH.
    + intros [= <- _]; apply R_refl.
  - destruct (nxt s) as [[s1 [u|e]]|] eqn:E; try discriminate.
    + intro H. eapply R_trans; [eapply Hn; exact E|].
      eapply R_trans; [apply (R_resume me)|]. eapply IH; exact H.
    + intros [= <- _]. eapply Hn; exact E.
  - destruct (nxt s) as [[s1 [u|e]]|] eqn:E; try discriminate.
    + intro H. eapply R_trans; [eapply Hn; exact E|].
      eapply R_trans; [apply (R_resume me)|]. eapply IH; exact H.
    + intro H. eapply R_trans; [eapply Hn; exact E|]. eapply IHh; exact H.
Qed.

Lemma next_respects mws fuel :
  forall s s' r, next fuel mws s = Some (s', r) -> R s s'.
Proof.
  induction fuel as [|fuel IH]; intros s s' r; simpl.
  - destruct (Nat.leb _ _); [|discriminate].
    intros [= <- _]; apply R_refl.
  - destruct (Nat.leb _ _).
    + intros [= <- _]; apply R_refl.
    + destruct (nth_error mws (index s)) as [mw|].
      * destruct (run_handler _ _ _ _) as [[s1 [[|resp]|e]]|] eqn:E;
          try discriminate; intros [= <- _];
          (eapply R_trans; [apply R_enter|];
           eapply run_handler_respects; [exact IH | exact E]).
      * intros [= <- _]; apply R_skip.
Qed.

End Invariant.

(** Calls of [next()] only move the index forward. *)
Lemma next_index_grows mws fuel s s' r :
  next fuel mws s = Some (s', r) -> index s <= index s'.
Proof.
  apply (next_respects (fun a b => index a <= index b)); intros; simpl;
    try rewrite index_apply_op; lia.
Qed.

(** The driver and the handlers never add an [OnInit] event. *)
Lemma next_keeps_inits mws fuel s s' r :
  next fuel mws s = Some (s', r) -> inits (log s') = inits (log s).
Proof.
  apply (next_respects (fun a b => inits (log b) = inits (log a))); intros; simpl.
  - reflexivity.
  - congruence.
  - rewrite log_apply_op; unfold inits; rewrite flat_map_app.
    destruct o; simpl; now rewrite app_nil_r.
  - unfold inits; rewrite flat_map_app; simpl; now rewrite app_nil_r.
  - reflexivity.
  - unfold inits; rewrite flat_map_app; simpl; now rewrite app_nil_r.
Qed.

End DriverFacts.

(** The driver always comes back: the fuel [executeChain] gives is enough. *)
Module Totality.

Import Context Chain Onion DriverFacts.

Lemma run_handler_total nxt me bound :
  (forall s, bound <= index s -> exists s' r, nxt s = Some (s', r)) ->
  (forall s s' r, nxt s = Some (s', r) -> index s <= index s') ->
  forall c s, bound <= index s ->
    exists s' r, run_handler nxt me c s = Some (s', r).
Proof.
  intros Htot Hmono c.
  induction c as [res|n m|o k IH|k IH|k IH|k IH|k IH h IHh];
    intros s Hs; simpl.
  - eauto.
  - eauto.
  - apply IH; now rewrite index_apply_op.
  - now apply IH.
  - rewrite with_response_same.
    destruct (new_Response _ _ _); [now apply IH | eauto].
  - destruct (Htot s Hs) as (s1 & r1 & E); rewrite E.
    pose proof (Hmono _ _ _ E).
    destruct r1; [apply IH; simpl; lia | eauto].
  - destruct (Htot s Hs) as (s1 & r1 & E); rewrite E.
    pose proof (Hmono _ _ _ E).
    destruct r1; [apply IH; simpl; lia | apply IHh; lia].
Qed.

Lemma next_total mws fuel :
  forall s, List.length mws - index s <= fuel ->
    exists s' r, next fuel mws s = Some (s', r).
Proof.
  induction fuel as [|fuel IH]; intros s Hs; simpl.
  - destruct (Nat.leb_spec (List.length mws) (index s)); [eauto | lia].
  - destruct (Nat.leb_spec (List.length mws) (index s)); [eauto|].
    destruct (nth_error mws (index s)) as [mw|]; [|eauto].
    destruct (run_handler_total (next fuel mws) (index s) (S (index s)))
      with (c := handler mw)
           (s := record (Entered (index s)) (mkRun (ctx s) (S (index s)) (log s)))
      as (s1 & r1 & E).
    + intros s0 H0; apply IH; lia.
    + intros s0 s0' r0; apply next_index_grows.
    + simpl; lia.
    + rewrite E. destruct r1 as [[|resp]|e]; eauto.
Qed.

Lemma executeChain_total mws c l :
  exists s r, executeChain mws c l = Some (s, r).
Proof. apply next_total; simpl; lia. Qed.

Lemma handle_total chain env request st l :
  exists chain' l' r, handle chain env request st l = Some (chain', l', r).
Proof.
  unfold handle.
  destruct (ensureInitialized chain l) as [[chain' l'] [e|]]; [eauto|].
  destruct (executeChain_total (middlewares chain')
              (createContext env request st) l') as (s & r & E).
  rewrite E; eauto.
Qed.

Lemma handleAll_total calls :
  forall chain l, exists chain' l', handleAll chain l calls = Some (chain', l').
Proof.
  induction calls as [|[[env rq] st] calls IH]; intros chain l; simpl; [eauto|].
  destruct (handle_total chain env rq st l) as (c1 & l1 & r1 & E).
  rewrite E; apply IH.
Qed.

End Totality.

(** Onion-shaped handlers: how [next] runs a row of them. *)
Module OnionFacts.

Import Context Chain Onion DriverFacts.

Lemma sits_at_tail mws i u ups :
  sits_at mws i (u :: ups) -> sits_at mws (S i) ups.
Proof.
  intros H j mw Hj. replace (S i + j) with (i + S j) by lia.
  apply H; exact Hj.
Qed.

Lemma sits_at_head mws i u ups :
  sits_at mws i (u :: ups) ->
  nth_error mws i = Some u /\ Nat.leb (List.length mws) i = false.
Proof.
  intro H. assert (E : nth_error mws i = Some u).
  { replace i with (i + 0) by lia. apply H; reflexivity. }
  split; [exact E|].
  apply Nat.leb_gt. apply nth_error_Some. congruence.
Qed.

Lemma sits_at_app pre ups rest : sits_at (pre ++ ups ++ rest) (List.length pre) ups.
Proof.
  intros j mw Hj.
  rewrite nth_error_app2 by lia.
  replace (List.length pre + j - List.length pre) with j by lia.
  rewrite nth_error_app1; [exact Hj|].
  apply nth_error_Some; congruence.
Qed.

(** Entering the handler at [index s]: the first steps of [next]. *)
Lemma next_enters mws fuel s mw :
  nth_error mws (index s) = Some mw ->
  Nat.leb (List.length mws) (index s) = false ->
  next (S fuel) mws s =
    match run_handler (next fuel mws) (index s) (handler mw)
            (enter (index s) s) with
    | None => None
    | Some (s', Returned (Done response)) =>
        Some (s', Threw (ShortCircuitError response))
    | Some (s', Returned NotDone) => Some (s', Returned tt)
    | Some (s', Threw e) => Some (s', Threw e)
    end.
Proof. intros E L; simpl; rewrite L, E; reflexivity. Qed.

Lemma index_enter i s : index (enter i s) = S i.
Proof. reflexivity. Qed.


(** When that call throws and no handler of the row has a [catch]
    around its call, the thrown value passes through all of them. *)
Lemma onion_throws mws ups layers :
  Forall2 plainly_layered ups layers ->
  forall i f0 s s2 e,
    sits_at mws i ups -> index s = i ->
    next f0 mws (descend i layers s) = Some (s2, Threw e) ->
    next (List.length ups + f0) mws s = Some (s2, Threw e).
Proof.
  induction 1 as [|mw l ups layers Hl _ IH]; intros i f0 s s2 e Hsit Hi Hin.
  - simpl in *. exact Hin.
  - destruct (sits_at_head _ _ _ _ Hsit) as [Hnth Hlt].
    change (List.length (mw :: ups) + f0) with (S (List.length ups + f0)).
    subst i. rewrite (next_enters _ _ _ mw Hnth Hlt).
    specialize (IH (S (index s)) f0
                   (apply_ops (before l) (enter (index s) s)) s2 e
                   (sits_at_tail _ _ _ _ Hsit)).
    rewrite index_apply_ops in IH. specialize (IH eq_refl Hin).
    red in Hl; rewrite Hl, run_do_ops; simpl; rewrite IH; reflexivity.
Qed.


Lemma index_descend layers : forall i s,
  index s = i -> index (descend i layers s) = i + List.length layers.
Proof.
  induction layers as [|l tl IH]; intros i s Hi; simpl; [lia|].
  rewrite IH; [lia|]. now rewrite index_apply_ops.
Qed.


Lemma entered_app a b : entered (a ++ b) = entered a ++ entered b.
Proof. apply flat_map_app. Qed.

Lemma resumed_app a b : resumed (a ++ b) = resumed a ++ resumed b.
Proof. apply flat_map_app. Qed.

Lemma inits_app a b : inits (a ++ b) = inits a ++ inits b.
Proof. apply flat_map_app. Qed.

Lemma entered_emitted ops : entered (emitted ops) = [].
Proof. induction ops as [|[] ops IH]; simpl; auto. Qed.

Lemma resumed_emitted ops : resumed (emitted ops) = [].
Proof. induction ops as [|[] ops IH]; simpl; auto. Qed.


Lemma resumed_enter_phase layers : forall i,
  resumed (enter_phase i layers) = [].
Proof.
  induction layers as [|l tl IH]; intro i; simpl; [reflexivity|].
  rewrite resumed_app, resumed_emitted, IH; reflexivity.
Qed.


Lemma resumed_resume_phase layers : forall i,
  resumed (resume_phase i layers) = rev (seq i (List.length layers)).
Proof.
  induction layers as [|l tl IH]; intro i; simpl; [reflexivity|].
  rewrite resumed_app, IH; simpl. now rewrite resumed_emitted.
Qed.


End OnionFacts.

(* ================================================================== *)
(** ** The claims *)
(* ================================================================== *)


(** Handlers that each await [next()]: how [next] runs a row of them, in
    the terms of [nest]. *)
Module NestFacts.

Import Context Chain Onion DriverFacts OnionFacts.


























End NestFacts.

Section OnionOrder.

Import Context Chain Onion DriverFacts OnionFacts NestFacts.

Lemma ensureInitialized_middlewares chain l chain' l' e :
  ensureInitialized chain l = (chain', l', e) ->
  middlewares chain' = middlewares chain.
Proof.
  unfold ensureInitialized.
  destruct (negb (initialized chain)).
  - destruct (initializeMiddlewares _ _) as [l1 [u|x]]; intros [= <- _ _];
      reflexivity.
  - intros [= <- _ _]; reflexivity.
Qed.





End OnionOrder.

Section ShortCircuit.

Import Context Chain Onion DriverFacts OnionFacts.

(** C2, at the failing input. An upstream handler that wraps its
    [await next()] in a [catch] and returns [{ done: false }] receives the
    [ShortCircuitError] the driver throws for the downstream
    [{ done: true, response: r }]: [handle] then returns the snapshot of
    the untouched builder (status 200, no body), whatever [r] is. *)
Theorem stop_swallowed_by_upstream_catch :
  forall r : Response.t,
    handle (use createChain [inr Examples.swallow; inr (Return (Done r))])
      Examples.env0 Examples.get_root [] []
    = Some (mk [ mkMiddleware "anonymous-0" Examples.swallow None;
                 mkMiddleware "anonymous-1" (Return (Done r)) None ] true,
            [Entered 0; Entered 1],
            Returned (Response.mk 200 [] None)).
Proof. intro r; reflexivity. Qed.

(** C3, at the failing input. With the repository's [errorHandler()]
    registered first, a downstream handler that stops the chain with a 401
    reply has its short-circuit signal caught by the handler's [catch]
    (the log shows its error report): [handle] returns the 500 reply the
    error handler builds, not the 401 one. *)
Theorem errorHandler_catches_short_circuit :
  handle Examples.protected Examples.env0 Examples.get_root [] []
  = Some (mk (middlewares Examples.protected) true,
          [Entered 0; Entered 1; Emitted "[ErrorHandler]"],
          Returned
            (Response.mk 500
               [("content-type", "application/json; charset=utf-8")]
               (Some ErrorHandler.internalErrorBody))).
Proof. reflexivity. Qed.

Lemma length_layers_plain ups layers :
  Forall2 plainly_layered ups layers -> List.length layers = List.length ups.
Proof. intro H; symmetry; exact (Forall2_length H). Qed.

(** Short-circuit through handlers that have no [catch] around their
    call: when the handlers registered before [hk] are plain onion layers
    and [hk], entered after their [before] parts, returns
    [{ done: true, response: r }], [handle] returns exactly [r], and the
    log ends where [hk] returned: no handler is entered or resumed after
    that, and the builder is not read. *)
Theorem stop_unwinds_plain_handlers :
  forall chain layers ups hk downs env request st log0 chain' log' s_k r,
    ensureInitialized chain log0 = (chain', log', None) ->
    middlewares chain = ups ++ hk :: downs ->
    Forall2 plainly_layered ups layers ->
    run_handler (next (List.length downs) (middlewares chain))
      (List.length ups) (handler hk)
      (enter (List.length ups)
         (descend 0 layers (mkRun (createContext env request st) 0 log')))
    = Some (s_k, Returned (Done r)) ->
    handle chain env request st log0 = Some (chain', log s_k, Returned r).
Proof.
  intros chain layers ups hk downs env request st log0 chain' log' s_k r
         Hinit Hm Hlay Hrun.
  pose proof (ensureInitialized_middlewares _ _ _ _ _ Hinit) as Hm'.
  unfold handle; rewrite Hinit, Hm'. unfold executeChain.
  set (s0 := mkRun (createContext env request st) 0 log') in *.
  set (mws := middlewares chain) in *.
  assert (Hidx : index (descend 0 layers s0) = List.length ups).
  { rewrite index_descend by reflexivity.
    now rewrite (length_layers_plain _ _ Hlay). }
  assert (Hsit : sits_at mws 0 ups).
  { rewrite Hm. exact (sits_at_app [] ups (hk :: downs)). }
  assert (Hk : nth_error mws (List.length ups) = Some hk).
  { rewrite Hm, nth_error_app2 by lia. now rewrite Nat.sub_diag. }
  assert (Hlt : Nat.leb (List.length mws) (List.length ups) = false).
  { apply Nat.leb_gt, nth_error_Some; congruence. }
  assert (Hin : next (S (List.length downs)) mws (descend 0 layers s0)
                = Some (s_k, Threw (ShortCircuitError r))).
  { rewrite (next_enters _ _ _ hk); rewrite Hidx; try assumption.
    now rewrite Hrun. }
  pose proof (onion_throws _ _ _ Hlay 0 _ s0 _ _ Hsit eq_refl Hin) as Hall.
  replace (List.length mws) with (List.length ups + S (List.length downs)).
  - rewrite Hall; reflexivity.
  - rewrite Hm, length_app; reflexivity.
Qed.

(** The test "should stop chain when middleware returns done: true",
    with a plain handler registered before the one that stops. *)
Lemma stop_unwinds_plain_handlers_witness :
  exists l,
    handle (use createChain
              [inr Examples.outer; inr Examples.unauthorized; inr Examples.inner])
      Examples.env0 Examples.get_root [] []
    = Some (mk [ mkMiddleware "anonymous-0" Examples.outer None;
                 mkMiddleware "anonymous-1" Examples.unauthorized None;
                 mkMiddleware "anonymous-2" Examples.inner None ] true,
            l,
            Returned (Response.mk 401
                        [("content-type", "application/json; charset=utf-8")]
                        (Some "{}"))).
Proof.
  eexists.
  refine (stop_unwinds_plain_handlers
            (use createChain
               [inr Examples.outer; inr Examples.unauthorized; inr Examples.inner])
            [mkLayer [Emit "1"] [Emit "4"]]
            [mkMiddleware "anonymous-0" Examples.outer None]
            (mkMiddleware "anonymous-1" Examples.unauthorized None)
            [mkMiddleware "anonymous-2" Examples.inner None]
            Examples.env0 Examples.get_root [] [] _ [] _ _
            eq_refl eq_refl _ eq_refl).
  constructor; [reflexivity | constructor].
Defined.

End ShortCircuit.

Section ContinueWithoutNext.

Import Context Chain Onion DriverFacts OnionFacts.








End ContinueWithoutNext.

Section Lifecycle.

Import Context Chain Onion DriverFacts OnionFacts Totality.

Lemma use_inl ms : forall chain,
  use chain (map inl ms) = mk (middlewares chain ++ ms) (initialized chain).
Proof.
  induction ms as [|m ms IH]; intro chain.
  - destruct chain; simpl; now rewrite app_nil_r.
  - change (use chain (map inl (m :: ms)))
      with (use (mk (middlewares chain ++ [m]) (initialized chain)) (map inl ms)).
    rewrite IH; simpl. now rewrite <- app_assoc.
Qed.

Lemma inits_OnInit names : inits (map OnInit names) = names.
Proof. induction names as [|n names IH]; simpl; [reflexivity | now rewrite IH]. Qed.

(** The hooks that return are called in order, one event each. *)
Lemma initializeMiddlewares_returns mws : forall l,
  hooks_return mws l ->
  initializeMiddlewares mws l = (l ++ map OnInit (hooked mws), Returned tt).
Proof.
  induction mws as [|mw mws IH]; intros l H.
  - simpl. now rewrite app_nil_r.
  - cbn [hooks_return] in H. cbn [initializeMiddlewares].
    unfold hooked; cbn [flat_map]. fold (hooked mws).
    destruct (onInit mw) as [hook|].
    + destruct H as [Hh Hrest]. rewrite Hh, (IH _ Hrest).
      cbn [map app]. now rewrite <- app_assoc.
    + now rewrite IH.
Qed.

(** If the loop came back, every hook returned. *)
Lemma initializeMiddlewares_returned mws : forall l l' u,
  initializeMiddlewares mws l = (l', Returned u) -> hooks_return mws l.
Proof.
  induction mws as [|mw mws IH]; intros l l' u H; [exact I|].
  cbn [initializeMiddlewares] in H. cbn [hooks_return].
  destruct (onInit mw) as [hook|].
  - destruct (hook l); [|discriminate]. split; [reflexivity|].
    eapply IH; exact H.
  - eapply IH; exact H.
Qed.

(** If it threw, the hooks before the one that threw had returned, and
    none after it was called. *)
Lemma initializeMiddlewares_threw mws : forall l l' e,
  initializeMiddlewares mws l = (l', Threw e) ->
  exists pre mw post hook n m,
    mws = pre ++ mw :: post /\ onInit mw = Some hook
    /\ hooks_return pre l
    /\ hook (l ++ map OnInit (hooked pre)) = HookThrows n m
    /\ l' = l ++ map OnInit (hooked pre ++ [name mw])
    /\ e = JsError n m.
Proof.
  induction mws as [|mw mws IH]; intros l l' e H; [discriminate|].
  cbn [initializeMiddlewares] in H.
  destruct (onInit mw) as [hook|] eqn:Eh.
  - destruct (hook l) as [|n m] eqn:El.
    + destruct (IH _ _ _ H) as (pre & mw' & post & hook' & n & m
                                & -> & Eh' & Hp & Et & -> & ->).
      exists (mw :: pre), mw', post, hook', n, m.
      unfold hooked; cbn [flat_map hooks_return]; fold (hooked pre).
      rewrite Eh. cbn [app map].
      rewrite <- !app_assoc in *. cbn [app] in *. auto 10.
    + injection H as <- <-.
      exists [], mw, mws, hook, n, m. cbn. rewrite app_nil_r. auto 10.
  - destruct (IH _ _ _ H) as (pre & mw' & post & hook' & n & m
                              & -> & Eh' & Hp & Et & -> & ->).
    exists (mw :: pre), mw', post, hook', n, m.
    unfold hooked; cbn [flat_map hooks_return]; fold (hooked pre).
    rewrite Eh. cbn [app]. auto 10.
Qed.

(** Hooks that take no account of the past return again. *)
Lemma hooks_return_stateless mws : forall a b,
  Forall stateless mws -> hooks_return mws a -> hooks_return mws b.
Proof.
  induction mws as [|mw mws IH]; intros a b Hs H; [exact I|].
  inversion Hs as [|? ? Hmw Hrest]; subst.
  cbn [hooks_return] in *.
  destruct (onInit mw) as [hook|] eqn:Eh.
  - destruct H as [Hh Hr]. split.
    + rewrite <- Hh. apply (Hmw hook Eh).
    + eapply IH; [exact Hrest | exact Hr].
  - eapply IH; [exact Hrest | exact H].
Qed.

(** What [next] adds to the log holds no [OnInit] event. *)
Lemma next_appends mws fuel s s' r :
  next fuel mws s = Some (s', r) ->
  exists rest, log s' = log s ++ rest /\ inits rest = [].
Proof.
  apply (next_respects
           (fun a b => exists rest, log b = log a ++ rest /\ inits rest = []));
    intros; simpl.
  - exists []; now rewrite app_nil_r.
  - destruct H as (r1 & E1 & N1), H0 as (r2 & E2 & N2).
    exists (r1 ++ r2); rewrite E2, E1, <- app_assoc, inits_app, N1, N2; auto.
  - exists (emitted [o]); rewrite log_apply_op; split; [reflexivity|].
    destruct o; reflexivity.
  - eexists; split; reflexivity.
  - exists []; now rewrite app_nil_r.
  - eexists; split; reflexivity.
Qed.

(** A call on a chain whose flag is set calls no hook. *)
Lemma handle_started chain env rq st l chain' l' r :
  initialized chain = true ->
  handle chain env rq st l = Some (chain', l', r) ->
  chain' = chain /\ exists rest, l' = l ++ rest /\ inits rest = [].
Proof.
  intros Hi. unfold handle, ensureInitialized; rewrite Hi; simpl.
  unfold executeChain.
  destruct (next _ _ _) as [[s o]|] eqn:E; [|discriminate].
  intros [= <- <- _]. split; [reflexivity|].
  exact (next_appends _ _ _ _ _ E).
Qed.

(** The first call on a chain whose hooks all return: the hooks run in
    registration order before any handler, and the flag is set. *)
Lemma handle_first chain env rq st l :
  initialized chain = false ->
  hooks_return (middlewares chain) l ->
  exists l1 r1 rest,
    handle chain env rq st l = Some (mk (middlewares chain) true, l1, r1)
    /\ l1 = l ++ map OnInit (hooked (middlewares chain)) ++ rest
    /\ inits rest = [].
Proof.
  intros Hi Hh. unfold handle, ensureInitialized; rewrite Hi; simpl.
  rewrite (initializeMiddlewares_returns _ l Hh); simpl.
  destruct (executeChain_total (middlewares chain)
              (createContext env rq st)
              (l ++ map OnInit (hooked (middlewares chain)))) as (s & o & E).
  rewrite E. unfold executeChain in E.
  destruct (next_appends _ _ _ _ _ E) as (rest & El & N).
  eexists _, _, rest; split; [reflexivity|]. simpl in El.
  split; [now rewrite El, <- app_assoc | exact N].
Qed.

Lemma handleAll_started calls : forall chain l chain' l',
  initialized chain = true ->
  handleAll chain l calls = Some (chain', l') ->
  chain' = chain /\ inits l' = inits l.
Proof.
  induction calls as [|[[env rq] st] calls IH]; intros chain l chain' l' Hi; simpl.
  - intros [= <- <-]; auto.
  - destruct (handle chain env rq st l) as [[[c1 l1] r1]|] eqn:E; [|discriminate].
    destruct (handle_started _ _ _ _ _ _ _ _ Hi E) as (-> & rest & -> & N).
    intro H; destruct (IH _ _ _ _ Hi H) as (-> & ->).
    split; [reflexivity|]. now rewrite inits_app, N, app_nil_r.
Qed.

(** C6, at the failing input. A chain holds a middleware whose [onInit]
    hook returns and, registered after it, one whose hook throws. Each
    [handle] call then calls both hooks and rejects before the flag is
    set: over any sequence of calls the hook that succeeded runs once
    per call, twice over two calls, and not once in total. *)
Theorem succeeded_hook_runs_every_call :
  forall calls l,
    handleAll (use createChain [inl Examples.cache_mw; inl Examples.db_mw])
      l calls
    = Some (mk [Examples.cache_mw; Examples.db_mw] false,
            l ++ flat_map (fun _ => [OnInit "cache"; OnInit "db"]) calls).
Proof.
  induction calls as [|[[env rq] st] calls IH]; intro l.
  - cbn. now rewrite app_nil_r.
  - cbn [handleAll flat_map].
    change (handle (use createChain [inl Examples.cache_mw; inl Examples.db_mw])
              env rq st l)
      with (Some (mk [Examples.cache_mw; Examples.db_mw] false,
                  (l ++ [OnInit "cache"]) ++ [OnInit "db"],
                  @Threw Response.t (JsError "Error" "connection refused"))).
    cbv iota beta.
    change (mk [Examples.cache_mw; Examples.db_mw] false)
      with (use createChain [inl Examples.cache_mw; inl Examples.db_mw]) at 1.
    rewrite IH. rewrite <- !app_assoc. reflexivity.
Qed.

(** C10, amended. After a first [handle] call has run the hooks of a
    chain and set its flag, the chain [clone()] returns holds the same
    middlewares with the flag unset, and its first [handle] call calls
    the hooks again, in registration order and before any handler. If
    they all return again, as hooks that take no account of the past
    do, every hook has run a second time and the flag of the clone is
    set. If one throws, the hooks up to that one have run a second
    time, no later hook is called, the call rejects with the error of
    that hook and the flag of the clone stays unset. *)
Theorem clone_runs_hooks_again :
  forall chain env rq st l0 chain1 l1 r1 env2 rq2 st2,
    initialized chain = false ->
    handle chain env rq st l0 = Some (chain1, l1, r1) ->
    initialized chain1 = true ->
    let mws := middlewares chain1 in
    initialized (clone chain1) = false
    /\ getMiddlewares (clone chain1) = mws
    /\ inits l1 = inits l0 ++ hooked mws
    /\ (Forall stateless mws -> hooks_return mws l1)
    /\ exists chain2 l2 r2 called rest,
         handle (clone chain1) env2 rq2 st2 l1 = Some (chain2, l2, r2)
         /\ l2 = l1 ++ map OnInit called ++ rest
         /\ inits rest = []
         /\ (hooks_return mws l1 ->
             called = hooked mws /\ initialized chain2 = true)
         /\ (~ hooks_return mws l1 ->
             exists pre mw post hook n m,
               mws = pre ++ mw :: post /\ onInit mw = Some hook
               /\ hooks_return pre l1
               /\ hook (l1 ++ map OnInit (hooked pre)) = HookThrows n m
               /\ called = hooked pre ++ [name mw]
               /\ rest = []
               /\ r2 = Threw (JsError n m)
               /\ initialized chain2 = false).
Proof.
  intros chain env rq st l0 chain1 l1 r1 env2 rq2 st2 Hi H1 Hi1 mws.
  assert (Hh : hooks_return (middlewares chain) l0).
  { revert H1. unfold handle, ensureInitialized; rewrite Hi; simpl.
    destruct (initializeMiddlewares _ _) as [l' [u|e]] eqn:E.
    - intros _. eapply initializeMiddlewares_returned; exact E.
    - intros [= <- _ _]. congruence. }
  destruct (handle_first chain env rq st l0 Hi Hh)
    as (l1' & r1' & rest1 & E1 & El1 & N1).
  rewrite E1 in H1. injection H1 as <- <- <-.
  subst mws. cbn [middlewares].
  unfold clone, getMiddlewares. rewrite use_inl.
  cbn [middlewares initialized createChain app].
  split; [reflexivity|]. split; [reflexivity|]. split; [|split].
  - rewrite El1, !inits_app, inits_OnInit, N1. now rewrite app_nil_r.
  - intro Hs. exact (hooks_return_stateless _ _ _ Hs Hh).
  - destruct (initializeMiddlewares (middlewares chain) l1') as [l2 [u|e]] eqn:E.
    + pose proof (initializeMiddlewares_returned _ _ _ _ E) as Hr.
      destruct (handle_first (mk (middlewares chain) false) env2 rq2 st2 l1'
                  eq_refl Hr) as (l2' & r2 & rest2 & E2 & El2 & N2).
      exists (mk (middlewares chain) true), l2', r2,
             (hooked (middlewares chain)), rest2.
      split; [exact E2|]. split; [exact El2|]. split; [exact N2|].
      split; [auto | intro Hn; destruct (Hn Hr)].
    + destruct (initializeMiddlewares_threw _ _ _ _ E)
        as (pre & mw & post & hook & n & m & Em & Eh & Hp & Et & -> & ->).
      exists (mk (middlewares chain) false), 
             (l1' ++ map OnInit (hooked pre ++ [name mw])),
             (Threw (JsError n m)), (hooked pre ++ [name mw]), [].
      split.
      { unfold handle, ensureInitialized. cbn [initialized middlewares negb].
        rewrite E. reflexivity. }
      split; [now rewrite app_nil_r|]. split; [reflexivity|]. split.
      * intro Hr. rewrite (initializeMiddlewares_returns _ _ Hr) in E.
        discriminate E.
      * intros _. exists pre, mw, post, hook, n, m. auto 10.
Qed.

(** A started chain with one hook, cloned: the clone's first call shows
    the hook called a second time. *)
Lemma clone_runs_hooks_again_witness :
  exists chain2 l2 r2 rest,
    handle (clone (mk [Examples.cache_mw] true)) Examples.env0
      Examples.get_root [] [OnInit "cache"; Entered 0; Resumed 0]
    = Some (chain2, l2, r2)
    /\ l2 = [OnInit "cache"; Entered 0; Resumed 0] ++ [OnInit "cache"] ++ rest
    /\ inits rest = []
    /\ initialized chain2 = true.
Proof.
  destruct (clone_runs_hooks_again (use createChain [inl Examples.cache_mw])
              Examples.env0 Examples.get_root [] []
              (mk [Examples.cache_mw] true)
              [OnInit "cache"; Entered 0; Resumed 0]
              (Returned (Response.mk 200 [] None))
              Examples.env0 Examples.get_root []
              eq_refl eq_refl eq_refl)
    as (_ & _ & _ & _ & c2 & l2 & r2 & called & rest & E2 & El2 & N2 & Hr & _).
  destruct (Hr (conj eq_refl I)) as [-> Hi2].
  exists c2, l2, r2, rest. auto.
Defined.

(** C10 as written fails: a hook that throws when it is called a second
    time makes the first call on the clone reject at that hook, and the
    hook registered after it is not called again. *)
Lemma later_hook_not_called_again : ~ AsStated.clone_calls_every_hook.
Proof.
  intro H.
  destruct (H Examples.pooled Examples.env0 Examples.get_root [] []
              _ _ _ Examples.env0 Examples.get_root [] _ _ _
              eq_refl eq_refl) as (added & E & N).
  cbn [app] in E. injection E as <-. discriminate N.
Qed.

End Lifecycle.

Section Builder.

Import Context Chain.

(** On a body that is null or a string the full builder builds what the
    builder of the chain builds, and leaves the platform alone. *)
Lemma build_widen (p : Platform.t) (b : ResponseBuilder.t) :
  ResponseBuilderFull.build p (ResponseBuilderFull.widen b)
  = (p, ResponseBuilderFull.widen b,
     ResponseBuilderFull.seen (snd (ResponseBuilder.build b))).
Proof.
  destruct b as [st h [text|]];
    unfold ResponseBuilderFull.build, ResponseBuilderFull.new_Response,
           ResponseBuilder.build, new_Response, ResponseBuilderFull.widen;
    cbn [ResponseBuilder._status ResponseBuilder._headers ResponseBuilder._body
         ResponseBuilderFull._status ResponseBuilderFull._headers
         ResponseBuilderFull._body ResponseBuilderFull.extract option_map
         fst snd].
  - destruct (negb _); [reflexivity|].
    destruct (null_body_status st); [reflexivity|].
    destruct (Headers.has h "Content-Type"); reflexivity.
  - destruct (negb _); reflexivity.
Qed.

Lemma build_builder (p : Platform.t) (b : ResponseBuilderFull.t) :
  snd (fst (ResponseBuilderFull.build p b)) = b.
Proof.
  unfold ResponseBuilderFull.build.
  destruct (ResponseBuilderFull.new_Response _ _ _ _); reflexivity.
Qed.

(** C7, amended. [build()] leaves the builder as it was. On a body that
    is not a form a second [build()] ends as the first did, both
    throwing the same error or both returning snapshots of equal status,
    headers and body, and the platform is left as it was; on a body that
    is null or a string both are what the builder of the chain gives.
    On a form each [build()] draws a new multipart boundary: where the
    status allows a body, the first snapshot carries the form under one
    boundary and the second under the next. On a stream, a [build()]
    made after the body of the first snapshot was read throws a
    [TypeError]. *)
Theorem build_idempotent :
  forall (p : Platform.t) (b : ResponseBuilderFull.t),
    let first := ResponseBuilderFull.build p b in
    let p1 := fst (fst first) in
    let second := ResponseBuilderFull.build p1 (snd (fst first)) in
    snd (fst first) = b
    /\ snd (fst second) = b
    /\ ((forall entries,
           ResponseBuilderFull._body b <> Some (BodyInit.Form entries)) ->
        p1 = p /\ fst (fst second) = p /\ snd second = snd first)
    /\ (forall narrow,
          b = ResponseBuilderFull.widen narrow ->
          snd first
          = ResponseBuilderFull.seen (snd (ResponseBuilder.build narrow)))
    /\ (forall entries,
          ResponseBuilderFull._body b = Some (BodyInit.Form entries) ->
          (200 <=? ResponseBuilderFull._status b)%Z
          && (ResponseBuilderFull._status b <=? 599)%Z = true ->
          null_body_status (ResponseBuilderFull._status b) = false ->
          snd first
          = Returned (ResponseBuilderFull.form_snapshot b entries
                        (Platform.boundary p (Platform.drawn p)))
          /\ snd second
             = Returned (ResponseBuilderFull.form_snapshot b entries
                           (Platform.boundary p (S (Platform.drawn p)))))
    /\ (forall stream,
          ResponseBuilderFull._body b = Some (BodyInit.Stream stream) ->
          snd (ResponseBuilderFull.build (Platform.read p1 stream) b)
          = Threw (JsError "TypeError" "body stream is disturbed or locked")).
Proof.
  intros p b first p1 second.
  assert (B : snd (fst first) = b) by apply build_builder.
  split; [exact B|].
  split; [unfold second; rewrite build_builder; exact B|].
  split; [|split; [|split]].
  - intro Hform.
    assert (E : fst (fst first) = p).
    { subst first. destruct b as [st h body].
      unfold ResponseBuilderFull.build, ResponseBuilderFull.new_Response.
      cbn [ResponseBuilderFull._body ResponseBuilderFull._status
           ResponseBuilderFull._headers] in *.
      destruct body as [[t|t|entries|ty bs|bs|id]|];
        cbn [ResponseBuilderFull.extract];
        try (destruct (Hform entries eq_refl));
        repeat match goal with
               | |- context [if ?c then _ else _] => destruct c
               end; reflexivity. }
    subst p1 second. rewrite E, B. fold first. auto.
  - intros narrow E. subst first. rewrite E, build_widen. reflexivity.
  - intros entries Hb Hst Hnull.
    subst second p1. rewrite B. clear B.
    subst first. destruct b as [st h body].
    cbn [ResponseBuilderFull._body ResponseBuilderFull._status] in Hb, Hst, Hnull.
    subst body.
    unfold ResponseBuilderFull.build, ResponseBuilderFull.new_Response,
      ResponseBuilderFull.form_snapshot.
    cbn [ResponseBuilderFull._body ResponseBuilderFull._status
         ResponseBuilderFull._headers ResponseBuilderFull.extract
         fst snd Platform.boundary Platform.drawn Platform.unusable].
    rewrite Hst, Hnull. cbn [negb].
    destruct (Headers.has h "Content-Type"); split; reflexivity.
  - intros stream Hb. destruct b as [st h body].
    cbn [ResponseBuilderFull._body] in Hb. subst body.
    unfold ResponseBuilderFull.build, ResponseBuilderFull.new_Response,
      Platform.read.
    cbn [ResponseBuilderFull._body ResponseBuilderFull.extract
         Platform.unusable existsb].
    rewrite Nat.eqb_refl. reflexivity.
Qed.

(** A builder holding text, built twice. *)
Lemma build_idempotent_witness :
  snd (ResponseBuilderFull.build Examples.numbered
         (ResponseBuilderFull.text ResponseBuilderFull.createResponseBuilder
            "hi"))
  = Returned (Snapshot.mk 200 [("content-type", "text/plain; charset=utf-8")]
                (Some (Snapshot.Data "hi")))
  /\ snd (ResponseBuilderFull.build Examples.numbered
            (ResponseBuilderFull.text ResponseBuilderFull.createResponseBuilder
               "hi"))
     = snd (ResponseBuilderFull.build Examples.numbered
              (ResponseBuilderFull.text
                 ResponseBuilderFull.createResponseBuilder "hi")).
Proof.
  split; [reflexivity|].
  refine (proj2 (proj2 (proj1 (proj2 (proj2
            (build_idempotent Examples.numbered
               (ResponseBuilderFull.text
                  ResponseBuilderFull.createResponseBuilder "hi"))))
            _))).
  intros entries; discriminate.
Defined.

(** C7 as written fails: a builder whose body is a form gives two
    snapshots under different boundaries. *)
Lemma form_snapshots_differ : ~ AsStated.build_twice_is_equal.
Proof.
  intro H. specialize (H Examples.numbered Examples.form_builder).
  discriminate H.
Qed.

End Builder.

(** The recogniser of JSON text: the fuel [parses] gives is enough. *)
Module JSONFacts.

Import JSON.

Lemma skip_ws_length s : String.length (skip_ws s) <= String.length s.
Proof.
  induction s as [|c s IH]; cbn [skip_ws]; [lia|].
  destruct (is_ws c); cbn [String.length]; lia.
Qed.

Lemma string_rest_length : forall n s r,
  String.length s <= n -> string_rest s = Some r ->
  String.length r < String.length s.
Proof.
  induction n as [|n IH]; intros s r Hn.
  - destruct s; [discriminate | cbn in Hn; lia].
  - destruct s as [|c s]; [discriminate|]. cbn [string_rest String.length] in *.
    destruct (Ascii.eqb c quote); [intros [= <-]; lia|].
    destruct (Ascii.eqb c backslash).
    + destruct s as [|e s]; [discriminate|]. cbn [String.length] in *.
      destruct (is_escape e).
      * intro H. apply IH in H; lia.
      * destruct (Ascii.eqb e "u"); [|discriminate].
        destruct s as [|h1 [|h2 [|h3 [|h4 s]]]]; try discriminate.
        cbn [String.length] in *.
        destruct (_ && _); [|discriminate].
        intro H. apply IH in H; lia.
    + destruct (Nat.ltb _ _); [discriminate|].
      intro H. apply IH in H; lia.
Qed.

Lemma digits_length s : String.length (digits s) <= String.length s.
Proof.
  induction s as [|c s IH]; cbn [digits]; [lia|].
  destruct (Js.is_digit c); cbn [String.length]; lia.
Qed.

Lemma digits1_length s r :
  digits1 s = Some r -> String.length r < String.length s.
Proof.
  destruct s as [|c s]; [discriminate|]. cbn [digits1 String.length].
  destruct (Js.is_digit c); [|discriminate].
  intros [= <-]. pose proof (digits_length s). lia.
Qed.

Lemma after_length c s r :
  after c s = Some r -> S (String.length r) = String.length s.
Proof.
  destruct s as [|d s]; [discriminate|]. cbn [after].
  destruct (Ascii.eqb d c); [|discriminate]. now intros [= <-].
Qed.

Lemma fraction_length s r :
  fraction s = Some r -> String.length r <= String.length s.
Proof.
  unfold fraction. destruct (after "." s) as [s'|] eqn:A.
  - intro H. apply digits1_length in H. apply after_length in A. lia.
  - intros [= <-]. lia.
Qed.

Lemma exponent_length s r :
  exponent s = Some r -> String.length r <= String.length s.
Proof.
  unfold exponent. destruct s as [|c s]; [intros [= <-]; lia|].
  destruct (_ || _); [|intros [= <-]; lia].
  destruct s as [|sign s]; [discriminate|].
  destruct (_ || _); intro H; apply digits1_length in H;
    cbn [String.length] in *; lia.
Qed.

Lemma number_length s r :
  number s = Some r -> String.length r < String.length s.
Proof.
  unfold number.
  set (s1 := match after "-" s with Some s' => s' | None => s end).
  assert (L : String.length s1 <= String.length s).
  { subst s1. destruct (after "-" s) as [s'|] eqn:A; [|lia].
    apply after_length in A. lia. }
  clearbody s1. destruct s1 as [|c s']; [discriminate|].
  cbn [String.length] in L.
  destruct (Ascii.eqb c "0").
  - destruct (fraction s') as [r1|] eqn:F; [|discriminate].
    intro E. apply fraction_length in F. apply exponent_length in E. lia.
  - destruct (Js.is_digit c); [|discriminate].
    destruct (fraction (digits s')) as [r1|] eqn:F; [|discriminate].
    intro E. apply fraction_length in F. apply exponent_length in E.
    pose proof (digits_length s'). lia.
Qed.

Lemma literal_length word : forall s r,
  literal word s = Some r ->
  String.length r + String.length word = String.length s.
Proof.
  induction word as [|w word IH]; intros s r; cbn [literal].
  - intros [= <-]. cbn; lia.
  - destruct s as [|c s]; [discriminate|].
    destruct (Ascii.eqb w c); [|discriminate].
    intro H. apply IH in H. cbn [String.length]. lia.
Qed.

(** Each of the three readers takes a character at least. *)
Lemma readers_consume : forall fuel,
  (forall s r, value fuel s = Some r -> String.length r < String.length s)
  /\ (forall s r, elements fuel s = Some r ->
                  String.length r < String.length s)
  /\ (forall s r, members fuel s = Some r ->
                  String.length r < String.length s).
Proof.
  induction fuel as [|fuel (IHv & IHe & IHm)];
    [repeat split; intros s r; discriminate|].
  split; [|split]; intros s r.
  - cbn [value]. destruct s as [|c s0]; [discriminate|].
    cbn [String.length].
    destruct (Ascii.eqb c "{").
    { pose proof (skip_ws_length s0).
      destruct (after "}" (skip_ws s0)) as [r'|] eqn:A.
      - intros [= <-]. apply after_length in A. lia.
      - intro HH. apply IHm in HH. lia. }
    destruct (Ascii.eqb c "[").
    { pose proof (skip_ws_length s0).
      destruct (after "]" (skip_ws s0)) as [r'|] eqn:A.
      - intros [= <-]. apply after_length in A. lia.
      - intro HH. apply IHe in HH. lia. }
    destruct (Ascii.eqb c quote).
    { intro HH. apply (string_rest_length _ _ _ (le_n _)) in HH. lia. }
    destruct (Ascii.eqb c "t").
    { intro HH. apply literal_length in HH. cbn [String.length] in HH. lia. }
    destruct (Ascii.eqb c "f").
    { intro HH. apply literal_length in HH. cbn [String.length] in HH. lia. }
    destruct (Ascii.eqb c "n").
    { intro HH. apply literal_length in HH. cbn [String.length] in HH. lia. }
    intro HH. apply number_length in HH. cbn [String.length] in HH. lia.
  - cbn [elements]. pose proof (skip_ws_length s).
    destruct (value fuel (skip_ws s)) as [r1|] eqn:V; [|discriminate].
    apply IHv in V. pose proof (skip_ws_length r1).
    destruct (after "," (skip_ws r1)) as [r'|] eqn:A.
    + intro HH. apply IHe in HH. apply after_length in A. lia.
    + intro HH. apply after_length in HH. lia.
  - cbn [members]. pose proof (skip_ws_length s).
    destruct (after quote (skip_ws s)) as [r0|] eqn:A0; [|discriminate].
    apply after_length in A0.
    destruct (string_rest r0) as [r1|] eqn:S1; [|discriminate].
    apply (string_rest_length _ _ _ (le_n _)) in S1.
    pose proof (skip_ws_length r1).
    destruct (after ":" (skip_ws r1)) as [r2|] eqn:A2; [|discriminate].
    apply after_length in A2. pose proof (skip_ws_length r2).
    destruct (value fuel (skip_ws r2)) as [r3|] eqn:V; [|discriminate].
    apply IHv in V. pose proof (skip_ws_length r3).
    destruct (after "," (skip_ws r3)) as [r4|] eqn:A4.
    + intro HH. apply IHm in HH. apply after_length in A4. lia.
    + intro HH. apply after_length in HH. lia.
Qed.

(** With fuel above twice the length of the text, more fuel changes
    nothing. *)
Lemma readers_stable : forall fuel,
  (forall s g, 2 * String.length s < fuel -> fuel <= g ->
               value g s = value fuel s)
  /\ (forall s g, 2 * String.length s + 1 < fuel -> fuel <= g ->
                  elements g s = elements fuel s)
  /\ (forall s g, 2 * String.length s + 1 < fuel -> fuel <= g ->
                  members g s = members fuel s).
Proof.
  induction fuel as [|fuel (IHv & IHe & IHm)];
    [repeat split; intros; lia|].
  destruct (readers_consume fuel) as (Cv & _ & _).
  split; [|split]; intros s g Hs Hg;
    (destruct g as [|g]; [lia|]).
  - cbn [value]. destruct s as [|c s0]; [reflexivity|].
    cbn [String.length] in Hs. pose proof (skip_ws_length s0).
    destruct (Ascii.eqb c "{").
    { destruct (after "}" (skip_ws s0)); [reflexivity|].
      apply IHm; lia. }
    destruct (Ascii.eqb c "[").
    { destruct (after "]" (skip_ws s0)); [reflexivity|].
      apply IHe; lia. }
    reflexivity.
  - cbn [elements]. pose proof (skip_ws_length s).
    rewrite (IHv (skip_ws s) g) by lia.
    destruct (value fuel (skip_ws s)) as [r1|] eqn:V; [|reflexivity].
    apply Cv in V. pose proof (skip_ws_length r1).
    destruct (after "," (skip_ws r1)) as [r'|] eqn:A; [|reflexivity].
    apply after_length in A. apply IHe; lia.
  - cbn [members]. pose proof (skip_ws_length s).
    destruct (after quote (skip_ws s)) as [r0|] eqn:A0; [|reflexivity].
    apply after_length in A0.
    destruct (string_rest r0) as [r1|] eqn:S1; [|reflexivity].
    apply (string_rest_length _ _ _ (le_n _)) in S1.
    pose proof (skip_ws_length r1).
    destruct (after ":" (skip_ws r1)) as [r2|] eqn:A2; [|reflexivity].
    apply after_length in A2. pose proof (skip_ws_length r2).
    rewrite (IHv (skip_ws r2) g) by lia.
    destruct (value fuel (skip_ws r2)) as [r3|] eqn:V; [|reflexivity].
    apply Cv in V. pose proof (skip_ws_length r3).
    destruct (after "," (skip_ws r3)) as [r4|] eqn:A4; [|reflexivity].
    apply after_length in A4. apply IHm; lia.
Qed.

(** [parses] with any larger fuel answers the same. *)
Lemma parses_fuel text extra :
  value (2 * String.length text + 2 + extra) (skip_ws text)
  = value (2 * String.length text + 2) (skip_ws text).
Proof.
  pose proof (skip_ws_length text).
  apply (proj1 (readers_stable _)); lia.
Qed.

End JSONFacts.

Section PassThrough.

Import Chain Adapters.

Lemma hasContent_iff (response : Response.t) :
  hasContent response = true <->
  (Response.status response <> 200%Z
   \/ Headers.has (Response.headers response) "Content-Type" = true
   \/ Headers.has (Response.headers response) "Location" = true).
Proof.
  unfold hasContent. rewrite !orb_true_iff, negb_true_iff, Z.eqb_neq. tauto.
Qed.

(** C4, amended. Both adapters take the chain's reply as the reply to
    the host exactly when its status is not 200, or it has a
    Content-Type header, or it has a Location header. [toHono] then
    hands it to the host; [toKoa] writes it, which fails with the error
    of reading the body when the Content-Type names JSON and the body
    is missing or is not JSON text. Otherwise [toHono] calls the host's
    [next()] unless [passThrough] is set to false, and [toKoa] calls it
    only if [passThrough] is set to true: under its default options
    [toKoa] neither replies nor continues. *)
Theorem pass_through_heuristic :
  forall chain options env rq l chain' l' response,
    handle chain env rq [] l = Some (chain', l', Returned response) ->
    let otherwise (default : bool) :=
      if match passThrough options with Some b => b | None => default end
      then CalledNext else Nothing in
    (hasContent response = true <->
       (Response.status response <> 200%Z
        \/ Headers.has (Response.headers response) "Content-Type" = true
        \/ Headers.has (Response.headers response) "Location" = true))
    /\ toHono chain options env rq l
       = Some (chain', l',
               Returned (if hasContent response then Replied response
                         else otherwise true))
    /\ toKoa chain options env rq l
       = Some (chain', l',
               if hasContent response then
                 if Js.contains "application/json" (contentType response)
                 then
                   match Response.body response with
                   | Some text =>
                       if JSON.parses (dropBOM text)
                       then Returned (Replied response)
                       else Threw (JsError "SyntaxError" EmptyString)
                   | None => Threw (JsError "SyntaxError" EmptyString)
                   end
                 else Returned (Replied response)
               else Returned (otherwise false)).
Proof.
  intros chain options env rq l chain' l' response H otherwise.
  split; [apply hasContent_iff|].
  unfold toHono, toKoa, readError, otherwise; rewrite H.
  destruct (hasContent response).
  - split; [reflexivity|].
    destruct (Js.contains _ _); [|reflexivity].
    destruct (Response.body response) as [text|]; [|reflexivity].
    destruct (JSON.parses _); reflexivity.
  - destruct (passThrough options) as [[|]|]; split; reflexivity.
Qed.

(** A sole handler that sets a JSON body: both adapters reply with status
    200 and the JSON content type. *)
Lemma pass_through_heuristic_witness :
  let reply :=
    Response.mk 200 [("content-type", "application/json; charset=utf-8")]
                (Some "{}") in
  toHono Examples.json_chain defaultOptions Examples.env0 Examples.get_root []
  = Some (mk (middlewares Examples.json_chain) true,
          [Entered 0; Resumed 0], Returned (Replied reply))
  /\ toKoa Examples.json_chain defaultOptions Examples.env0 Examples.get_root []
     = Some (mk (middlewares Examples.json_chain) true,
             [Entered 0; Resumed 0], Returned (Replied reply)).
Proof.
  exact (proj2 (pass_through_heuristic Examples.json_chain defaultOptions
                  Examples.env0 Examples.get_root [] _ _ _ eq_refl)).
Defined.

(** C4 as written fails for [toKoa]: on a reply without content its
    default is to do nothing, not to call the host's [next()]. *)
Lemma koa_default_does_not_continue : ~ AsStated.every_adapter_passes_through.
Proof.
  intros [_ H].
  specialize (H Examples.idle_chain Examples.env0 Examples.get_root []
                (mk (middlewares Examples.idle_chain) true)
                [Entered 0; Resumed 0]
                (Response.mk 200 [] None) eq_refl).
  vm_compute in H. discriminate H.
Qed.

End PassThrough.

(* ================================================================== *)
(** ** The patterns of [isValidIP] *)
(* ================================================================== *)

(** The derivative matcher agrees with the denotation of the patterns, and
    a pattern of separated groups is a condition on [split]. *)
Module RegexFacts.

Import Js Derivation.

Lemma append_empty (a b : string) :
  (a ++ b)%string = EmptyString -> a = EmptyString /\ b = EmptyString.
Proof. destruct a; simpl; [auto | discriminate]. Qed.

Lemma nullable_lang r : nullable r = true <-> lang r EmptyString.
Proof.
  split.
  - induction r as [| |p|r1 IH1 r2 IH2|r1 IH1 r2 IH2]; simpl; intro H;
      try discriminate.
    + constructor.
    + apply andb_prop in H as [H1 H2].
      change EmptyString with (EmptyString ++ EmptyString)%string.
      constructor; auto.
    + apply orb_prop in H as [H|H]; [apply lang_alt_l | apply lang_alt_r]; auto.
  - intro H. remember EmptyString as e eqn:E.
    induction H as [|p c Hp|r1 r2 s1 s2 _ IH1 _ IH2|r1 r2 s _ IH|r1 r2 s _ IH];
      simpl; try discriminate; auto.
    + apply append_empty in E as [-> ->]. now rewrite IH1, IH2.
    + now rewrite IH.
    + rewrite IH by assumption. apply orb_true_r.
Qed.

Lemma lang_eps_inv s : lang Eps s -> s = EmptyString.
Proof. intro H; now inversion H. Qed.

Lemma lang_class_inv p s :
  lang (Class p) s -> exists c, s = String c EmptyString /\ p c = true.
Proof. intro H; inversion H; eauto. Qed.

Lemma lang_seq_inv r1 r2 s :
  lang (Seq r1 r2) s ->
  exists s1 s2, s = (s1 ++ s2)%string /\ lang r1 s1 /\ lang r2 s2.
Proof. intro H; inversion H; eauto. Qed.

Lemma lang_alt_inv r1 r2 s : lang (Alt r1 r2) s -> lang r1 s \/ lang r2 s.
Proof. intro H; inversion H; auto. Qed.

Lemma deriv_lang c r : forall s, lang (deriv c r) s <-> lang r (String c s).
Proof.
  induction r as [| |p|r1 IH1 r2 IH2|r1 IH1 r2 IH2]; intro s; simpl.
  - split; intro H; inversion H.
  - split; intro H; inversion H.
  - destruct (p c) eqn:P; split; intro H.
    + apply lang_eps_inv in H as ->. now constructor.
    + apply lang_class_inv in H as (d & E & _). injection E as _ ->. constructor.
    + inversion H.
    + apply lang_class_inv in H as (d & E & Hd). injection E as -> _. congruence.
  - assert (Hl : lang (Seq (deriv c r1) r2) s -> lang (Seq r1 r2) (String c s)).
    { intro H. apply lang_seq_inv in H as (s1 & s2 & -> & H1 & H2).
      change (String c (s1 ++ s2)%string) with (String c s1 ++ s2)%string.
      constructor; [now apply IH1 | assumption]. }
    assert (Hr : lang (Seq r1 r2) (String c s) ->
                 lang (Seq (deriv c r1) r2) s
                 \/ (nullable r1 = true /\ lang (deriv c r2) s)).
    { intro H. apply lang_seq_inv in H as (s1 & s2 & E & H1 & H2).
      destruct s1 as [|d s1]; simpl in E.
      - right; split; [now apply nullable_lang|]. subst s2. now apply IH2.
      - injection E as <- ->. left. constructor; [now apply IH1 | assumption]. }
    destruct (nullable r1) eqn:N; split; intro H.
    + apply lang_alt_inv in H as [H|H]; [now apply Hl|].
      change (String c s) with (EmptyString ++ String c s)%string.
      constructor; [now apply nullable_lang | now apply IH2].
    + destruct (Hr H) as [H'|[_ H']]; [now apply lang_alt_l | now apply lang_alt_r].
    + now apply Hl.
    + destruct (Hr H) as [H'|[N' _]]; [assumption | congruence].
  - split; intro H; apply lang_alt_inv in H as [H|H].
    + apply lang_alt_l; now apply IH1.
    + apply lang_alt_r; now apply IH2.
    + apply lang_alt_l; now apply IH1.
    + apply lang_alt_r; now apply IH2.
Qed.

Lemma full_match_lang s : forall r, full_match r s = true <-> lang r s.
Proof.
  induction s as [|c s IH]; intro r; simpl.
  - apply nullable_lang.
  - rewrite IH. apply deriv_lang.
Qed.


(** Strings of characters of one class. *)
Lemma all_chars_app p a b :
  IpSyntax.all_chars p (a ++ b)%string
  = IpSyntax.all_chars p a && IpSyntax.all_chars p b.
Proof.
  unfold IpSyntax.all_chars.
  induction a as [|c a IH]; simpl; [reflexivity|].
  now rewrite IH, andb_assoc.
Qed.

Lemma length_app_string (a b : string) :
  String.length (a ++ b)%string = String.length a + String.length b.
Proof. induction a; simpl; auto. Qed.

Lemma lang_times_class p n : forall s,
  lang (times n (Class p)) s <->
  String.length s = n /\ IpSyntax.all_chars p s = true.
Proof.
  induction n as [|n IH]; intro s; simpl; split.
  - intro H; apply lang_eps_inv in H as ->; auto.
  - intros [L _]; destruct s; [constructor | discriminate].
  - intro H; apply lang_seq_inv in H as (s1 & s2 & -> & H1 & H2).
    apply lang_class_inv in H1 as (c & -> & Hc). apply IH in H2 as [L A].
    simpl; split; [now rewrite L|].
    unfold IpSyntax.all_chars in *; simpl. now rewrite Hc, A.
  - intros [L A]; destruct s as [|c s]; [discriminate|].
    unfold IpSyntax.all_chars in A; simpl in A. apply andb_prop in A as [Hc A].
    change (String c s) with (String c EmptyString ++ s)%string.
    constructor; [now constructor|]. apply IH; split; [now injection L | exact A].
Qed.

Lemma lang_upto_class p n : forall s,
  lang (upto n (Class p)) s <->
  String.length s <= n /\ IpSyntax.all_chars p s = true.
Proof.
  induction n as [|n IH]; intro s; simpl; split.
  - intro H; apply lang_eps_inv in H as ->; auto.
  - intros [L _]; destruct s; [constructor | simpl in L; lia].
  - intro H; apply lang_alt_inv in H as [H|H].
    + apply lang_eps_inv in H as ->; split; [simpl; lia | reflexivity].
    + apply lang_seq_inv in H as (s1 & s2 & -> & H1 & H2).
      apply lang_class_inv in H1 as (c & -> & Hc). apply IH in H2 as [L A].
      simpl; split; [lia|].
      unfold IpSyntax.all_chars in *; simpl. now rewrite Hc, A.
  - intros [L A]; destruct s as [|c s]; [apply lang_alt_l; constructor|].
    apply lang_alt_r.
    unfold IpSyntax.all_chars in A; simpl in A. apply andb_prop in A as [Hc A].
    change (String c s) with (String c EmptyString ++ s)%string.
    constructor; [now constructor|]. apply IH; split; [simpl in L; lia | exact A].
Qed.

Lemma firstn_skipn_string n : forall s,
  n <= String.length s ->
  exists a b, s = (a ++ b)%string /\ String.length a = n.
Proof.
  induction n as [|n IH]; intros s L.
  - exists EmptyString, s; auto.
  - destruct s as [|c s]; [simpl in L; lia|].
    destruct (IH s) as (a & b & -> & La); [simpl in L; lia|].
    exists (String c a), b; simpl; auto.
Qed.

Lemma lang_between_class p lo hi s :
  lo <= hi ->
  (lang (between lo hi (Class p)) s <-> run p lo hi s = true).
Proof.
  intro Hle. unfold between, run. split.
  - intro H; apply lang_seq_inv in H as (s1 & s2 & -> & H1 & H2).
    apply lang_times_class in H1 as [L1 A1].
    apply lang_upto_class in H2 as [L2 A2].
    rewrite length_app_string, all_chars_app, A1, A2.
    rewrite !andb_true_r. apply andb_true_intro; split; apply Nat.leb_le; lia.
  - intro H. apply andb_prop in H as [H A]. apply andb_prop in H as [L1 L2].
    apply Nat.leb_le in L1, L2.
    destruct (firstn_skipn_string lo s L1) as (a & b & -> & La).
    rewrite all_chars_app in A. apply andb_prop in A as [Aa Ab].
    rewrite length_app_string in L2.
    constructor; [apply lang_times_class; auto|].
    apply lang_upto_class; split; [lia | exact Ab].
Qed.


Section Groups.

Variable p : ascii -> bool.
Variable sep : ascii.
Variables a b : nat.
Hypothesis sep_out : p sep = false.
Hypothesis a_le_b : a <= b.

Let G : regex := Seq (between a b (Class p)) (chr sep).

Lemma lang_chr c s : lang (chr c) s <-> s = String c EmptyString.
Proof.
  unfold chr; split.
  - intro H; apply lang_class_inv in H as (d & -> & E).
    apply Ascii.eqb_eq in E; now subst.
  - intros ->; constructor; apply Ascii.eqb_refl.
Qed.

Lemma lang_group x :
  lang G x <->
  exists g, run p a b g = true /\ x = (g ++ String sep EmptyString)%string.
Proof.
  unfold G; split.
  - intro H; apply lang_seq_inv in H as (s1 & s2 & -> & H1 & H2).
    apply lang_between_class in H1; [|exact a_le_b].
    apply lang_chr in H2 as ->. eauto.
  - intros (g & R & ->). constructor; [now apply lang_between_class|].
    now apply lang_chr.
Qed.

Lemma append_assoc_string (x y z : string) :
  ((x ++ y) ++ z)%string = (x ++ (y ++ z))%string.
Proof. induction x; simpl; congruence. Qed.

Lemma lang_times_groups n : forall s,
  lang (times n G) s <->
  exists gs, List.length gs = n /\ forallb (run p a b) gs = true
             /\ s = joined sep gs.
Proof.
  induction n as [|n IH]; intro s; simpl; split.
  - intro H; apply lang_eps_inv in H as ->. exists []; auto.
  - intros (gs & L & _ & ->). destruct gs; [constructor | discriminate].
  - intro H; apply lang_seq_inv in H as (s1 & s2 & -> & H1 & H2).
    apply lang_group in H1 as (g & R & ->).
    apply IH in H2 as (gs & L & F & ->).
    exists (g :: gs); simpl. rewrite R, F, L, append_assoc_string. auto.
  - intros (gs & L & F & ->). destruct gs as [|g gs]; [discriminate|].
    simpl in F; apply andb_prop in F as [R F]. simpl.
    change (g ++ String sep (joined sep gs))%string
      with (g ++ (String sep EmptyString ++ joined sep gs))%string.
    rewrite <- append_assoc_string.
    constructor; [apply lang_group; eauto|].
    apply IH. exists gs; repeat split; auto.
Qed.

Lemma lang_upto_groups n : forall s,
  lang (upto n G) s <->
  exists gs, List.length gs <= n /\ forallb (run p a b) gs = true
             /\ s = joined sep gs.
Proof.
  induction n as [|n IH]; intro s; simpl; split.
  - intro H; apply lang_eps_inv in H as ->. exists []; auto.
  - intros (gs & L & _ & ->). destruct gs; [constructor | simpl in L; lia].
  - intro H; apply lang_alt_inv in H as [H|H].
    + apply lang_eps_inv in H as ->. exists []; simpl; repeat split; lia.
    + apply lang_seq_inv in H as (s1 & s2 & -> & H1 & H2).
      apply lang_group in H1 as (g & R & ->).
      apply IH in H2 as (gs & L & F & ->).
      exists (g :: gs); simpl. rewrite R, F, append_assoc_string.
      repeat split; auto; lia.
  - intros (gs & L & F & ->). destruct gs as [|g gs];
      [apply lang_alt_l; constructor|].
    apply lang_alt_r.
    simpl in F; apply andb_prop in F as [R F]. simpl.
    change (g ++ String sep (joined sep gs))%string
      with (g ++ (String sep EmptyString ++ joined sep gs))%string.
    rewrite <- append_assoc_string.
    constructor; [apply lang_group; eauto|].
    apply IH. exists gs; repeat split; auto. simpl in L; lia.
Qed.

Lemma joined_app gs1 gs2 :
  joined sep (gs1 ++ gs2) = (joined sep gs1 ++ joined sep gs2)%string.
Proof.
  induction gs1 as [|g gs1 IH]; simpl; [reflexivity|].
  now rewrite IH, append_assoc_string.
Qed.

Lemma lang_between_groups lo hi s :
  lo <= hi ->
  (lang (between lo hi G) s <->
   exists gs, (Nat.leb lo (List.length gs) && Nat.leb (List.length gs) hi) = true
              /\ forallb (run p a b) gs = true /\ s = joined sep gs).
Proof.
  intro Hle; unfold between; split.
  - intro H; apply lang_seq_inv in H as (s1 & s2 & -> & H1 & H2).
    apply lang_times_groups in H1 as (g1 & L1 & F1 & ->).
    apply lang_upto_groups in H2 as (g2 & L2 & F2 & ->).
    exists (g1 ++ g2). rewrite forallb_app, F1, F2, joined_app, length_app.
    repeat split. apply andb_true_intro; split; apply Nat.leb_le; lia.
  - intros (gs & L & F & ->). apply andb_prop in L as [L1 L2].
    apply Nat.leb_le in L1, L2.
    rewrite <- (firstn_skipn lo gs) in F |- *.
    rewrite forallb_app in F. apply andb_prop in F as [F1 F2].
    rewrite joined_app. constructor.
    + apply lang_times_groups. exists (firstn lo gs); repeat split; auto.
      rewrite length_firstn; lia.
    + apply lang_upto_groups. exists (skipn lo gs); repeat split; auto.
      rewrite length_skipn; lia.
Qed.

Lemma includes_app c x y :
  includes c (x ++ y)%string = includes c x || includes c y.
Proof. induction x as [|d x IH]; simpl; [reflexivity|]. now rewrite IH, orb_assoc. Qed.

Lemma run_sepfree lo hi g : run p lo hi g = true -> includes sep g = false.
Proof.
  unfold run; intro H. apply andb_prop in H as [_ A]. revert A.
  unfold IpSyntax.all_chars.
  induction g as [|c g IH]; simpl; [reflexivity|].
  intro A; apply andb_prop in A as [Hc A]. rewrite (IH A), orb_false_r.
  apply Ascii.eqb_neq. intros ->. congruence.
Qed.

Lemma split_sepfree t : includes sep t = false -> split sep t = [t].
Proof.
  induction t as [|c t IH]; simpl; [reflexivity|].
  intro H; apply orb_false_elim in H as [Hc Ht].
  rewrite Hc, (IH Ht). reflexivity.
Qed.

Lemma split_group g rest :
  includes sep g = false ->
  split sep (g ++ String sep rest)%string = g :: split sep rest.
Proof.
  induction g as [|c g IH]; simpl.
  - intros _. now rewrite Ascii.eqb_refl.
  - intro H; apply orb_false_elim in H as [Hc Hg].
    rewrite Hc, (IH Hg). reflexivity.
Qed.

Lemma split_joined gs t :
  forallb (run p a b) gs = true -> includes sep t = false ->
  split sep (joined sep gs ++ t)%string = gs ++ [t].
Proof.
  intros F T. induction gs as [|g gs IH]; simpl.
  - now apply split_sepfree.
  - simpl in F; apply andb_prop in F as [R F].
    rewrite append_assoc_string. simpl.
    rewrite split_group by (eapply run_sepfree; exact R).
    now rewrite IH.
Qed.

Lemma split_decompose s :
  exists gs t, split sep s = gs ++ [t] /\ s = (joined sep gs ++ t)%string.
Proof.
  induction s as [|c s (gs & t & E & J)]; simpl.
  - exists [], EmptyString; auto.
  - destruct (Ascii.eqb c sep) eqn:C.
    + apply Ascii.eqb_eq in C; subst c.
      exists (EmptyString :: gs), t. rewrite E; simpl. now rewrite <- J.
    + rewrite E. destruct gs as [|g gs]; simpl in *.
      * exists [], (String c t). now rewrite J.
      * exists (String c g :: gs), t. simpl. now rewrite J.
Qed.

(** A pattern made of groups and one last run, against [split]. *)
Lemma groups_then_run (R : regex) (count : nat -> bool) :
  (forall s, lang R s <->
     exists gs, count (List.length gs) = true
                /\ forallb (run p a b) gs = true /\ s = joined sep gs) ->
  forall s,
    full_match (Seq R (between a b (Class p))) s
    = count (List.length (split sep s) - 1)
      && forallb (run p a b) (split sep s).
Proof.
  intros HR s. apply eq_true_iff_eq. rewrite full_match_lang. split.
  - intro H; apply lang_seq_inv in H as (s1 & s2 & -> & H1 & H2).
    apply HR in H1 as (gs & C & F & ->).
    apply lang_between_class in H2; [|exact a_le_b].
    rewrite (split_joined gs s2 F (run_sepfree _ _ _ H2)).
    rewrite length_app, forallb_app, F, Nat.add_sub; simpl.
    now rewrite C, H2.
  - intro H. destruct (split_decompose s) as (gs & t & E & ->).
    rewrite E in H. rewrite length_app, forallb_app, Nat.add_sub in H. simpl in H.
    apply andb_prop in H as [C F]. apply andb_prop in F as [F T].
    rewrite andb_true_r in T.
    constructor; [apply HR; eauto | now apply lang_between_class].
Qed.

End Groups.

End RegexFacts.

Module IpFacts.

Import Js Context Derivation RegexFacts.

Lemma split_nonempty sep s : 1 <= List.length (split sep s).
Proof.
  destruct (split_decompose sep s) as (gs & t & -> & _).
  rewrite length_app; simpl; lia.
Qed.

Lemma digit_not_dot : is_digit "." = false.
Proof. reflexivity. Qed.

Lemma hex_not_colon : is_hex ":" = false.
Proof. reflexivity. Qed.

(** [/^(\d{1,3}\.){3}\d{1,3}$/]: four dot-separated runs of one to three
    digits. *)
Lemma ipv4_pattern_split s :
  full_match ipv4_pattern s
  = Nat.eqb (List.length (split "." s)) 4
    && forallb (run is_digit 1 3) (split "." s).
Proof.
  unfold ipv4_pattern, digit.
  rewrite (groups_then_run is_digit "." 1 3 digit_not_dot ltac:(lia)
             _ (fun n => Nat.eqb n 3)).
  - f_equal. pose proof (split_nonempty "." s).
    destruct (List.length (split "." s)) as [|n]; [lia|].
    simpl. now rewrite Nat.sub_0_r.
  - intro x. rewrite (lang_times_groups is_digit "." 1 3 ltac:(lia)).
    split; intros (gs & L & rest); exists gs; split; auto.
    + now apply Nat.eqb_eq.
    + now apply Nat.eqb_eq in L.
Qed.

(** [/^([0-9a-fA-F]{0,4}:){2,7}[0-9a-fA-F]{0,4}$/]: three to eight
    colon-separated runs of at most four hexadecimal digits. *)
Lemma ipv6_pattern_split s : full_match ipv6_pattern s = colon_groups s.
Proof.
  unfold ipv6_pattern, hex, colon_groups.
  rewrite (groups_then_run is_hex ":" 0 4 hex_not_colon ltac:(lia)
             _ (fun n => Nat.leb 2 n && Nat.leb n 7)).
  - f_equal.
    pose proof (split_nonempty ":" s).
    destruct (List.length (split ":" s)) as [|n]; [lia|].
    simpl. now rewrite Nat.sub_0_r.
  - intro x. apply (lang_between_groups is_hex ":" 0 4 ltac:(lia) 2 7); lia.
Qed.


Lemma digit_parse c s :
  is_digit c = true -> parseInt10 (String c s) = leading_digits None (String c s).
Proof.
  destruct c as [[] [] [] [] [] [] [] []]; intro H;
    try discriminate H; reflexivity.
Qed.

Lemma digit_value_nonneg c : (0 <= digit_value c)%Z.
Proof. apply Nat2Z.is_nonneg. Qed.

Lemma leading_digits_some s : forall v,
  (0 <= v)%Z -> exists w, leading_digits (Some v) s = Some w /\ (0 <= w)%Z.
Proof.
  induction s as [|c s IH]; intros v Hv; cbn [leading_digits]; [eauto|].
  destruct (is_digit c); [|eauto].
  apply IH. pose proof (digit_value_nonneg c). lia.
Qed.

Lemma parse_digits g :
  run is_digit 1 3 g = true ->
  exists v, parseInt10 g = Some v /\ (0 <= v)%Z.
Proof.
  unfold run; intro H. apply andb_prop in H as [L A].
  apply andb_prop in L as [L _]. destruct g as [|c g]; [discriminate|].
  unfold IpSyntax.all_chars in A; simpl in A. apply andb_prop in A as [Hc _].
  rewrite (digit_parse c g Hc).
  change (leading_digits None (String c g))
    with (if is_digit c
          then leading_digits (Some (10 * 0 + digit_value c)%Z) g else None).
  rewrite Hc. apply leading_digits_some.
  pose proof (digit_value_nonneg c). lia.
Qed.

Lemma dec_octet_run g :
  IpSyntax.dec_octet g = run is_digit 1 3 g && octet_ok g.
Proof.
  unfold IpSyntax.dec_octet. fold (run is_digit 1 3 g).
  destruct (run is_digit 1 3 g) eqn:R; [|reflexivity]. simpl.
  destruct (parse_digits g R) as (v & E & Hv). unfold octet_ok. rewrite E.
  replace (0 <=? v)%Z with true by (symmetry; now apply Z.leb_le).
  reflexivity.
Qed.

Lemma forallb_and {A} (f g : A -> bool) l :
  forallb (fun x => f x && g x) l = forallb f l && forallb g l.
Proof.
  induction l as [|x l IH]; simpl; [reflexivity|].
  rewrite IH. destruct (f x), (g x), (forallb f l); reflexivity.
Qed.

Lemma ipv4_as_forallb s :
  IpSyntax.ipv4 s
  = Nat.eqb (List.length (split "." s)) 4
    && (forallb (run is_digit 1 3) (split "." s)
        && forallb octet_ok (split "." s)).
Proof.
  rewrite <- forallb_and. unfold IpSyntax.ipv4.
  destruct (split "." s) as [|x1 [|x2 [|x3 [|x4 [|x5 l]]]]]; try reflexivity.
  simpl. rewrite !dec_octet_run, andb_true_r.
  now rewrite !andb_assoc.
Qed.

(** The characters of the parts of a string are those of the string. *)
Lemma parts_chars q sep s :
  forallb (IpSyntax.all_chars q) (split sep s) = true ->
  IpSyntax.all_chars (fun c => q c || Ascii.eqb c sep) s = true.
Proof.
  destruct (split_decompose sep s) as (gs & t & -> & ->).
  rewrite forallb_app; simpl. rewrite andb_true_r.
  intro H; apply andb_prop in H as [G T].
  rewrite all_chars_app. apply andb_true_intro; split.
  - clear T. induction gs as [|g gs IH]; [reflexivity|].
    simpl in G; apply andb_prop in G as [Hg G]. simpl.
    rewrite all_chars_app. apply andb_true_intro; split.
    + revert Hg. unfold IpSyntax.all_chars.
      induction g as [|c g IHg]; simpl; [reflexivity|].
      intro H; apply andb_prop in H as [Hc H]. now rewrite Hc, IHg.
    + unfold IpSyntax.all_chars; simpl.
      rewrite Ascii.eqb_refl, orb_true_r. now apply IH.
  - revert T. unfold IpSyntax.all_chars.
    induction t as [|c t IHt]; simpl; [reflexivity|].
    intro H; apply andb_prop in H as [Hc H]. now rewrite Hc, IHt.
Qed.

Lemma chars_exclude q c s :
  IpSyntax.all_chars q s = true -> q c = false -> includes c s = false.
Proof.
  unfold IpSyntax.all_chars. intros A Hc.
  induction s as [|d s IH]; simpl in *; [reflexivity|].
  apply andb_prop in A as [Hd A]. rewrite (IH A), orb_false_r.
  apply Ascii.eqb_neq. intros ->. congruence.
Qed.

Lemma run_chars q lo hi g : run q lo hi g = true -> IpSyntax.all_chars q g = true.
Proof. unfold run; intro H; now apply andb_prop in H as [_ A]. Qed.

Lemma forallb_impl {A} (f g : A -> bool) l :
  (forall x, f x = true -> g x = true) ->
  forallb f l = true -> forallb g l = true.
Proof.
  intro H; induction l as [|x l IH]; simpl; [reflexivity|].
  intro F; apply andb_prop in F as [Fx F]. now rewrite (H x Fx), IH.
Qed.

Lemma no_colon_no_groups s : includes ":" s = false -> colon_groups s = false.
Proof.
  intro H. unfold colon_groups. now rewrite (split_sepfree ":" s H).
Qed.

Lemma dotted_has_no_colon s :
  forallb (run is_digit 1 3) (split "." s) = true -> includes ":" s = false.
Proof.
  intro F. apply (chars_exclude (fun c => is_digit c || Ascii.eqb c ".")).
  - apply parts_chars. revert F. apply forallb_impl. intro x; apply run_chars.
  - reflexivity.
Qed.

Lemma exact_match r s t :
  (forall x, lang r x -> x = t) -> full_match r s = true -> s = t.
Proof. intros H M. apply H. now apply full_match_lang. Qed.

Lemma loopback_only x : lang loopback_pattern x -> x = "::1".
Proof.
  unfold loopback_pattern. intro H.
  apply lang_seq_inv in H as (s1 & s2 & -> & H1 & H2).
  apply lang_seq_inv in H2 as (s3 & s4 & -> & H3 & H4).
  apply lang_chr in H1, H3, H4. now subst.
Qed.

Lemma unspecified_only x : lang unspecified_pattern x -> x = "::".
Proof.
  unfold unspecified_pattern. intro H.
  apply lang_seq_inv in H as (s1 & s2 & -> & H1 & H2).
  apply lang_chr in H1, H2. now subst.
Qed.

(** What [isValidIP] accepts: the dotted quads of decimal octets, and the
    strings of three to eight colon-separated groups of at most four
    hexadecimal digits. *)
Lemma isValidIP_spec ip :
  isValidIP ip = IpSyntax.ipv4 ip || colon_groups ip.
Proof.
  unfold isValidIP. rewrite ipv4_as_forallb, ipv4_pattern_split.
  destruct (Nat.eqb (List.length (split "." ip)) 4) eqn:L; simpl.
  - destruct (forallb (run is_digit 1 3) (split "." ip)) eqn:F; simpl.
    + rewrite (no_colon_no_groups ip (dotted_has_no_colon ip F)).
      now rewrite orb_false_r.
    + destruct (includes ":" ip) eqn:C; [|now rewrite no_colon_no_groups].
      rewrite ipv6_pattern_split.
      destruct (colon_groups ip) eqn:G; [reflexivity|]. simpl.
      destruct (full_match loopback_pattern ip) eqn:M1.
      { apply (exact_match _ _ _ loopback_only) in M1. subst ip. discriminate G. }
      destruct (full_match unspecified_pattern ip) eqn:M2; [|reflexivity].
      apply (exact_match _ _ _ unspecified_only) in M2. subst ip. discriminate G.
  - destruct (includes ":" ip) eqn:C; [|now rewrite no_colon_no_groups].
    rewrite ipv6_pattern_split.
    destruct (colon_groups ip) eqn:G; [reflexivity|]. simpl.
    destruct (full_match loopback_pattern ip) eqn:M1.
    { apply (exact_match _ _ _ loopback_only) in M1. subst ip. discriminate G. }
    destruct (full_match unspecified_pattern ip) eqn:M2; [|reflexivity].
    apply (exact_match _ _ _ unspecified_only) in M2. subst ip. discriminate G.
Qed.

End IpFacts.

Section ClientIp.

Import Context Derivation.

Lemma first_entry_empty : first_entry EmptyString = EmptyString.
Proof. reflexivity. Qed.

Lemma truthy_false (s : string) : Js.truthy s = false -> s = EmptyString.
Proof. destruct s; [reflexivity | discriminate]. Qed.

Lemma truthy_true (s : string) : Js.truthy s = true -> s <> EmptyString.
Proof. destruct s; [discriminate | intros _ H; discriminate H]. Qed.

(** One round of the loop that gives nothing. *)
Lemma rejected_of_round headers name :
  match Headers.get headers name with
  | Some value =>
      if Js.truthy value
      then Js.truthy (first_entry value) && isValidIP (first_entry value)
      else false
  | None => false
  end = false ->
  rejected headers name.
Proof.
  intros H value E. rewrite E in H. unfold simple_check.
  rewrite <- IpFacts.isValidIP_spec.
  destruct (Js.truthy value) eqn:T.
  - apply andb_false_iff in H as [H|H]; [left; now apply truthy_false | now right].
  - apply truthy_false in T; subst value. left; reflexivity.
Qed.

Lemma scanHeaders_some headers names : forall addr,
  scanHeaders headers names = Some addr ->
  exists skipped header later value,
    names = skipped ++ header :: later
    /\ Forall (rejected headers) skipped
    /\ Headers.get headers header = Some value
    /\ addr = first_entry value
    /\ addr <> EmptyString
    /\ simple_check addr = true.
Proof.
  unfold simple_check.
  induction names as [|name names IH]; intros addr; simpl; [discriminate|].
  destruct (Headers.get headers name) as [value|] eqn:G.
  - destruct (Js.truthy value) eqn:T.
    + destruct (Js.truthy (first_entry value) && isValidIP (first_entry value))
        eqn:A.
      * intros [= <-]. apply andb_prop in A as [A1 A2].
        rewrite IpFacts.isValidIP_spec in A2.
        exists [], name, names, value. repeat split; auto.
        now apply truthy_true.
      * intro H; destruct (IH _ H) as (sk & h & la & v & -> & F & rest).
        exists (name :: sk), h, la, v. split; [reflexivity|]. split; [|exact rest].
        constructor; [|exact F]. apply rejected_of_round. now rewrite G, T.
    + intro H; destruct (IH _ H) as (sk & h & la & v & -> & F & rest).
      exists (name :: sk), h, la, v. split; [reflexivity|]. split; [|exact rest].
      constructor; [|exact F]. apply rejected_of_round. now rewrite G, T.
  - intro H; destruct (IH _ H) as (sk & h & la & v & -> & F & rest).
    exists (name :: sk), h, la, v. split; [reflexivity|]. split; [|exact rest].
    constructor; [|exact F]. apply rejected_of_round. now rewrite G.
Qed.

Lemma scanHeaders_none headers names :
  scanHeaders headers names = None -> Forall (rejected headers) names.
Proof.
  induction names as [|name names IH]; simpl; [constructor|].
  destruct (Headers.get headers name) as [value|] eqn:G.
  - destruct (Js.truthy value) eqn:T.
    + destruct (Js.truthy (first_entry value) && isValidIP (first_entry value))
        eqn:A; [discriminate|].
      intro H; constructor; [|now apply IH].
      apply rejected_of_round. now rewrite G, T.
    + intro H; constructor; [|now apply IH].
      apply rejected_of_round. now rewrite G, T.
  - intro H; constructor; [|now apply IH].
    apply rejected_of_round. now rewrite G.
Qed.

Lemma scanHeaders_absent headers names :
  (forall name, In name names -> Headers.get headers name = None) ->
  scanHeaders headers names = None.
Proof.
  induction names as [|name names IH]; intro H; simpl; [reflexivity|].
  rewrite (H name (or_introl eq_refl)). apply IH.
  intros n Hn; apply H; now right.
Qed.

(** C8, amended. [meta.ip] comes from the five proxy headers in their
    fixed order: it is the trimmed first comma-separated entry of the
    first header whose entry is non-empty and passes the simplified check
    (a dotted quad of decimal octets, or three to eight colon-separated
    groups of at most four hexadecimal digits, which is not full IPv6
    syntax), every header before it having given nothing; it is absent
    when all five give nothing. With
    [x-forwarded-for: 203.0.113.5, 10.0.0.1] and neither
    [cf-connecting-ip] nor [x-real-ip], it is [203.0.113.5]; with none of
    the five headers it is absent. *)
Theorem client_ip_derivation :
  forall env request st,
    let headers := Request.headers request in
    let found := ip (meta (createContext env request st)) in
    (forall addr,
       found = Some addr ->
       exists skipped header later value,
         ipHeaders = skipped ++ header :: later
         /\ Forall (rejected headers) skipped
         /\ Headers.get headers header = Some value
         /\ addr = first_entry value
         /\ addr <> EmptyString
         /\ (IpSyntax.ipv4 addr = true \/ colon_groups addr = true))
    /\ (found = None -> Forall (rejected headers) ipHeaders)
    /\ (Headers.get headers "cf-connecting-ip" = None ->
        Headers.get headers "x-real-ip" = None ->
        Headers.get headers "x-forwarded-for" = Some "203.0.113.5, 10.0.0.1" ->
        found = Some "203.0.113.5")
    /\ ((forall name, In name ipHeaders -> Headers.get headers name = None) ->
        found = None).
Proof.
  intros env request st headers found.
  unfold found.
  change (ip (meta (createContext env request st)))
    with (scanHeaders headers ipHeaders).
  split; [|split; [|split]].
  - intros addr H.
    destruct (scanHeaders_some _ _ _ H) as (sk & h & la & v & E & F & G & A & N & C).
    exists sk, h, la, v. repeat split; auto. now apply orb_prop.
  - apply scanHeaders_none.
  - intros H1 H2 H3. unfold ipHeaders. cbn [scanHeaders].
    rewrite H1, H2, H3. reflexivity.
  - apply scanHeaders_absent.
Qed.

(** C8 as written fails: [1:2:3] is no IPv6 address, yet it passes the
    simplified check and becomes [meta.ip]. *)
Lemma short_groups_accepted : ~ AsStated.accepts_only_valid_addresses.
Proof.
  intro H.
  specialize (H Examples.env0 Examples.short_groups [] "1:2:3" eq_refl).
  vm_compute in H. discriminate H.
Qed.

End ClientIp.

Section ClientIpExample.

Import Context.

(** The specification's example request, through the theorem. *)
Lemma client_ip_derivation_witness :
  ip (meta (createContext Examples.env0 Examples.forwarded []))
  = Some "203.0.113.5".
Proof.
  exact (proj1 (proj2 (proj2
           (client_ip_derivation Examples.env0 Examples.forwarded [])))
           eq_refl eq_refl eq_refl).
Defined.

End ClientIpExample.

Section CorrelationId.

Import Context Derivation.

(** A generated identifier has the 36 characters of a UUID. *)
Lemma generateUUID_length env : String.length (Uuid.generateUUID env) = 36.
Proof.
  unfold Uuid.generateUUID, Uuid.crypto_randomUUID.
  destruct (nativeRandomUUID env); reflexivity.
Qed.

Lemma or_else_blank (a : option string) (b : option string) :
  a = None \/ a = Some EmptyString -> Js.or_else a b = b.
Proof. intros [-> | ->]; reflexivity. Qed.

Lemma or_else_filled v (b : option string) :
  v <> EmptyString -> Js.or_else (Some v) b = Some v.
Proof. destruct v; [congruence | reflexivity]. Qed.

(** C9, amended. [meta.id] is the value of the first of [x-request-id],
    [x-correlation-id], [request-id] that is present with a non-empty
    value; a header holding the empty string is passed over like an absent
    one. When none of the three has a non-empty value, [meta.id] is the
    generated identifier, which has 36 characters. A request carrying
    [x-request-id: abc-123] gets [meta.id = abc-123]. *)
Theorem correlation_id_derivation :
  forall env request st,
    let headers := Request.headers request in
    let meta_id := id (meta (createContext env request st)) in
    (forall v, Headers.get headers "x-request-id" = Some v ->
               v <> EmptyString -> meta_id = v)
    /\ (forall v, blank headers "x-request-id" ->
                  Headers.get headers "x-correlation-id" = Some v ->
                  v <> EmptyString -> meta_id = v)
    /\ (forall v, blank headers "x-request-id" ->
                  blank headers "x-correlation-id" ->
                  Headers.get headers "request-id" = Some v ->
                  v <> EmptyString -> meta_id = v)
    /\ (blank headers "x-request-id" ->
        blank headers "x-correlation-id" ->
        blank headers "request-id" ->
        meta_id = Uuid.generateUUID env /\ String.length meta_id = 36)
    /\ (Headers.get headers "x-request-id" = Some "abc-123" ->
        meta_id = "abc-123").
Proof.
  intros env request st headers meta_id.
  unfold meta_id; simpl; unfold extractRequestId; fold headers.
  repeat split.
  - intros v G N. rewrite G, !or_else_filled by assumption. reflexivity.
  - intros v B G N. rewrite (or_else_blank _ _ B), G.
    rewrite !or_else_filled by assumption. reflexivity.
  - intros v B1 B2 G N. rewrite (or_else_blank _ _ B1), (or_else_blank _ _ B2), G.
    rewrite !or_else_filled by assumption. reflexivity.
  - rewrite (or_else_blank _ _ H), (or_else_blank _ _ H0), (or_else_blank _ _ H1).
    simpl. destruct (Js.truthy (Uuid.generateUUID env)) eqn:T; [reflexivity|].
    apply truthy_false in T. pose proof (generateUUID_length env) as L.
    rewrite T in L; discriminate L.
  - rewrite (or_else_blank _ _ H), (or_else_blank _ _ H0), (or_else_blank _ _ H1).
    simpl. destruct (Js.truthy (Uuid.generateUUID env)) eqn:T.
    + apply generateUUID_length.
    + apply truthy_false in T. pose proof (generateUUID_length env) as L.
      rewrite T in L; discriminate L.
  - intros G. rewrite G. reflexivity.
Qed.

(** The specification's example request, through the theorem. *)
Lemma correlation_id_derivation_witness :
  id (meta (createContext Examples.env0 Examples.identified [])) = "abc-123".
Proof.
  exact (proj2 (proj2 (proj2 (proj2
           (correlation_id_derivation Examples.env0 Examples.identified []))))
           eq_refl).
Defined.

(** C9 as written fails: an [x-request-id] header that is present but
    empty does not win; the next header's value becomes [meta.id]. *)
Lemma empty_request_id_skipped : ~ AsStated.first_present_value_wins.
Proof.
  intro H.
  specialize (H Examples.env0 Examples.empty_request_id [] EmptyString eq_refl).
  vm_compute in H. discriminate H.
Qed.

End CorrelationId.

(* ================================================================== *)
(** * Further properties: the driver for arbitrary handlers, the
      bundled middlewares, the store and the other adapters *)
(* ================================================================== *)

(** Header lists under [set] and [delete]. *)

Module HeadersFacts.

Import Headers.

Lemma named_own name value : named name (Js.toLowerCase name, value) = true.
Proof. unfold named; simpl. apply String.eqb_refl. Qed.

Lemma named_other name other e :
  Js.toLowerCase other <> Js.toLowerCase name ->
  named name e = true -> named other e = false.
Proof.
  unfold named. intros N H. apply String.eqb_eq in H. rewrite H.
  apply String.eqb_neq. congruence.
Qed.

Lemma values_delete_same h name : values (delete h name) name = [].
Proof.
  unfold values, delete. induction h as [|e h IH]; simpl; [reflexivity|].
  destruct (named name e) eqn:N; simpl; [exact IH|]. now rewrite N.
Qed.

Lemma values_delete_other h name other :
  Js.toLowerCase other <> Js.toLowerCase name ->
  values (delete h name) other = values h other.
Proof.
  intro N. unfold values, delete. induction h as [|e h IH]; simpl; [reflexivity|].
  destruct (named name e) eqn:E; simpl.
  - rewrite (named_other _ _ _ N E). exact IH.
  - destruct (named other e); simpl; now rewrite IH.
Qed.

(** After [set], the name has the one value given. *)
Lemma values_set_same h name value :
  values (set h name value) name = [normalize value].
Proof.
  induction h as [|e h IH]; simpl.
  - unfold values; simpl. now rewrite named_own.
  - destruct (named name e) eqn:N.
    + unfold values; simpl. rewrite named_own. simpl. f_equal.
      apply values_delete_same.
    + unfold values in *; simpl. rewrite N. exact IH.
Qed.

(** [set] leaves the values of every other name as they were. *)
Lemma values_set_other h name value other :
  Js.toLowerCase other <> Js.toLowerCase name ->
  values (set h name value) other = values h other.
Proof.
  intro N. induction h as [|e h IH]; simpl.
  - unfold values; simpl.
    now rewrite (named_other _ _ _ N (named_own name (normalize value))).
  - destruct (named name e) eqn:E.
    + unfold values; simpl.
      rewrite (named_other _ _ _ N (named_own name (normalize value))).
      rewrite (named_other _ _ _ N E).
      apply (values_delete_other h name other N).
    + unfold values in *; simpl. destruct (named other e); simpl; now rewrite IH.
Qed.

Lemma get_set_same h name value :
  get (set h name value) name = Some (normalize value).
Proof. unfold get. now rewrite values_set_same. Qed.

Lemma get_set_other h name value other :
  Js.toLowerCase other <> Js.toLowerCase name ->
  get (set h name value) other = get h other.
Proof. intro N. unfold get. now rewrite values_set_other. Qed.

Lemma has_values h name :
  has h name = match values h name with [] => false | _ => true end.
Proof.
  unfold has, values. induction h as [|e h IH]; simpl; [reflexivity|].
  destruct (named name e); simpl; [reflexivity | exact IH].
Qed.

Lemma get_absent h name : has h name = false -> get h name = None.
Proof.
  rewrite has_values. unfold get.
  destruct (values h name); [reflexivity | discriminate].
Qed.

Lemma has_set_same h name value : has (set h name value) name = true.
Proof. now rewrite has_values, values_set_same. Qed.

Lemma has_set_other h name value other :
  Js.toLowerCase other <> Js.toLowerCase name ->
  has (set h name value) other = has h other.
Proof. intro N. now rewrite !has_values, values_set_other. Qed.

End HeadersFacts.


(* ================================================================== *)
(** ** The driver, for arbitrary handlers *)
(* ================================================================== *)

Section AnyHandlers.

Import Context Chain Onion DriverFacts OnionFacts Totality.

Lemma entered_seq_app i a b :
  i <= a -> a <= b -> seq i (a - i) ++ seq a (b - a) = seq i (b - i).
Proof.
  intros H1 H2. replace (b - i) with ((a - i) + (b - a)) by lia.
  rewrite seq_app. now replace (i + (a - i)) with a by lia.
Qed.

(** What one call of [next()] adds to the log: the handlers it shows
    entered are the positions from the index before the call up to the
    index after it, each once and in order; the index never passes the
    number of handlers. *)
Lemma next_entries mws fuel :
  forall s s' r, next fuel mws s = Some (s', r) ->
    exists added,
      log s' = log s ++ added
      /\ entered added = seq (index s) (index s' - index s)
      /\ index s <= index s'
      /\ index s' <= Nat.max (index s) (List.length mws).
Proof.
  induction fuel as [|fuel IH]; intros s s' r; simpl.
  - destruct (Nat.leb _ _); [|discriminate].
    intros [= <- _]. exists []. rewrite app_nil_r, Nat.sub_diag. repeat split; lia.
  - destruct (Nat.leb_spec (List.length mws) (index s)) as [Hge|Hlt].
    + intros [= <- _]. exists []. rewrite app_nil_r, Nat.sub_diag.
      repeat split; lia.
    + destruct (nth_error mws (index s)) as [mw|] eqn:Hn.
      2:{ apply nth_error_None in Hn; lia. }
      pose (R := fun a b : RunState => exists added,
                   log b = log a ++ added
                   /\ entered added = seq (index a) (index b - index a)
                   /\ index a <= index b
                   /\ index b <= Nat.max (index a) (List.length mws)).
      assert (Hrefl : forall a, R a a).
      { intro a; exists []. rewrite app_nil_r, Nat.sub_diag. repeat split; lia. }
      assert (Htrans : forall a b c, R a b -> R b c -> R a c).
      { intros a b c (x & L1 & E1 & I1 & B1) (y & L2 & E2 & I2 & B2).
        exists (x ++ y). rewrite L2, L1, <- app_assoc, entered_app, E1, E2.
        rewrite entered_seq_app by assumption. repeat split; lia. }
      assert (Hop : forall o a, R a (apply_op o a)).
      { intros o a. exists (emitted [o]).
        rewrite log_apply_op, index_apply_op, entered_emitted, Nat.sub_diag.
        repeat split; lia. }
      assert (Hres : forall i a, R a (record (Resumed i) a)).
      { intros i a. exists [Resumed i]. cbn [record log index entered flat_map app].
        rewrite Nat.sub_diag. repeat split; lia. }
      assert (Hrun : forall s1 r1,
                 run_handler (next fuel mws) (index s) (handler mw)
                   (enter (index s) s) = Some (s1, r1) -> R s s1).
      { intros s1 r1 E.
        destruct (run_handler_respects R Hrefl Htrans Hop Hres
                    (next fuel mws) (index s) IH (handler mw)
                    (enter (index s) s) s1 r1 E) as (x & L & En & I & B).
        unfold enter, record in L, En, I, B. cbn [log index] in L, En, I, B.
        exists (Entered (index s) :: x).
        rewrite L, <- app_assoc.
        split; [reflexivity|]. split; [|lia].
        cbn [entered flat_map app]. fold (entered x). rewrite En.
        destruct (index s1 - index s) as [|k] eqn:K; [lia|].
        cbn [seq]. f_equal. f_equal. lia. }
      destruct (run_handler _ _ _ _) as [[s1 [[|resp]|e]]|] eqn:E;
        try discriminate; intros [= <- _]; eapply Hrun; reflexivity.
Qed.

Lemma initializeMiddlewares_log mws : forall l,
  exists names, fst (initializeMiddlewares mws l) = l ++ map OnInit names.
Proof.
  induction mws as [|mw mws IH]; intro l; cbn [initializeMiddlewares].
  - exists []; simpl; now rewrite app_nil_r.
  - destruct (onInit mw) as [hook|]; [|apply IH].
    destruct (hook l) as [|n m].
    + destruct (IH (l ++ [OnInit (name mw)])) as (names & E).
      exists (name mw :: names). now rewrite E, <- app_assoc.
    + exists [name mw]. reflexivity.
Qed.

Lemma entered_OnInit names : entered (map OnInit names) = [].
Proof. induction names as [|n names IH]; simpl; [reflexivity | exact IH]. Qed.

Lemma ensureInitialized_log chain l :
  exists names,
    snd (fst (ensureInitialized chain l)) = l ++ map OnInit names
    /\ middlewares (fst (fst (ensureInitialized chain l))) = middlewares chain.
Proof.
  unfold ensureInitialized. destruct (initialized chain); simpl.
  - exists []; simpl; now rewrite app_nil_r.
  - destruct (initializeMiddlewares_log (middlewares chain) l) as (names & E).
    exists names. destruct (initializeMiddlewares _ _) as [l' [u|e]];
      simpl in *; auto.
Qed.

(** Whatever the handlers do with statements the platform accepts (call
    [next()] several times, not at all, catch what it throws), a
    [handle] call that has ended has only appended to the log, and has
    entered the handlers at positions 0, 1, ..., k-1 in that order and
    each once, for some [k] at most the number of registered handlers. *)
Theorem handlers_entered_once_in_order :
  forall chain env request st l chain' l' outcome,
    Forall (fun mw => harmless (handler mw)) (middlewares chain) ->
    handle chain env request st l = Some (chain', l', outcome) ->
    exists added k,
      l' = l ++ added
      /\ entered added = seq 0 k
      /\ k <= List.length (middlewares chain).
Proof.
  intros chain env request st l chain' l' outcome _.
  destruct (ensureInitialized_log chain l) as (names & El & Em).
  unfold handle.
  destruct (ensureInitialized chain l) as [[chain1 l1] [e|]]; simpl in El, Em.
  - intros [= <- <- _]. exists (map OnInit names), 0.
    rewrite El, entered_OnInit. repeat split; lia.
  - destruct (executeChain (middlewares chain1)
                (createContext env request st) l1) as [[s o]|] eqn:E;
      [|discriminate].
    intros [= <- <- _]. unfold executeChain in E.
    destruct (next_entries _ _ _ _ _ E) as (x & L & En & I & B).
    simpl in L, En, I, B.
    exists (map OnInit names ++ x), (index s).
    rewrite L, El, app_assoc, entered_app, entered_OnInit, En, Nat.sub_0_r.
    rewrite <- Em. repeat split; lia.
Qed.

(** A first handler that awaits [next()] twice: the second handler is
    entered once. *)
Lemma handlers_entered_once_in_order_witness :
  exists added k,
    [Entered 0; Entered 1; Resumed 1; Resumed 0; Resumed 0] = [] ++ added
    /\ entered added = seq 0 k
    /\ k <= 2.
Proof.
  refine (handlers_entered_once_in_order
            (use createChain [inr Examples.twice; inr (AwaitNext (Return NotDone))])
            Examples.env0 Examples.get_root [] [] _ _ _ _ eq_refl).
  repeat constructor.
Defined.

(** An ordinary error passes through handlers that have no [catch]
    around their call: when the handlers registered before [hk] are
    plain onion layers and [hk], entered after their [before] parts,
    throws an error, [handle] rejects with that very error, and the log
    ends where [hk] threw: nothing is resumed and the builder is not
    read. *)
Theorem error_passes_plain_handlers :
  forall chain layers ups hk downs env request st log0 chain' log' s_k n m,
    ensureInitialized chain log0 = (chain', log', None) ->
    middlewares chain = ups ++ hk :: downs ->
    Forall2 plainly_layered ups layers ->
    run_handler (next (List.length downs) (middlewares chain))
      (List.length ups) (handler hk)
      (enter (List.length ups)
         (descend 0 layers (mkRun (createContext env request st) 0 log')))
    = Some (s_k, Threw (JsError n m)) ->
    handle chain env request st log0
    = Some (chain', log s_k, Threw (JsError n m)).
Proof.
  intros chain layers ups hk downs env request st log0 chain' log' s_k n m
         Hinit Hm Hlay Hrun.
  pose proof (ensureInitialized_middlewares _ _ _ _ _ Hinit) as Hm'.
  unfold handle; rewrite Hinit, Hm'. unfold executeChain.
  set (s0 := mkRun (createContext env request st) 0 log') in *.
  set (mws := middlewares chain) in *.
  assert (Hidx : index (descend 0 layers s0) = List.length ups).
  { rewrite index_descend by reflexivity.
    symmetry; exact (Forall2_length Hlay). }
  assert (Hsit : sits_at mws 0 ups).
  { rewrite Hm. exact (sits_at_app [] ups (hk :: downs)). }
  assert (Hk : nth_error mws (List.length ups) = Some hk).
  { rewrite Hm, nth_error_app2 by lia. now rewrite Nat.sub_diag. }
  assert (Hlt : Nat.leb (List.length mws) (List.length ups) = false).
  { apply Nat.leb_gt, nth_error_Some; congruence. }
  assert (Hin : next (S (List.length downs)) mws (descend 0 layers s0)
                = Some (s_k, Threw (JsError n m))).
  { rewrite (next_enters _ _ _ hk); rewrite Hidx; try assumption.
    now rewrite Hrun. }
  pose proof (onion_throws _ _ _ Hlay 0 _ s0 _ _ Hsit eq_refl Hin) as Hall.
  replace (List.length mws) with (List.length ups + S (List.length downs)).
  - rewrite Hall; reflexivity.
  - rewrite Hm, length_app; reflexivity.
Qed.

(** A handler that throws after a plain handler has called it. *)
Lemma error_passes_plain_handlers_witness :
  exists l,
    handle (use createChain [inr Examples.outer; inr (Throw "Error" "boom")])
      Examples.env0 Examples.get_root [] []
    = Some (mk [ mkMiddleware "anonymous-0" Examples.outer None;
                 mkMiddleware "anonymous-1" (Throw "Error" "boom") None ] true,
            l, Threw (JsError "Error" "boom")).
Proof.
  eexists.
  refine (error_passes_plain_handlers
            (use createChain [inr Examples.outer; inr (Throw "Error" "boom")])
            [mkLayer [Emit "1"] [Emit "4"]]
            [mkMiddleware "anonymous-0" Examples.outer None]
            (mkMiddleware "anonymous-1" (Throw "Error" "boom") None)
            []
            Examples.env0 Examples.get_root [] [] _ [] _ _ _
            eq_refl eq_refl _ eq_refl).
  constructor; [reflexivity | constructor].
Defined.

Lemma initialized_use mws : forall chain,
  initialized (use chain mws) = initialized chain.
Proof.
  induction mws as [|mw mws IH]; intro chain; [reflexivity|].
  change (use chain (mw :: mws))
    with (use (match mw with
               | inr f =>
                   mk (middlewares chain
                       ++ [mkMiddleware
                             (anonymous_name (List.length (middlewares chain)))
                             f None])
                      (initialized chain)
               | inl m0 => mk (middlewares chain ++ [m0]) (initialized chain)
               end) mws).
  rewrite IH. now destruct mw.
Qed.

(** A middleware registered after the pipeline has started never has
    its [onInit] hook run: on a chain whose flag is set, [use] adds the
    middlewares but leaves the flag, so no sequence of [handle] calls on
    the result calls any hook. *)
Theorem late_hook_never_runs :
  forall chain mws calls l,
    initialized chain = true ->
    exists l',
      handleAll (use chain mws) l calls = Some (use chain mws, l')
      /\ inits l' = inits l.
Proof.
  intros chain mws calls l Hi.
  destruct (handleAll_total calls (use chain mws) l) as (c' & l' & E).
  assert (Hu : initialized (use chain mws) = true)
    by now rewrite initialized_use.
  destruct (handleAll_started calls (use chain mws) l c' l' Hu E) as [-> N].
  exists l'; split; assumption.
Qed.

(** The started pipeline of [Examples.json_chain], a hooked middleware
    added to it, and two calls. *)
Lemma late_hook_never_runs_witness :
  exists l',
    handleAll (use (mk (middlewares Examples.json_chain) true)
                 [inl Examples.cache_mw])
      [] Examples.two_calls
    = Some (use (mk (middlewares Examples.json_chain) true)
              [inl Examples.cache_mw], l')
    /\ inits l' = [].
Proof.
  exact (late_hook_never_runs (mk (middlewares Examples.json_chain) true)
           [inl Examples.cache_mw] Examples.two_calls [] eq_refl).
Defined.

(** On a pipeline not yet started whose [onInit] hooks all return when
    first called, the first [handle] call runs the hook of every
    middleware registered before it that has one, in registration order
    and before any handler, and over that call and any number of
    sequential calls after it every such hook has run exactly once. *)
Theorem registered_hooks_run_once :
  forall chain env rq st calls l0,
    initialized chain = false ->
    hooks_return (middlewares chain) l0 ->
    exists chain1 l1 r1 rest chainN lN,
      handle chain env rq st l0 = Some (chain1, l1, r1)
      /\ l1 = l0 ++ map OnInit (hooked (middlewares chain)) ++ rest
      /\ inits rest = []
      /\ handleAll chain l0 ((env, rq, st) :: calls) = Some (chainN, lN)
      /\ inits lN = inits l0 ++ hooked (middlewares chain).
Proof.
  intros chain env rq st calls l0 Hi Hh.
  destruct (handle_first chain env rq st l0 Hi Hh) as (l1 & r1 & rest & E & El & N).
  destruct (handleAll_total calls (mk (middlewares chain) true) l1)
    as (chainN & lN & EN).
  exists (mk (middlewares chain) true), l1, r1, rest, chainN, lN.
  repeat split; try assumption.
  - simpl. rewrite E. exact EN.
  - destruct (handleAll_started calls (mk (middlewares chain) true) l1 chainN lN
                eq_refl EN) as (_ & ->).
    rewrite El, !inits_app, inits_OnInit, N. now rewrite app_nil_r.
Qed.

(** The test "should only call onInit once": two calls, one hook run. *)
Lemma registered_hooks_run_once_witness :
  exists chainN lN,
    handleAll (use createChain [inl Examples.cache_mw]) [] Examples.two_calls
    = Some (chainN, lN)
    /\ inits lN = ["cache"].
Proof.
  destruct (registered_hooks_run_once (use createChain [inl Examples.cache_mw])
              Examples.env0 Examples.get_root []
              [(Examples.env0, Examples.get_root, [])] [] eq_refl
              (conj eq_refl I))
    as (c1 & l1 & r1 & rest & cN & lN & _ & _ & _ & E & I).
  exists cN, lN; split; [exact E | exact I].
Defined.

Lemma use_nth mws : forall chain i,
  nth_error (middlewares (use chain mws)) i
  = if Nat.ltb i (List.length (middlewares chain))
    then nth_error (middlewares chain) i
    else option_map
           (fun mw => match mw with
                      | inl m => m
                      | inr f => mkMiddleware (anonymous_name i) f None
                      end)
           (nth_error mws (i - List.length (middlewares chain))).
Proof.
  induction mws as [|mw mws IH]; intros chain i.
  - simpl. destruct (Nat.ltb_spec i (List.length (middlewares chain))) as [H|H];
      [reflexivity|].
    destruct (i - _); simpl; now apply nth_error_None.
  - change (use chain (mw :: mws))
      with (use (match mw with
                 | inr f =>
                     mk (middlewares chain
                         ++ [mkMiddleware
                               (anonymous_name (List.length (middlewares chain)))
                               f None])
                        (initialized chain)
                 | inl m0 => mk (middlewares chain ++ [m0]) (initialized chain)
                 end) mws).
    rewrite IH.
    set (n := List.length (middlewares chain)).
    assert (Hlen : List.length
              (middlewares
                 (match mw with
                  | inr f =>
                      mk (middlewares chain ++ [mkMiddleware (anonymous_name n) f None])
                         (initialized chain)
                  | inl m0 => mk (middlewares chain ++ [m0]) (initialized chain)
                  end)) = S n).
    { destruct mw; simpl; rewrite length_app; simpl; lia. }
    rewrite Hlen.
    destruct (Nat.ltb_spec i (S n)) as [H1|H1];
      destruct (Nat.ltb_spec i n) as [H2|H2]; try lia.
    + destruct mw; simpl; now rewrite nth_error_app1.
    + assert (i = n) as -> by lia. rewrite Nat.sub_diag.
      destruct mw; simpl; rewrite nth_error_app2 by lia;
        fold n; now rewrite Nat.sub_diag.
    + replace (i - n) with (S (i - S n)) by lia. reflexivity.
Qed.

(** [pipe(...mws)] gives a chain that has not started and holds the
    given middlewares in the order given: a middleware object as it is,
    a bare handler under the name [anonymous-<i>], [i] its position in
    the whole chain (objects counted), with no hook. *)
Theorem pipe_registration :
  forall (mws : list (Middleware + code)),
    initialized (Pipe.pipe mws) = false
    /\ List.length (getMiddlewares (Pipe.pipe mws)) = List.length mws
    /\ forall i,
         nth_error (getMiddlewares (Pipe.pipe mws)) i
         = option_map
             (fun mw => match mw with
                        | inl m => m
                        | inr f => mkMiddleware (anonymous_name i) f None
                        end)
             (nth_error mws i).
Proof.
  intro mws. unfold Pipe.pipe, getMiddlewares.
  assert (Hn : forall i,
    nth_error (middlewares (use createChain mws)) i
    = option_map
        (fun mw => match mw with
                   | inl m => m
                   | inr f => mkMiddleware (anonymous_name i) f None
                   end)
        (nth_error mws i)).
  { intro i. rewrite use_nth. simpl. now rewrite Nat.sub_0_r. }
  split; [apply initialized_use|]. split; [|exact Hn].
  destruct (Nat.lt_trichotomy (List.length (middlewares (use createChain mws)))
              (List.length mws)) as [H|[H|H]]; [|exact H|].
  - pose proof (Hn (List.length (middlewares (use createChain mws)))) as E.
    rewrite (proj2 (nth_error_None _ _) (le_n _)) in E.
    apply nth_error_Some in H.
    destruct (nth_error mws (List.length (middlewares (use createChain mws))));
      [discriminate E | destruct (H eq_refl)].
  - pose proof (Hn (List.length mws)) as E.
    rewrite (proj2 (nth_error_None mws _) (le_n _)) in E.
    apply nth_error_Some in H. destruct (H E).
Qed.



End AnyHandlers.

(* ================================================================== *)
(** ** utils/uuid.ts: generated identifiers are valid *)
(* ================================================================== *)

Module UuidFacts.

Import Js RegexFacts Uuid UuidCheck.

Lemma bool_eq_iff (a b : bool) : (a = true <-> b = true) -> a = b.
Proof.
  destruct a, b; intros [H1 H2]; auto.
  - symmetry; auto.
Qed.

Lemma lang_seq_eps r s : lang (Seq Eps r) s <-> lang r s.
Proof.
  split.
  - intro H; apply lang_seq_inv in H as (s1 & s2 & -> & H1 & H2).
    apply lang_eps_inv in H1 as ->. exact H2.
  - intro H. change s with (EmptyString ++ s)%string.
    constructor; [constructor | exact H].
Qed.

Lemma lang_seq_assoc r1 r2 r3 s :
  lang (Seq (Seq r1 r2) r3) s <-> lang (Seq r1 (Seq r2 r3)) s.
Proof.
  split; intro H.
  - apply lang_seq_inv in H as (s12 & s3 & -> & H12 & H3).
    apply lang_seq_inv in H12 as (s1 & s2 & -> & H1 & H2).
    rewrite append_assoc_string.
    constructor; [exact H1 | constructor; assumption].
  - apply lang_seq_inv in H as (s1 & s23 & -> & H1 & H23).
    apply lang_seq_inv in H23 as (s2 & s3 & -> & H2 & H3).
    rewrite <- append_assoc_string.
    constructor; [constructor; assumption | exact H3].
Qed.

(** A class in front of a pattern takes one character. *)
Lemma full_match_class p r c s :
  full_match (Seq (Class p) r) (String c s) = p c && full_match r s.
Proof.
  apply bool_eq_iff. rewrite andb_true_iff, !full_match_lang. split.
  - intro H; apply lang_seq_inv in H as (s1 & s2 & E & H1 & H2).
    apply lang_class_inv in H1 as (d & -> & Hd).
    injection E as -> ->. split; assumption.
  - intros [Hc H]. change (String c s) with (String c EmptyString ++ s)%string.
    constructor; [now constructor | exact H].
Qed.

Lemma full_match_class_empty p r : full_match (Seq (Class p) r) EmptyString = false.
Proof. reflexivity. Qed.

(** [p{n}] in front of a pattern takes [n] characters of the class. *)
Lemma full_match_times p n r : forall s,
  full_match (Seq (times n (Class p)) r) s
  = match n with
    | O => full_match r s
    | S n' =>
        match s with
        | EmptyString => false
        | String c s' => p c && full_match (Seq (times n' (Class p)) r) s'
        end
    end.
Proof.
  intro s. destruct n as [|n].
  - apply bool_eq_iff. rewrite !full_match_lang. apply lang_seq_eps.
  - destruct s as [|c s]; [reflexivity|].
    rewrite <- full_match_class. apply bool_eq_iff.
    rewrite !full_match_lang. apply lang_seq_assoc.
Qed.

Lemma full_match_times_end p n : forall s,
  full_match (times n (Class p)) s
  = match n with
    | O => match s with EmptyString => true | _ => false end
    | S n' =>
        match s with
        | EmptyString => false
        | String c s' => p c && full_match (times n' (Class p)) s'
        end
    end.
Proof.
  intro s. destruct n as [|n].
  - destruct s as [|c s]; [reflexivity|]. simpl.
    induction s as [|d s IH]; [reflexivity | exact IH].
  - destruct s as [|c s]; [reflexivity|]. apply full_match_class.
Qed.

Lemma bytes_all (P : Z -> bool) :
  forallb P (map Z.of_nat (seq 0 256)) = true ->
  forall b, (0 <= b < 256)%Z -> P b = true.
Proof.
  intros H b Hb. rewrite forallb_forall in H. apply H.
  apply in_map_iff. exists (Z.to_nat b). split; [lia|]. apply in_seq. lia.
Qed.

(** The two digits of any byte are hexadecimal digits. *)
Lemma hex2_digits b :
  (0 <= b < 256)%Z ->
  is_hex (hex_digit (b / 16)) = true /\ is_hex (hex_digit (b mod 16)) = true.
Proof.
  intro Hb. apply andb_true_iff.
  revert b Hb.
  apply (bytes_all (fun b => is_hex (hex_digit (b / 16))
                             && is_hex (hex_digit (b mod 16)))).
  vm_compute. reflexivity.
Qed.

(** Byte 6 after [(b & 0x0f) | 0x40]: the version digit is 4. *)
Lemma version_digits b :
  (0 <= b < 256)%Z ->
  hex_digit (Z.lor (Z.land b 15) 64 / 16) = "4"%char
  /\ is_hex (hex_digit (Z.lor (Z.land b 15) 64 mod 16)) = true.
Proof.
  intro Hb.
  assert (H : Ascii.eqb (hex_digit (Z.lor (Z.land b 15) 64 / 16)) "4"
              && is_hex (hex_digit (Z.lor (Z.land b 15) 64 mod 16)) = true).
  { revert b Hb.
    apply (bytes_all (fun b =>
             Ascii.eqb (hex_digit (Z.lor (Z.land b 15) 64 / 16)) "4"
             && is_hex (hex_digit (Z.lor (Z.land b 15) 64 mod 16)))).
    vm_compute. reflexivity. }
  apply andb_true_iff in H as [H1 H2]. apply Ascii.eqb_eq in H1. auto.
Qed.

(** Byte 8 after [(b & 0x3f) | 0x80]: the variant digit is 8, 9, a or b. *)
Lemma variant_digits b :
  (0 <= b < 256)%Z ->
  is_variant (hex_digit (Z.lor (Z.land b 63) 128 / 16)) = true
  /\ is_hex (hex_digit (Z.lor (Z.land b 63) 128 mod 16)) = true.
Proof.
  intro Hb. apply andb_true_iff. revert b Hb.
  apply (bytes_all (fun b =>
           is_variant (hex_digit (Z.lor (Z.land b 63) 128 / 16))
           && is_hex (hex_digit (Z.lor (Z.land b 63) 128 mod 16)))).
  vm_compute. reflexivity.
Qed.

Lemma fallback_valid random : isValidUUID (generateUUIDFallback random) = true.
Proof.
  unfold generateUUIDFallback, Uint8Array16.
  cbn [map seq].
  assert (Hbyte : forall i, (0 <= nth i random 0 mod 256 < 256)%Z)
    by (intro i; apply Z.mod_pos_bound; lia).
  pose proof (Hbyte 0) as B0. pose proof (Hbyte 1) as B1.
  pose proof (Hbyte 2) as B2. pose proof (Hbyte 3) as B3.
  pose proof (Hbyte 4) as B4. pose proof (Hbyte 5) as B5.
  pose proof (Hbyte 6) as B6. pose proof (Hbyte 7) as B7.
  pose proof (Hbyte 8) as B8. pose proof (Hbyte 9) as B9.
  pose proof (Hbyte 10) as B10. pose proof (Hbyte 11) as B11.
  pose proof (Hbyte 12) as B12. pose proof (Hbyte 13) as B13.
  pose proof (Hbyte 14) as B14. pose proof (Hbyte 15) as B15.
  clear Hbyte.
  set (b0 := (nth 0 random 0 mod 256)%Z) in *.
  set (b1 := (nth 1 random 0 mod 256)%Z) in *.
  set (b2 := (nth 2 random 0 mod 256)%Z) in *.
  set (b3 := (nth 3 random 0 mod 256)%Z) in *.
  set (b4 := (nth 4 random 0 mod 256)%Z) in *.
  set (b5 := (nth 5 random 0 mod 256)%Z) in *.
  set (b6 := (nth 6 random 0 mod 256)%Z) in *.
  set (b7 := (nth 7 random 0 mod 256)%Z) in *.
  set (b8 := (nth 8 random 0 mod 256)%Z) in *.
  set (b9 := (nth 9 random 0 mod 256)%Z) in *.
  set (b10 := (nth 10 random 0 mod 256)%Z) in *.
  set (b11 := (nth 11 random 0 mod 256)%Z) in *.
  set (b12 := (nth 12 random 0 mod 256)%Z) in *.
  set (b13 := (nth 13 random 0 mod 256)%Z) in *.
  set (b14 := (nth 14 random 0 mod 256)%Z) in *.
  set (b15 := (nth 15 random 0 mod 256)%Z) in *.
  clearbody b0 b1 b2 b3 b4 b5 b6 b7 b8 b9 b10 b11 b12 b13 b14 b15.
  destruct (hex2_digits _ B0) as [H0 L0]. destruct (hex2_digits _ B1) as [H1 L1].
  destruct (hex2_digits _ B2) as [H2 L2]. destruct (hex2_digits _ B3) as [H3 L3].
  destruct (hex2_digits _ B4) as [H4 L4]. destruct (hex2_digits _ B5) as [H5 L5].
  destruct (version_digits _ B6) as [H6 L6].
  destruct (hex2_digits _ B7) as [H7 L7].
  destruct (variant_digits _ B8) as [H8 L8].
  destruct (hex2_digits _ B9) as [H9 L9].
  destruct (hex2_digits _ B10) as [H10 L10].
  destruct (hex2_digits _ B11) as [H11 L11].
  destruct (hex2_digits _ B12) as [H12 L12].
  destruct (hex2_digits _ B13) as [H13 L13].
  destruct (hex2_digits _ B14) as [H14 L14].
  destruct (hex2_digits _ B15) as [H15 L15].
  cbv [update formatUUIDBytes map seq nth slice_join skipn firstn Nat.sub
       String.concat hex2 append].
  unfold isValidUUID, UUID_REGEX, hexes, chr.
  repeat (first [ rewrite full_match_times | rewrite full_match_class
                | rewrite full_match_times_end ]).
  rewrite H0, L0, H1, L1, H2, L2, H3, L3, H4, L4, H5, L5, H6, L6, H7, L7,
          H8, L8, H9, L9, H10, L10, H11, L11, H12, L12, H13, L13, H14, L14,
          H15, L15.
  reflexivity.
Qed.

End UuidFacts.

Section GeneratedIds.

Import Context.

(** Every identifier [generateUUID()] gives, on either path and
    whatever the random bytes, passes [isValidUUID]: 36 characters in the
    8-4-4-4-12 layout of hexadecimal digits, version digit 4 and variant
    digit 8, 9, a or b. So does the [meta.id] of a request that carries
    none of the identifying headers. *)
Theorem generated_uuid_is_valid :
  forall env,
    UuidCheck.isValidUUID (Uuid.generateUUID env) = true
    /\ forall request st,
         Headers.get (Request.headers request) "x-request-id" = None ->
         Headers.get (Request.headers request) "x-correlation-id" = None ->
         Headers.get (Request.headers request) "request-id" = None ->
         UuidCheck.isValidUUID (id (meta (createContext env request st))) = true.
Proof.
  intro env.
  assert (V : UuidCheck.isValidUUID (Uuid.generateUUID env) = true).
  { unfold Uuid.generateUUID, Uuid.crypto_randomUUID.
    destruct (nativeRandomUUID env); apply UuidFacts.fallback_valid. }
  split; [exact V|]. intros request st H1 H2 H3.
  change (id (meta (createContext env request st)))
    with (match Js.or_else (extractRequestId request)
                  (Some (Uuid.generateUUID env)) with
          | Some v => v
          | None => EmptyString
          end).
  unfold extractRequestId. rewrite H1, H2, H3. simpl.
  destruct (Js.truthy (Uuid.generateUUID env)) eqn:T; [exact V|].
  destruct (Uuid.generateUUID env); [discriminate V | discriminate T].
Qed.

(** A request without identifying headers. *)
Lemma generated_uuid_is_valid_witness :
  UuidCheck.isValidUUID
    (id (meta (createContext Examples.env0 Examples.get_root []))) = true.
Proof.
  exact (proj2 (generated_uuid_is_valid Examples.env0)
           Examples.get_root [] eq_refl eq_refl eq_refl).
Defined.

End GeneratedIds.

(* ================================================================== *)
(** ** middlewares/auth: key comparison and Basic credentials *)
(* ================================================================== *)

Module Base64Facts.

Import Base64.

Lemma string_ind3 (P : string -> Prop) :
  P EmptyString ->
  (forall a, P (String a EmptyString)) ->
  (forall a b, P (String a (String b EmptyString))) ->
  (forall a b c rest, P rest -> P (String a (String b (String c rest)))) ->
  forall s, P s.
Proof.
  intros H0 H1 H2 H3.
  assert (H : forall s, P s /\ (forall a, P (String a s))
                       /\ (forall a b, P (String a (String b s)))).
  { induction s as [|c s (IH0 & IH1 & IH2)]; [auto|].
    split; [exact (IH1 c)|]. split; [intro a; exact (IH2 a c)|].
    intros a b. exact (H3 a b c s IH0). }
  intro s; apply H.
Qed.

Lemma digit_value n : n < 64 -> value (digit n) = Some n.
Proof.
  intro H. do 64 (destruct n as [|n]; [reflexivity|]). lia.
Qed.

Lemma digit_not_padding n : n < 64 -> Ascii.eqb (digit n) "=" = false.
Proof.
  intro H. do 64 (destruct n as [|n]; [reflexivity|]). lia.
Qed.

Lemma digit_not_whitespace n : is_whitespace (digit n) = false.
Proof. do 64 (destruct n as [|n]; [reflexivity|]). reflexivity. Qed.

Lemma byte_bound a : nat_of_ascii a < 256.
Proof. apply nat_ascii_bounded. Qed.

Ltac euclid := zify; Z.to_euclidean_division_equations; lia.

Lemma strip_digit n s :
  strip_whitespace (String (digit n) s) = String (digit n) (strip_whitespace s).
Proof. cbn [strip_whitespace]. now rewrite digit_not_whitespace. Qed.

Lemma drop_digit n s :
  n < 64 ->
  drop_padding (String (digit n) s) = String (digit n) (drop_padding s).
Proof. intro H. cbn [drop_padding]. now rewrite (digit_not_padding n H). Qed.

(** What [btoa] gives has no white space and a length that is a
    multiple of four. *)
Lemma strip_btoa s : strip_whitespace (btoa s) = btoa s.
Proof.
  induction s as [|a|a b|a b c rest IH] using string_ind3;
    cbn [btoa]; rewrite ?strip_digit; try reflexivity.
  now rewrite IH.
Qed.

Lemma length_btoa s : String.length (btoa s) mod 4 = 0.
Proof.
  induction s as [|a|a b|a b c rest IH] using string_ind3;
    cbn [btoa String.length]; try reflexivity.
  change (S (S (S (S (String.length (btoa rest))))))
    with (4 + String.length (btoa rest)).
  rewrite <- Nat.Div0.add_mod_idemp_l. exact IH.
Qed.

(** The characters left once the padding is dropped decode to the
    string encoded. *)
Lemma bytes_btoa s : bytes (drop_padding (btoa s)) = Some s.
Proof.
  induction s as [|a|a b|a b c rest IH] using string_ind3.
  - reflexivity.
  - pose proof (byte_bound a) as Ha. cbn [btoa]. cbv zeta.
    rewrite !drop_digit by euclid. cbn [drop_padding bytes].
    rewrite !digit_value by euclid.
    replace (nat_of_ascii a / 4 * 4 + nat_of_ascii a mod 4 * 16 / 16)
      with (nat_of_ascii a) by euclid.
    now rewrite ascii_nat_embedding.
  - pose proof (byte_bound a) as Ha. pose proof (byte_bound b) as Hb.
    cbn [btoa]. cbv zeta.
    rewrite !drop_digit by euclid. cbn [drop_padding bytes].
    rewrite !digit_value by euclid.
    replace (nat_of_ascii a / 4 * 4
             + (nat_of_ascii a mod 4 * 16 + nat_of_ascii b / 16) / 16)
      with (nat_of_ascii a) by euclid.
    replace ((nat_of_ascii a mod 4 * 16 + nat_of_ascii b / 16) mod 16 * 16
             + nat_of_ascii b mod 16 * 4 / 4)
      with (nat_of_ascii b) by euclid.
    now rewrite !ascii_nat_embedding.
  - pose proof (byte_bound a) as Ha. pose proof (byte_bound b) as Hb.
    pose proof (byte_bound c) as Hc.
    cbn [btoa]. cbv zeta.
    rewrite !drop_digit by euclid. cbn [bytes].
    rewrite !digit_value by euclid. rewrite IH.
    replace (nat_of_ascii a / 4 * 4
             + (nat_of_ascii a mod 4 * 16 + nat_of_ascii b / 16) / 16)
      with (nat_of_ascii a) by euclid.
    replace ((nat_of_ascii a mod 4 * 16 + nat_of_ascii b / 16) mod 16 * 16
             + (nat_of_ascii b mod 16 * 4 + nat_of_ascii c / 64) / 4)
      with (nat_of_ascii b) by euclid.
    replace ((nat_of_ascii b mod 16 * 4 + nat_of_ascii c / 64) mod 4 * 64
             + nat_of_ascii c mod 64)
      with (nat_of_ascii c) by euclid.
    now rewrite !ascii_nat_embedding.
Qed.

(** [atob] undoes [btoa]. *)
Lemma atob_btoa s : atob (btoa s) = Some s.
Proof.
  unfold atob. rewrite strip_btoa, length_btoa. cbn [Nat.eqb].
  apply bytes_btoa.
Qed.

End Base64Facts.

Module AuthFacts.

Import Auth.

Lemma code_of_inj x y : code_of x = code_of y -> x = y.
Proof.
  unfold code_of; intro H. apply Nat2Z.inj in H.
  rewrite <- (ascii_nat_embedding x), <- (ascii_nat_embedding y). now rewrite H.
Qed.

(** The accumulator ends at zero exactly when it started at zero and the
    strings agree at every index. *)
Lemma accumulate_zero a : forall b result,
  String.length a = String.length b ->
  (accumulate result a b = 0 <-> result = 0 /\ a = b)%Z.
Proof.
  induction a as [|x a IH]; intros [|y b] result L; try discriminate L; simpl.
  - tauto.
  - injection L as L. rewrite (IH b _ L), Z.lor_eq_0_iff, Z.lxor_eq_0_iff.
    split.
    + intros [[R C] ->]. apply code_of_inj in C as ->. auto.
    + intros [R [= -> ->]]. auto.
Qed.

Lemma timingSafeEqual_eqb a b : timingSafeEqual a b = String.eqb a b.
Proof.
  unfold timingSafeEqual.
  destruct (Nat.eqb_spec (String.length a) (String.length b)) as [L|L]; simpl.
  - destruct (Z.eqb_spec (accumulate 0 a b) 0) as [E|E];
      destruct (String.eqb_spec a b) as [Q|Q]; try reflexivity.
    + apply (accumulate_zero a b 0 L) in E as [_ E]. contradiction.
    + exfalso; apply E. apply (accumulate_zero a b 0 L); auto.
  - destruct (String.eqb_spec a b) as [->|Q]; [contradiction | reflexivity].
Qed.

Lemma indexOf_split c s : forall i,
  indexOf c s = Some i ->
  s = (slice s 0 i ++ String c (slice_from s (i + 1)))%string
  /\ Js.includes c (slice s 0 i) = false.
Proof.
  unfold slice, slice_from.
  induction s as [|d s IH]; intros i; simpl; [discriminate|].
  destruct (Ascii.eqb_spec d c) as [->|N].
  - intros [= <-]. simpl. split; [|reflexivity]. f_equal.
    rewrite Nat.sub_0_r. clear. induction s as [|e s IH]; simpl; [reflexivity|].
    now rewrite <- IH.
  - destruct (indexOf c s) as [j|] eqn:E; [|discriminate].
    intros [= <-]. destruct (IH j eq_refl) as [E1 E2].
    rewrite Nat.sub_0_r in *. simpl.
    split.
    + f_equal. exact E1.
    + apply Ascii.eqb_neq in N. rewrite N. exact E2.
Qed.

Lemma indexOf_app c u rest :
  Js.includes c u = false ->
  indexOf c (u ++ String c rest) = Some (String.length u).
Proof.
  induction u as [|d u IH]; simpl.
  - now rewrite Ascii.eqb_refl.
  - intro H. apply orb_false_iff in H as [N H]. rewrite N, (IH H). reflexivity.
Qed.

Lemma indexOf_none c s : indexOf c s = None <-> Js.includes c s = false.
Proof.
  induction s as [|d s IH]; simpl; [tauto|].
  destruct (Ascii.eqb d c); simpl; [split; discriminate|].
  destruct (indexOf c s); simpl; [|tauto].
  split; [discriminate|]. intro H; apply IH in H; discriminate.
Qed.

Lemma substring_all s : String.substring 0 (String.length s) s = s.
Proof. induction s as [|c s IH]; simpl; [reflexivity | now rewrite IH]. Qed.

Lemma slice_prefix u rest : slice (u ++ rest) 0 (String.length u) = u.
Proof.
  unfold slice. rewrite Nat.sub_0_r.
  induction u as [|c u IH]; simpl.
  - destruct rest; reflexivity.
  - now rewrite IH.
Qed.

Lemma slice_suffix u c rest :
  slice_from (u ++ String c rest) (String.length u + 1) = rest.
Proof.
  unfold slice_from.
  induction u as [|d u IH]; simpl.
  - rewrite Nat.sub_0_r. apply substring_all.
  - exact IH.
Qed.

(** [decodeBasicCredentials] splits the decoded text at its first colon. *)
Lemma decode_spec (atob : string -> option string) encoded username password :
  decodeBasicCredentials atob encoded = Some (username, password)
  <-> exists decoded,
        atob encoded = Some decoded
        /\ decoded = (username ++ ":" ++ password)%string
        /\ Js.includes ":" username = false.
Proof.
  unfold decodeBasicCredentials. split.
  - destruct (atob encoded) as [decoded|]; [|discriminate].
    destruct (indexOf ":" decoded) as [i|] eqn:E; [|discriminate].
    intros [= <- <-]. exists decoded.
    destruct (indexOf_split _ _ _ E) as [E1 E2].
    split; [reflexivity|]. split; [exact E1 | exact E2].
  - intros (decoded & -> & -> & N).
    simpl. rewrite (indexOf_app _ _ _ N).
    now rewrite slice_prefix, slice_suffix.
Qed.

End AuthFacts.

Section Credentials.

Import Auth.

(** [timingSafeEqual(a, b)] is string equality: it answers true
    exactly when the two strings are the same. *)
Theorem timingSafeEqual_is_equality :
  forall a b, timingSafeEqual a b = true <-> a = b.
Proof.
  intros a b. rewrite AuthFacts.timingSafeEqual_eqb. apply String.eqb_eq.
Qed.

(** With a list of keys, [validateKey] accepts a key exactly when
    it is one of the list; the empty list accepts nothing. *)
Theorem validateKey_membership :
  forall key keys, validateKey key (inl keys) = true <-> In key keys.
Proof.
  intros key keys. unfold validateKey. rewrite existsb_exists. split.
  - intros (k & Hin & E). rewrite AuthFacts.timingSafeEqual_eqb in E.
    apply String.eqb_eq in E as ->. exact Hin.
  - intro Hin. exists key. split; [exact Hin|].
    rewrite AuthFacts.timingSafeEqual_eqb. apply String.eqb_refl.
Qed.

(** [decodeBasicCredentials] splits the decoded text at its first
    colon: it gives a user name and a password exactly when the decoder
    accepts the text and the decoded text is the user name, a colon and
    the password, with no colon in the user name. A text the decoder
    refuses, or one without a colon, gives [null]. *)
Theorem decodeBasicCredentials_first_colon :
  forall (atob : string -> option string) encoded username password,
    decodeBasicCredentials atob encoded = Some (username, password)
    <-> exists decoded,
          atob encoded = Some decoded
          /\ decoded = (username ++ ":" ++ password)%string
          /\ Js.includes ":" username = false.
Proof. exact AuthFacts.decode_spec. Qed.

(** Encoding then decoding gives the credentials back when the
    user name holds no colon: [atob] undoes [btoa]; a colon in the
    password is kept. *)
Theorem basic_credentials_round_trip :
  forall username password,
    Js.includes ":" username = false ->
    decodeBasicCredentials Base64.atob
      (encodeBasicCredentials Base64.btoa username password)
    = Some (username, password).
Proof.
  intros username password N.
  apply AuthFacts.decode_spec.
  exists (username ++ ":" ++ password)%string.
  unfold encodeBasicCredentials. rewrite Base64Facts.atob_btoa. auto.
Qed.

(** A password that holds a colon. *)
Lemma basic_credentials_round_trip_witness :
  encodeBasicCredentials Base64.btoa "admin" "se:cret" = "YWRtaW46c2U6Y3JldA=="
  /\ decodeBasicCredentials Base64.atob "YWRtaW46c2U6Y3JldA=="
     = Some ("admin", "se:cret").
Proof.
  split; [reflexivity|].
  exact (basic_credentials_round_trip "admin" "se:cret" eq_refl).
Defined.

End Credentials.

(* ================================================================== *)
(** ** The response builder and the host adapters: replies *)
(* ================================================================== *)

Section BuilderReplies.

Import ResponseBuilder Adapters HeadersFacts.

Lemma in_range_status status :
  (200 <= status <= 599)%Z ->
  negb ((200 <=? status)%Z && (status <=? 599)%Z) = false.
Proof.
  intros [H1 H2]. apply Z.leb_le in H1, H2. now rewrite H1, H2.
Qed.

(** What [build()] gives after a body setter that stores [content]
    under the content type [type]. *)
Lemma content_reply b type content :
  (200 <= _status b <= 599)%Z ->
  snd (build (mk (_status b) (Headers.set (_headers b) "Content-Type" type)
                 (Some content)))
  = if null_body_status (_status b)
    then Threw (JsError "TypeError" "body on a null body status")
    else Returned (Response.mk (_status b)
                     (Headers.set (_headers b) "Content-Type" type)
                     (Some content)).
Proof.
  intro H. unfold build, new_Response; simpl.
  rewrite (in_range_status _ H), has_set_same. reflexivity.
Qed.

(** The last body setter wins. Whatever the builder held before
    (another body, other Content-Type values), after [json], [text] or
    [html] a builder with a status in 200..599 that allows a body builds
    a reply with that status, the content given, exactly one
    Content-Type value, the setter's own, and every other header as it
    was. On a null-body status (204, 304, ...) [build()] throws instead. *)
Theorem body_setter_reply :
  forall b content,
    (200 <= _status b <= 599)%Z ->
    let reply (type : string) (built : Completion Response.t) : Prop :=
      if null_body_status (_status b) then
        built = Threw (JsError "TypeError" "body on a null body status")
      else
        exists r,
          built = Returned r
          /\ Response.status r = _status b
          /\ Response.body r = Some content
          /\ Headers.values (Response.headers r) "Content-Type" = [type]
          /\ forall name,
               Js.toLowerCase name <> "content-type" ->
               Headers.values (Response.headers r) name
               = Headers.values (_headers b) name in
    reply "application/json; charset=utf-8" (snd (build (json b content)))
    /\ reply "text/plain; charset=utf-8" (snd (build (text b content)))
    /\ reply "text/html; charset=utf-8" (snd (build (html b content))).
Proof.
  intros b content H reply. unfold reply, json, text, html.
  rewrite !(content_reply b _ content H).
  destruct (null_body_status (_status b)); [auto|].
  repeat split; eexists; (split; [reflexivity|]); simpl;
    (repeat split; [apply values_set_same|]);
    intros name N; apply values_set_other; exact N.
Qed.

(** A [text] body over an earlier [json] one, on the default status. *)
Lemma body_setter_reply_witness :
  exists r,
    snd (build (text (json createResponseBuilder "{}") "hi")) = Returned r
    /\ Response.status r = 200%Z
    /\ Response.body r = Some "hi"
    /\ Headers.values (Response.headers r) "Content-Type"
       = ["text/plain; charset=utf-8"]
    /\ forall name,
         Js.toLowerCase name <> "content-type" ->
         Headers.values (Response.headers r) name
         = Headers.values (_headers (json createResponseBuilder "{}")) name.
Proof.
  exact (proj1 (proj2 (body_setter_reply (json createResponseBuilder "{}") "hi"
                         ltac:(simpl; lia)))).
Defined.

(** [redirect(url, status)] with a url the platform accepts as a
    header value and a status in 200..599 builds a reply with that
    status, no body (a body set before is dropped) and the Location
    header; the other headers stay, a Content-Type set by an earlier
    [json] among them. The heuristic of [toHono] and [toKoa] counts the
    reply as content, even with status 200. *)
Theorem redirect_reply :
  forall b url status,
    Headers.valid_value url = true ->
    (200 <= status <= 599)%Z ->
    exists r,
      snd (build (redirect b url status)) = Returned r
      /\ Response.status r = status
      /\ Response.body r = None
      /\ Headers.get (Response.headers r) "Location"
         = Some (Headers.normalize url)
      /\ (forall name,
            Js.toLowerCase name <> "location" ->
            Headers.values (Response.headers r) name
            = Headers.values (_headers b) name)
      /\ hasContent r = true.
Proof.
  intros b url status _ H. unfold build, redirect, new_Response; simpl.
  rewrite (in_range_status _ H). eexists; split; [reflexivity|]. simpl.
  repeat split.
  - apply get_set_same.
  - intros name N. apply values_set_other. exact N.
  - unfold hasContent; simpl. rewrite has_set_same.
    now rewrite orb_true_r.
Qed.

(** The default redirect of a builder that held a JSON body. *)
Lemma redirect_reply_witness :
  exists r,
    snd (build (redirect (json createResponseBuilder "{}") "/login" 302))
    = Returned r
    /\ Response.status r = 302%Z
    /\ Response.body r = None
    /\ Headers.get (Response.headers r) "Location" = Some "/login"
    /\ (forall name,
          Js.toLowerCase name <> "location" ->
          Headers.values (Response.headers r) name
          = Headers.values (_headers (json createResponseBuilder "{}")) name)
    /\ hasContent r = true.
Proof.
  exact (redirect_reply (json createResponseBuilder "{}") "/login" 302
           eq_refl ltac:(lia)).
Defined.

End BuilderReplies.

Section Hosts.

Import Chain Adapters HostAdapters.

(** A reply without a Content-Type is written without reading it as
    JSON. *)
Lemma readError_untyped (response : Response.t) :
  Headers.has (Response.headers response) "Content-Type" = false ->
  readError response = None.
Proof.
  intro C. unfold readError, contentType.
  rewrite (HeadersFacts.get_absent _ _ C). reflexivity.
Qed.

(** A reply with content reaches every host, if it can be read: when
    the chain's reply has a status other than 200 or a Content-Type
    header, [toHono] hands it to its host whatever the options, and the
    other four adapters write it to theirs, unless its Content-Type
    names JSON and its body is missing or is not JSON text. Then reading
    it fails: [toKoa] and the Fastify hooks reject with the error, and
    [toExpress] passes it to [next(error)]. *)
Theorem content_reaches_every_host :
  forall chain options env rq l chain' l' response,
    handle chain env rq [] l = Some (chain', l', Returned response) ->
    Response.status response <> 200%Z
    \/ Headers.has (Response.headers response) "Content-Type" = true ->
    let readable :=
      negb (Js.contains "application/json" (contentType response))
      || match Response.body response with
         | Some text => JSON.parses (dropBOM text)
         | None => false
         end in
    let e := JsError "SyntaxError" EmptyString in
    toHono chain options env rq l
    = Some (chain', l', Returned (Replied response))
    /\ toKoa chain options env rq l
       = Some (chain', l',
               if readable then Returned (Replied response) else Threw e)
    /\ toExpress chain options env rq l
       = Some (chain', l', if readable then Sent response else NextWith e)
    /\ toFastify chain env rq l
       = Some (chain', l',
               if readable then Returned (ReplySent response) else Threw e)
    /\ fastifyPreHandler chain env rq l
       = Some (chain', l',
               if readable then Returned (ReplySent response) else Threw e).
Proof.
  intros chain options env rq l chain' l' response H C readable e.
  assert (R : readError response = if readable then None else Some e).
  { unfold readError, readable.
    destruct (Js.contains _ _); [|reflexivity].
    destruct (Response.body response) as [text|]; [|reflexivity].
    destruct (JSON.parses _); reflexivity. }
  unfold toHono, toKoa, toExpress, toFastify, fastifyPreHandler, hasContent.
  rewrite H, R.
  destruct C as [C|C].
  - apply Z.eqb_neq in C. rewrite C.
    destruct (passThrough options) as [[|]|];
      destruct (Headers.has (Response.headers response) "Content-Type");
      destruct (Headers.has (Response.headers response) "Location");
      destruct readable; repeat split; reflexivity.
  - rewrite C.
    destruct (passThrough options) as [[|]|];
      destruct (Response.status response =? 200)%Z;
      destruct readable; repeat split; reflexivity.
Qed.

(** A JSON reply is written by Express; one that announces JSON and
    is not goes to Hono as it is, makes Koa reject, and Express call
    [next(error)]. *)
Lemma content_reaches_every_host_witness :
  let reply :=
    Response.mk 200 [("content-type", "application/json; charset=utf-8")]
                (Some "{}") in
  let mistyped :=
    Response.mk 200 [("content-type", "application/json")] (Some "oops") in
  toExpress Examples.json_chain defaultOptions Examples.env0 Examples.get_root []
  = Some (mk (middlewares Examples.json_chain) true,
          [Entered 0; Resumed 0], Sent reply)
  /\ toHono Examples.mistyped_chain defaultOptions Examples.env0
       Examples.get_root []
     = Some (mk (middlewares Examples.mistyped_chain) true,
             [Entered 0; Resumed 0], Returned (Replied mistyped))
  /\ toKoa Examples.mistyped_chain defaultOptions Examples.env0
       Examples.get_root []
     = Some (mk (middlewares Examples.mistyped_chain) true,
             [Entered 0; Resumed 0], Threw (JsError "SyntaxError" EmptyString))
  /\ toExpress Examples.mistyped_chain defaultOptions Examples.env0
       Examples.get_root []
     = Some (mk (middlewares Examples.mistyped_chain) true,
             [Entered 0; Resumed 0],
             NextWith (JsError "SyntaxError" EmptyString)).
Proof.
  split.
  - exact (proj1 (proj2 (proj2
             (content_reaches_every_host Examples.json_chain
                defaultOptions Examples.env0 Examples.get_root []
                _ _ _ eq_refl (or_intror eq_refl))))).
  - pose proof (content_reaches_every_host Examples.mistyped_chain
                  defaultOptions Examples.env0 Examples.get_root []
                  _ _ _ eq_refl (or_intror eq_refl)) as (H & K & X & _).
    split; [exact H|]. split; [exact K | exact X].
Defined.

(** Where the hosts differ: a reply with status 200 and no
    Content-Type. [toExpress] writes it unless [passThrough] is set, and
    then calls [next()] even when the reply has a Location header. With
    a Location header [toHono], [toKoa] and [toFastify] write it and
    [fastifyPreHandler] does not; without one the Fastify hooks go on,
    [toHono] calls [next()] by default and [toKoa] by default does
    nothing. *)
Theorem hosts_differ_without_content :
  forall chain env rq l chain' l' response,
    handle chain env rq [] l = Some (chain', l', Returned response) ->
    Response.status response = 200%Z ->
    Headers.has (Response.headers response) "Content-Type" = false ->
    toExpress chain defaultOptions env rq l = Some (chain', l', Sent response)
    /\ toExpress chain (mkOptions (Some true)) env rq l = Some (chain', l', Next)
    /\ fastifyPreHandler chain env rq l = Some (chain', l', Returned GoOn)
    /\ if Headers.has (Response.headers response) "Location" then
         toHono chain defaultOptions env rq l
         = Some (chain', l', Returned (Replied response))
         /\ toKoa chain defaultOptions env rq l
            = Some (chain', l', Returned (Replied response))
         /\ toFastify chain env rq l
            = Some (chain', l', Returned (ReplySent response))
       else
         toHono chain defaultOptions env rq l
         = Some (chain', l', Returned CalledNext)
         /\ toKoa chain defaultOptions env rq l
            = Some (chain', l', Returned Nothing)
         /\ toFastify chain env rq l = Some (chain', l', Returned GoOn).
Proof.
  intros chain env rq l chain' l' response H S C.
  unfold toHono, toKoa, toExpress, toFastify, fastifyPreHandler, hasContent.
  rewrite H, S, C, (readError_untyped _ C). simpl.
  destruct (Headers.has (Response.headers response) "Location");
    repeat split; reflexivity.
Qed.

(** A sole handler that sets nothing: Express gets an empty 200 reply. *)
Lemma hosts_differ_without_content_witness :
  toExpress Examples.idle_chain defaultOptions Examples.env0 Examples.get_root []
  = Some (mk (middlewares Examples.idle_chain) true, [Entered 0; Resumed 0],
          Sent (Response.mk 200 [] None)).
Proof.
  exact (proj1 (hosts_differ_without_content Examples.idle_chain
                  Examples.env0 Examples.get_root [] _ _ _
                  eq_refl eq_refl eq_refl)).
Defined.

End Hosts.

(* ================================================================== *)
(** ** stores/memory.ts *)
(* ================================================================== *)

Module StoreFacts.

Import MemoryStore.

Section Maps.

Variable T : Type.
Implicit Types (m s : MemoryStore.t T) (e : CacheEntry T).

Lemma lookup_put_same m key e : lookup (put m key e) key = Some e.
Proof.
  unfold lookup. induction m as [|x m IH]; simpl.
  - now rewrite String.eqb_refl.
  - destruct (String.eqb (fst x) key) eqn:E; simpl.
    + now rewrite String.eqb_refl.
    + rewrite E. exact IH.
Qed.

Lemma lookup_put_other m key e other :
  other <> key -> lookup (put m key e) other = lookup m other.
Proof.
  intro N. apply String.eqb_neq in N.
  unfold lookup. induction m as [|x m IH]; simpl.
  - rewrite String.eqb_sym. now rewrite N.
  - destruct (String.eqb (fst x) key) eqn:E; simpl.
    + apply String.eqb_eq in E. rewrite E.
      rewrite (String.eqb_sym key other), N. reflexivity.
    + destruct (String.eqb (fst x) other); [reflexivity | exact IH].
Qed.

Lemma lookup_remove_same m key : lookup (remove m key) key = None.
Proof.
  unfold lookup, remove. induction m as [|x m IH]; simpl; [reflexivity|].
  destruct (String.eqb (fst x) key) eqn:E; simpl; [exact IH|].
  now rewrite E.
Qed.

Lemma lookup_remove_other m key other :
  other <> key -> lookup (remove m key) other = lookup m other.
Proof.
  intro N. unfold lookup, remove. induction m as [|x m IH]; simpl; [reflexivity|].
  destruct (String.eqb (fst x) key) eqn:E; simpl.
  - apply String.eqb_eq in E. rewrite E.
    apply String.eqb_neq in N. rewrite (String.eqb_sym key other), N. exact IH.
  - destruct (String.eqb (fst x) other); [reflexivity | exact IH].
Qed.

Lemma lookup_in m key e : lookup m key = Some e -> In (key, e) m.
Proof.
  unfold lookup. induction m as [|[k x] m IH]; simpl; [discriminate|].
  destruct (String.eqb k key) eqn:E; simpl.
  - apply String.eqb_eq in E. intros [= <-]. left; now subst.
  - intro H; right; exact (IH H).
Qed.

Lemma lookup_none m key : lookup m key = None -> ~ In key (map fst m).
Proof.
  unfold lookup. induction m as [|[k x] m IH]; simpl; [tauto|].
  destruct (String.eqb_spec k key) as [->|N]; simpl; [discriminate|].
  intros H [E|I]; [contradiction | exact (IH H I)].
Qed.

Lemma in_cleanup s now key e :
  In (key, e) (cleanup s now) <-> In (key, e) s /\ expired now e = false.
Proof.
  unfold cleanup. rewrite filter_In. simpl. now rewrite negb_true_iff.
Qed.

(** With distinct keys, [cleanup] takes away an entry exactly when it
    has expired. *)
Lemma lookup_cleanup s now key :
  wf s ->
  lookup (cleanup s now) key
  = match lookup s key with
    | Some e => if expired now e then None else Some e
    | None => None
    end.
Proof.
  unfold wf, lookup, cleanup. induction s as [|[k x] s IH]; simpl; [reflexivity|].
  intro W. inversion W as [|? ? Hk Hs]; subst.
  destruct (String.eqb_spec k key) as [->|N]; simpl.
  - destruct (expired now x) eqn:X; simpl.
    + rewrite (IH Hs).
      destruct (find _ s) as [[k' x']|] eqn:F; [|reflexivity].
      exfalso. apply Hk. apply find_some in F as [I E]. simpl in E.
      apply String.eqb_eq in E; subst k'.
      change key with (fst (key, x')). now apply in_map.
    + now rewrite String.eqb_refl.
  - destruct (expired now x); simpl.
    + exact (IH Hs).
    + apply String.eqb_neq in N. rewrite N. exact (IH Hs).
Qed.

Lemma expired_later now later e :
  (now <= later)%Z -> expired now e = true -> expired later e = true.
Proof.
  unfold expired. destruct (expiresAt e) as [x|]; [|discriminate].
  rewrite !Z.gtb_ltb, !Z.ltb_lt. lia.
Qed.

Lemma keys_put m key e :
  forall k, In k (map fst (put m key e)) <-> k = key \/ In k (map fst m).
Proof.
  induction m as [|x m IH]; intro k; simpl; [intuition|].
  destruct (String.eqb_spec (fst x) key) as [E|N]; simpl.
  - rewrite E. intuition.
  - rewrite IH. intuition.
Qed.

Lemma wf_put m key e : wf m -> wf (put m key e).
Proof.
  unfold wf. induction m as [|x m IH]; simpl; intro W.
  - constructor; [simpl; tauto | constructor].
  - inversion W as [|? ? Hk Hs]; subst.
    destruct (String.eqb_spec (fst x) key) as [E|N]; simpl.
    + constructor; [now rewrite <- E | exact Hs].
    + constructor; [|exact (IH Hs)].
      rewrite keys_put. intros [E|I]; [congruence | contradiction].
Qed.

Lemma wf_filter (f : string * CacheEntry T -> bool) m : wf m -> wf (filter f m).
Proof.
  unfold wf. induction m as [|x m IH]; simpl; intro W; [constructor|].
  inversion W as [|? ? Hk Hs]; subst.
  destruct (f x); simpl; [|exact (IH Hs)].
  constructor; [|exact (IH Hs)].
  intro I. apply Hk. apply in_map_iff in I as (y & E & I).
  apply filter_In in I as [I _]. rewrite <- E. now apply in_map.
Qed.

(** [map.set] adds one entry for a new key and none for a key that is
    there. *)
Lemma size_put m key e :
  size (put m key e)
  = match lookup m key with Some _ => size m | None => S (size m) end.
Proof.
  unfold size, lookup. induction m as [|x m IH]; [reflexivity|].
  cbn [put find]. destruct (String.eqb (fst x) key); cbn [List.length option_map].
  - reflexivity.
  - rewrite IH. now destruct (find _ m).
Qed.

Lemma remove_absent m key : ~ In key (map fst m) -> remove m key = m.
Proof.
  unfold remove. induction m as [|x m IH]; intro N; [reflexivity|].
  cbn [filter]. destruct (String.eqb_spec (fst x) key) as [E|D]; cbn [negb].
  - destruct N. left; exact E.
  - rewrite IH; [reflexivity|]. intro I. apply N. right; exact I.
Qed.

(** [map.delete] of a key that is there takes one entry away. *)
Lemma size_remove m key e :
  wf m -> lookup m key = Some e -> S (size (remove m key)) = size m.
Proof.
  unfold wf, size, lookup, remove.
  induction m as [|x m IH]; intros W L; [discriminate|].
  inversion W as [|? ? Hk Hs]; subst.
  cbn [find filter] in *.
  destruct (String.eqb_spec (fst x) key) as [E|D]; cbn [negb List.length].
  - fold (remove m key). rewrite remove_absent; [reflexivity|].
    rewrite <- E. exact Hk.
  - f_equal. apply IH; assumption.
Qed.

End Maps.

End StoreFacts.

Section StoreReads.

Import MemoryStore StoreFacts.

Variable T : Type.

(** A value set is the value read until its time is up:
    [get(key)] after [set(key, v, ttl)] gives [v] at every time up to and
    including [now + ttl] and [undefined] after it; with no [ttl], or one
    that is zero or negative, it gives [v] at every time. Other keys read
    as before. *)
Theorem set_then_get :
  forall (s : MemoryStore.t T) now key v ttl later,
    snd (get (set s now key v ttl) later key)
    = match ttl with
      | Some ttl =>
          if (0 <? ttl)%Z && (now + ttl <? later)%Z then None else Some v
      | None => Some v
      end
    /\ forall other,
         other <> key ->
         snd (get (set s now key v ttl) later other) = snd (get s later other).
Proof.
  intros s now key v ttl later. unfold get, set. split.
  - rewrite lookup_put_same. unfold expired; simpl.
    destruct ttl as [x|]; [|reflexivity].
    rewrite Z.gtb_ltb. destruct (0 <? x)%Z; simpl; [|reflexivity].
    rewrite Z.gtb_ltb. destruct (now + x <? later)%Z; reflexivity.
  - intros other N. rewrite (lookup_put_other _ _ _ _ _ N).
    destruct (lookup s other) as [e|]; [|reflexivity].
    destruct (expired later e); reflexivity.
Qed.

(** The timer's [cleanup()] is invisible to readers: on a store
    whose keys are distinct, whatever [get] answers at a time not before
    the cleanup it answers the same had the cleanup not run; what the
    cleanup leaves are the entries not expired when it ran, and the keys
    stay distinct. *)
Theorem cleanup_unseen :
  forall (s : MemoryStore.t T) now later,
    wf s ->
    (now <= later)%Z ->
    (forall key, snd (get (cleanup s now) later key) = snd (get s later key))
    /\ (forall key e,
          In (key, e) (cleanup s now)
          <-> In (key, e) s /\ expired now e = false)
    /\ wf (cleanup s now).
Proof.
  intros s now later W L. split; [|split].
  - intro key. unfold get. rewrite (lookup_cleanup _ _ _ _ W).
    destruct (lookup s key) as [e|]; [|reflexivity].
    destruct (expired now e) eqn:X.
    + now rewrite (expired_later _ _ _ e L X).
    + destruct (expired later e); reflexivity.
  - intros key e. apply in_cleanup.
  - apply wf_filter. exact W.
Qed.

End StoreReads.

Section StoreExamples.

Import MemoryStore.

(** Two entries, one with ten seconds to live, read after a cleanup. *)
Lemma cleanup_unseen_witness :
  let s := set (set createMemoryStore 0 "a" 1%Z (Some 10000%Z))
               0 "b" 2%Z None in
  snd (get (cleanup s 20000) 30000 "a") = snd (get s 30000 "a").
Proof.
  intro s.
  refine (proj1 (cleanup_unseen Z s 20000 30000 _ _) "a").
  - unfold wf; simpl.
    constructor; [simpl; intros [H|[]]; discriminate H|].
    constructor; [simpl; tauto | constructor].
  - lia.
Defined.

Lemma set_then_get_witness :
  snd (get (set (set createMemoryStore 0 "a" 1%Z None) 5 "b" 2%Z (Some 10%Z))
           15 "a")
  = snd (get (set createMemoryStore 0 "a" 1%Z None) 15 "a").
Proof.
  refine (proj2 (set_then_get Z _ 5 "b" 2%Z (Some 10%Z) 15) "a" _).
  discriminate.
Defined.

End StoreExamples.

Section Lingering.

Import MemoryStore StoreFacts.

Variable T : Type.

(** An expired entry stays in the map until it is read or
    collected: after its time is up [has] and [get] answer as if it were
    gone, yet [size] still counts it (one more than before the [set]
    for a new key) and [delete] answers true; once a [get] has met it,
    it is gone: [size] is one less and [delete] answers false. *)
Theorem expired_entry_lingers :
  forall (s : MemoryStore.t T) now key v ttl later,
    wf s ->
    (0 < ttl)%Z ->
    (now + ttl < later)%Z ->
    let s1 := set s now key v (Some ttl) in
    snd (has s1 later key) = false
    /\ snd (get s1 later key) = None
    /\ size s1
       = match lookup s key with Some _ => size s | None => S (size s) end
    /\ snd (delete s1 key) = true
    /\ S (size (fst (get s1 later key))) = size s1
    /\ snd (delete (fst (get s1 later key)) key) = false.
Proof.
  intros s now key v ttl later W Hpos Hlate s1.
  pose proof (size_remove T s1 key _ (wf_put T s key _ W)
                (lookup_put_same T s key _)) as Hrem.
  pose proof (size_put T s key (mkEntry v (Some (now + ttl)%Z))) as Hput.
  revert Hrem Hput. unfold s1, has, get, delete, set.
  rewrite lookup_put_same. unfold expired; simpl.
  apply Z.gtb_lt in Hpos as Hp. rewrite Hp. simpl.
  assert (Hx : (later >? now + ttl)%Z = true) by (apply Z.gtb_lt; lia).
  rewrite Hx. simpl. rewrite lookup_remove_same.
  intros Hrem Hput. repeat split; assumption.
Qed.

End Lingering.

Section LingeringExample.

Import MemoryStore.

Lemma expired_entry_lingers_witness :
  let s1 := set createMemoryStore 0 "a" 1%Z (Some 10%Z) in
  snd (has s1 11 "a") = false
  /\ snd (get s1 11 "a") = None
  /\ size s1 = 1
  /\ snd (delete s1 "a") = true
  /\ S (size (fst (get s1 11 "a"))) = size s1
  /\ snd (delete (fst (get s1 11 "a")) "a") = false.
Proof.
  exact (expired_entry_lingers Z createMemoryStore 0 "a" 1%Z 10 11
           (NoDup_nil _) ltac:(lia) ltac:(lia)).
Defined.

End LingeringExample.

(* ================================================================== *)
(** ** middlewares/rate-limit.ts *)
(* ================================================================== *)

Module RateLimitFacts.

Import MemoryStore StoreFacts RateLimit.

Section Windows.

Variable options : RateLimitOptions.
Variable key : string.

(** A request that finds no window still open is the first of a new
    one, whether the store had dropped the entry or not. *)
Lemma account_new (store : Store) now :
  (forall ce, lookup store key = Some ce -> (resetAt (value ce) < now)%Z) ->
  exists store',
    account options store now key
    = (store', mkEntry 1 (now + windowMs options))
    /\ lookup store' key
       = Some (MemoryStore.mkEntry (mkEntry 1 (now + windowMs options))
                 (if (windowMs options >? 0)%Z
                  then Some (now + windowMs options)%Z else None)).
Proof.
  intro Hold. unfold account, get.
  destruct (lookup store key) as [ce|] eqn:L.
  - specialize (Hold ce eq_refl).
    assert (Hgt : (now >? resetAt (value ce))%Z = true) by (apply Z.gtb_lt; lia).
    destruct (expired now ce); unfold counted; try rewrite Hgt; simpl;
      eexists; (split; [reflexivity|]); unfold set; apply lookup_put_same.
  - unfold counted; simpl.
    eexists; (split; [reflexivity|]); unfold set; apply lookup_put_same.
Qed.

(** A request inside the open window adds one to its count. *)
Lemma account_open (store : Store) now c r ex :
  lookup store key = Some (MemoryStore.mkEntry (mkEntry c r) ex) ->
  match ex with Some e => (r <= e)%Z | None => True end ->
  (now <= r)%Z ->
  exists store',
    account options store now key = (store', mkEntry (c + 1) r)
    /\ lookup store' key
       = Some (MemoryStore.mkEntry (mkEntry (c + 1) r)
                 (if (windowMs options >? 0)%Z
                  then Some (now + windowMs options)%Z else None)).
Proof.
  intros L Hex Hr. unfold account, get. rewrite L.
  assert (X : expired now (MemoryStore.mkEntry (mkEntry c r) ex) = false).
  { unfold expired; simpl. destruct ex as [e|]; [|reflexivity].
    rewrite Z.gtb_ltb. apply Z.ltb_ge. lia. }
  rewrite X. unfold counted; simpl.
  assert (G : (now >? r)%Z = false) by (rewrite Z.gtb_ltb; apply Z.ltb_ge; lia).
  rewrite G. simpl.
  eexists; (split; [reflexivity|]); unfold set; apply lookup_put_same.
Qed.

Lemma serve_open times : forall (store : Store) c r ex lo,
  lookup store key = Some (MemoryStore.mkEntry (mkEntry c r) ex) ->
  match ex with Some e => (r <= e)%Z | None => True end ->
  (r <= lo + windowMs options)%Z ->
  ordered_within lo r times = true ->
  serve options store key times
  = map (fun i => (c + Z.of_nat i >? max options)%Z)
        (seq 1 (List.length times)).
Proof.
  induction times as [|t rest IH]; intros store c r ex lo L Hex Hr Ho;
    [reflexivity|].
  cbn [ordered_within] in Ho.
  apply andb_true_iff in Ho as [Ho Hrest]. apply andb_true_iff in Ho as [H1 H2].
  apply Z.leb_le in H1, H2.
  destruct (account_open store t c r ex L Hex H2) as (store' & E & L').
  cbn [serve]. rewrite E.
  rewrite (IH store' (c + 1)%Z r _ t L').
  - cbn [List.length seq map]. unfold exceeded; cbn [count]. f_equal.
    rewrite <- (seq_shift (List.length rest) 1), map_map.
    apply map_ext. intro i. f_equal. lia.
  - destruct (windowMs options >? 0)%Z; simpl; [lia | exact I].
  - lia.
  - exact Hrest.
Qed.

Lemma serve_window (store : Store) t0 times :
  (forall ce, lookup store key = Some ce -> (resetAt (value ce) < t0)%Z) ->
  ordered_within t0 (t0 + windowMs options) times = true ->
  serve options store key (t0 :: times)
  = map (fun i => (Z.of_nat i >? max options)%Z)
        (seq 1 (S (List.length times))).
Proof.
  intros Hold Ho.
  destruct (account_new store t0 Hold) as (store' & E & L').
  cbn [serve]. rewrite E.
  rewrite (serve_open times store' 1%Z (t0 + windowMs options)%Z _ t0 L').
  - cbn [List.length seq map]. unfold exceeded; cbn [count]. f_equal.
    rewrite <- (seq_shift (List.length times) 1), map_map.
    apply map_ext. intro i. f_equal. lia.
  - destruct (windowMs options >? 0)%Z; simpl; [lia | exact I].
  - lia.
  - exact Ho.
Qed.

End Windows.

End RateLimitFacts.

Section RateLimiting.

Import Context Chain Onion DriverFacts OnionFacts RateLimit.

(** One window lets [max] requests through. When a key has no
    window open at [t0] (it is new, or its last window was over before
    [t0]), of the requests made with that key at [t0] and at later times
    in order up to [t0 + windowMs], the i-th is refused exactly when
    [i > max]: the count starts anew at [t0], refused requests count
    too, and neither the store's expiry nor the reading of an expired
    entry changes it. *)
Theorem window_counts_requests :
  forall options (store : Store) key t0 times,
    (forall ce, MemoryStore.lookup store key = Some ce ->
                (resetAt (MemoryStore.value ce) < t0)%Z) ->
    ordered_within t0 (t0 + windowMs options) times = true ->
    serve options store key (t0 :: times)
    = map (fun i => (Z.of_nat i >? max options)%Z)
          (seq 1 (S (List.length times))).
Proof.
  intros options store key t0 times Hold Ho.
  exact (RateLimitFacts.serve_window options key store t0 times Hold Ho).
Qed.

(** Two requests a minute: the third within the minute is refused. *)
Lemma window_counts_requests_witness :
  serve (mkOptions 2 60000) MemoryStore.createMemoryStore "203.0.113.5"
        [1000; 2000; 61000]%Z
  = [false; false; true].
Proof.
  refine (window_counts_requests (mkOptions 2 60000)
            MemoryStore.createMemoryStore "203.0.113.5" 1000%Z
            [2000; 61000]%Z _ eq_refl).
  intros ce H; discriminate H.
Defined.


End RateLimiting.

Section RateLimitingExample.

Import Chain RateLimit.


End RateLimitingExample.

(* ================================================================== *)
(** ** middlewares/cors.ts *)
(* ================================================================== *)

Section CrossOrigin.

Import Context Chain Onion DriverFacts OnionFacts HeadersFacts Cors.

(** [cors] names no origin the configuration does not allow.
    When [resolveOrigin] gives none (no Origin header, an empty one, or
    one not allowed) the handler is just [await next(); return
    { done: false }]: no header is set, not even Vary, and an OPTIONS
    request goes downstream. When it gives one, that value is not empty
    and is ['*'] for the wildcard, the request's own origin when it
    equals the configured string, is in the configured list or passes
    the pattern or the function, or the string the function gave. *)
Theorem cors_allows_configured_origins :
  forall options nxt me s,
    let requestOrigin :=
      Headers.get (Request.headers (request (ctx s))) "Origin" in
    match resolveOrigin (origin options) requestOrigin with
    | None =>
        run_handler nxt me (Cors.handler options) s
        = run_handler nxt me (AwaitNext (Return NotDone)) s
    | Some allowed =>
        allowed <> EmptyString
        /\ match origin options with
           | OriginString config =>
               (config = "*" /\ allowed = "*")
               \/ (requestOrigin = Some allowed /\ allowed = config)
           | OriginList l => requestOrigin = Some allowed /\ In allowed l
           | OriginRegExp test =>
               requestOrigin = Some allowed /\ test allowed = true
           | OriginFunction f =>
               exists o,
                 requestOrigin = Some o
                 /\ ((f o = inl true /\ allowed = o) \/ f o = inr allowed)
           end
    end.
Proof.
  intros options nxt me s requestOrigin.
  destruct (resolveOrigin (origin options) requestOrigin) as [allowed|] eqn:R.
  - unfold resolveOrigin in R.
    destruct requestOrigin as [o|]; [|discriminate].
    destruct o as [|c o]; [discriminate|]. cbn [Js.truthy negb] in R.
    destruct (origin options) as [config|l|test|f].
    + destruct (String.eqb_spec config "*") as [E|N].
      * injection R as <-. split; [discriminate | left; auto].
      * destruct (String.eqb_spec config (String c o)) as [E|N'];
          [|discriminate].
        injection R as <-. split; [discriminate | right; auto].
    + destruct (existsb (String.eqb (String c o)) l) eqn:E; [|discriminate].
      injection R as <-. split; [discriminate|]. split; [reflexivity|].
      apply existsb_exists in E as (x & I & Q).
      apply String.eqb_eq in Q. now subst.
    + destruct (test (String c o)) eqn:E; [|discriminate].
      injection R as <-. split; [discriminate|]. auto.
    + destruct (f (String c o)) as [[|]|result] eqn:E; try discriminate.
      * injection R as <-. split; [discriminate|].
        exists (String c o); auto.
      * destruct result as [|d result]; [discriminate|].
        injection R as <-. split; [discriminate|].
        exists (String c o); auto.
  - unfold Cors.handler. cbn [run_handler]. fold requestOrigin.
    rewrite R. reflexivity.
Qed.

(** A preflight request is answered by [cors] itself. With
    [cors(options)] registered first, [preflightContinue] off and a
    success status in 200..599, an OPTIONS request whose Origin is
    allowed gets a reply with that status and no body that carries the
    allowed origin, the configured methods and Vary, and no handler
    after [cors] is entered. *)
Theorem cors_preflight_reply :
  forall options downs env rq st log0 o allowed,
    Headers.get (Request.headers rq) "Origin" = Some o ->
    o <> EmptyString ->
    resolveOrigin (origin options) (Some o) = Some allowed ->
    allowed <> EmptyString ->
    Request.method rq = "OPTIONS" ->
    preflightContinue options = false ->
    (200 <= optionsSuccessStatus options <= 599)%Z ->
    exists reply,
      handle (mk (cors options :: downs) true) env rq st log0
      = Some (mk (cors options :: downs) true, log0 ++ [Entered 0],
              Returned reply)
      /\ Response.status reply = optionsSuccessStatus options
      /\ Response.body reply = None
      /\ Headers.get (Response.headers reply) "Access-Control-Allow-Origin"
         = Some (Headers.normalize allowed)
      /\ Headers.get (Response.headers reply) "Access-Control-Allow-Methods"
         = Some (Headers.normalize (String.concat ", " (methods options)))
      /\ Headers.get (Response.headers reply) "Vary"
         = Some "Origin, Access-Control-Request-Headers".
Proof.
  intros options downs env rq st log0 o allowed Ho Hne Hres Hane Hm Hpc Hst.
  unfold handle, ensureInitialized, executeChain.
  cbn [initialized negb middlewares].
  set (s0 := mkRun (createContext env rq st) 0 log0).
  change (List.length (cors options :: downs)) with (S (List.length downs)).
  rewrite (next_enters (cors options :: downs) (List.length downs) s0
             (cors options) eq_refl eq_refl).
  cbn [cors Chain.handler]. unfold Cors.handler. cbn [run_handler].
  change (Context.request (ctx (enter (index s0) s0))) with rq.
  rewrite Ho, Hres, Hm, Hpc.
  assert (T1 : Js.truthy o = true) by (destruct o; [contradiction | reflexivity]).
  assert (T2 : Js.truthy allowed = true)
    by (destruct allowed; [contradiction | reflexivity]).
  unfold present. rewrite T1, T2. cbn [negb orb].
  change ("OPTIONS" =? "OPTIONS")%string with true. cbv iota.
  rewrite !run_do_ops. cbn [run_handler apply_op].
  unfold commonHeaders, preflightHeaders.
  generalize (Headers.get (Request.headers rq) "Access-Control-Request-Headers")
    as requested.
  intro requested.
  generalize (match Js.or_else requested
                      (Some (String.concat ", " (allowedHeaders options))) with
              | Some v => v
              | None => EmptyString
              end) as allowHeaders.
  intro allowHeaders.
  generalize (String.concat ", " (methods options)) as allowMethods.
  generalize (String.concat ", " (exposedHeaders options)) as exposed.
  generalize (JsNumber.toString (maxAge options)) as age.
  intros age exposed allowMethods.
  pose proof (in_range_status _ Hst) as Hrange.
  destruct (credentials options);
    destruct (Nat.ltb 0 (List.length (exposedHeaders options)));
    destruct (negb (maxAge options =? 0)%Z);
    cbn [app apply_ops fold_left apply_op with_response
         ResponseBuilder.build ResponseBuilder.setStatus ResponseBuilder.setHeader
         Chain.ctx Context.response ResponseBuilder._status
         ResponseBuilder._headers ResponseBuilder._body fst snd enter record
         Chain.index Chain.log s0 createContext
         ResponseBuilder.createResponseBuilder];
    unfold new_Response; rewrite Hrange;
    (eexists; split; [reflexivity|]);
    repeat split; reflexivity.
Qed.

(** The test "should handle preflight requests": [cors()] alone. *)
Lemma cors_preflight_reply_witness :
  exists reply,
    handle (mk [cors defaults] true) Examples.env0
      (Request.mk "https://api.example.com/users" "OPTIONS"
         (Headers.of_list [("Origin", "https://example.com")])) [] []
    = Some (mk [cors defaults] true, [Entered 0], Returned reply)
    /\ Response.status reply = 204%Z
    /\ Response.body reply = None
    /\ Headers.get (Response.headers reply) "Access-Control-Allow-Origin"
       = Some "*"
    /\ Headers.get (Response.headers reply) "Access-Control-Allow-Methods"
       = Some "GET, HEAD, PUT, PATCH, POST, DELETE"
    /\ Headers.get (Response.headers reply) "Vary"
       = Some "Origin, Access-Control-Request-Headers".
Proof.
  exact (cors_preflight_reply defaults [] Examples.env0
           (Request.mk "https://api.example.com/users" "OPTIONS"
              (Headers.of_list [("Origin", "https://example.com")]))
           [] [] "https://example.com" "*"
           eq_refl ltac:(discriminate) eq_refl ltac:(discriminate)
           eq_refl eq_refl ltac:(simpl; lia)).
Defined.

End CrossOrigin.
